(** * md: a terminal renderer for Markdown

    A shallow embedding of the renderer ([internal/renderer]), of the
    theme manager ([internal/theme]) and of the code highlighter
    ([internal/highlighter]), with the properties of the rendered text,
    and of the viewer ([internal/viewer]).

    Go strings are byte sequences: they are lists of [ascii] here, and
    the glyphs of the renderer ("│", "•", ...) are their UTF-8 bytes.
    The functions of Go's [strings] package that work on runes decode
    the bytes as Go does: [TrimSpace] removes the runes of
    [unicode.IsSpace] at both ends, [ToLower] maps every rune with
    [unicode.ToLower] and writes U+FFFD for a byte that is no encoding.
    The lower-case mapping of the code points beyond ASCII is the table
    [unicode.CaseRanges] of Go's library; it is a parameter
    ([unicode.CaseTable]) of the functions that use it. *)

From Stdlib Require Import ZArith Ascii String List Bool Lia.
From stdpp Require Import base gmap strings.
Import ListNotations.

Local Open Scope list_scope.

(** ** Go strings *)

Definition gostring := list ascii.

Definition str (s : string) : gostring := list_ascii_of_string s.

Definition LF : ascii := "010"%char.
Definition TAB : ascii := "009"%char.
Definition SP : ascii := " "%char.
Definition ESC : ascii := "027"%char.

Definition gostring_eqb (a b : gostring) : bool :=
  bool_decide (a = b).

(** Go's [error] interface: a value carrying a message, [None] for nil. *)
Definition error := gostring.

(** A call either returns or panics (a run-time error of Go). *)
Inductive result (A : Type) : Type :=
| Ret (a : A)
| Panic.
Arguments Ret {A} a.
Arguments Panic {A}.

Global Instance result_ret : MRet result := @Ret.

Global Instance result_bind : MBind result := fun A B k m =>
  match m with
  | Ret a => k a
  | Panic => Panic
  end.

(** ** Go's [unicode/utf8] package *)

Module utf8.

(** [type rune = int32] *)
Definition rune := Z.

Definition RuneError : rune := 65533%Z.
Definition MaxRune : rune := 1114111%Z.

Definition inRange (lo hi : nat) (c : ascii) : bool :=
  (lo <=? nat_of_ascii c)%nat && (nat_of_ascii c <=? hi)%nat.

(** The table [first] with [acceptRanges]: for the first byte of an
    encoding of more than one byte, the size of the encoding and the
    range of the second byte; [None] for a byte that starts none. *)
Definition first (c : ascii) : option (nat * (nat * nat)) :=
  let n := nat_of_ascii c in
  if (n <? 194)%nat then None
  else if (n <=? 223)%nat then Some (2, (128, 191))
  else if (n =? 224)%nat then Some (3, (160, 191))
  else if (n <=? 236)%nat then Some (3, (128, 191))
  else if (n =? 237)%nat then Some (3, (128, 159))
  else if (n <=? 239)%nat then Some (3, (128, 191))
  else if (n =? 240)%nat then Some (4, (144, 191))
  else if (n <=? 243)%nat then Some (4, (128, 191))
  else if (n =? 244)%nat then Some (4, (128, 143))
  else None.

(** The number of bytes that the loop of [RuneCountInString] steps over
    at the byte [c] followed by [rest]: the size of a well-formed
    encoding, 1 for an ASCII byte and for a byte that starts no
    well-formed encoding. *)
Definition runeSize (c : ascii) (rest : gostring) : nat :=
  if (nat_of_ascii c <? 128)%nat then 1
  else
    match first c with
    | None => 1
    | Some (size, (lo, hi)) =>
        if (length rest <? size - 1)%nat then 1
        else
          match rest with
          | c1 :: rest1 =>
              if negb (inRange lo hi c1) then 1
              else if (size =? 2)%nat then 2
              else
                match rest1 with
                | c2 :: rest2 =>
                    if negb (inRange 128 191 c2) then 1
                    else if (size =? 3)%nat then 3
                    else
                      match rest2 with
                      | c3 :: _ => if negb (inRange 128 191 c3) then 1 else 4
                      | [] => 1
                      end
                | [] => 1
                end
          | [] => 1
          end
    end.

(** The loop of [RuneCountInString], with the bytes still to step over
    in [skip]. *)
Fixpoint countRunes (skip : nat) (s : gostring) : nat :=
  match s with
  | [] => 0
  | c :: t =>
      match skip with
      | S k => countRunes k t
      | O => S (countRunes (runeSize c t - 1) t)
      end
  end.

(** [utf8.RuneCountInString] *)
Definition RuneCountInString (s : gostring) : nat := countRunes 0 s.

Definition byteVal (c : ascii) : Z := Z.of_nat (nat_of_ascii c).
Definition byteOf (z : Z) : ascii := ascii_of_nat (Z.to_nat z).

(** [utf8.DecodeRuneInString]: the first rune of [s] and the number of
    its bytes; [(RuneError, 1)] for a byte that starts no well-formed
    encoding, [(RuneError, 0)] for the empty string.  The masks
    [b0 & 0x1F], [b0 & 0x0F], [b0 & 0x07] and [b & 0x3F] of the code are
    subtractions here, for bytes in the ranges that [runeSize] checks. *)
Definition DecodeRuneInString (s : gostring) : rune * nat :=
  match s with
  | [] => (RuneError, 0)
  | c :: rest =>
      match runeSize c rest, rest with
      | 2, c1 :: _ =>
          (((byteVal c - 192) * 64 + (byteVal c1 - 128))%Z, 2)
      | 3, c1 :: c2 :: _ =>
          (((byteVal c - 224) * 4096 + (byteVal c1 - 128) * 64
            + (byteVal c2 - 128))%Z, 3)
      | 4, c1 :: c2 :: c3 :: _ =>
          (((byteVal c - 240) * 262144 + (byteVal c1 - 128) * 4096
            + (byteVal c2 - 128) * 64 + (byteVal c3 - 128))%Z, 4)
      | _, _ => (if (byteVal c <? 128)%Z then byteVal c else RuneError, 1)
      end
  end.

(** [utf8.ValidRune]: a code point up to [MaxRune] that is no surrogate
    half. *)
Definition ValidRune (r : rune) : bool :=
  (0 <=? r)%Z && (r <=? MaxRune)%Z
  && negb ((55296 <=? r)%Z && (r <=? 57343)%Z).

(** [utf8.AppendRune]: the encoding of [r]; that of [RuneError] for a
    rune out of range or a surrogate half. *)
Definition EncodeRune (r : rune) : gostring :=
  if ((0 <=? r) && (r <=? 127))%Z then [byteOf r]
  else if ((0 <=? r) && (r <=? 2047))%Z then
    [byteOf (192 + r / 64); byteOf (128 + r mod 64)]
  else if negb (ValidRune r) then
    [byteOf 239; byteOf 191; byteOf 189]
  else if (r <=? 65535)%Z then
    [byteOf (224 + r / 4096); byteOf (128 + (r / 64) mod 64);
     byteOf (128 + r mod 64)]
  else
    [byteOf (240 + r / 262144); byteOf (128 + (r / 4096) mod 64);
     byteOf (128 + (r / 64) mod 64); byteOf (128 + r mod 64)].

(** The loop [for _, r := range s]: the runes of [s] in order, each with
    the bytes it was decoded from.  Every step takes one byte at least,
    so the length of [s] is fuel enough. *)
Fixpoint decodeRunes (fuel : nat) (s : gostring) : list (rune * gostring) :=
  match fuel with
  | O => []
  | S fuel' =>
      match s with
      | [] => []
      | _ :: _ =>
          let '(r, size) := DecodeRuneInString s in
          (r, take size s) :: decodeRunes fuel' (drop size s)
      end
  end.

Definition runes (s : gostring) : list (rune * gostring) :=
  decodeRunes (length s) s.

(** The bytes of a list of runes. *)
Definition bytesOf (l : list (rune * gostring)) : gostring :=
  concat (map snd l).

(** The continuation bytes that a first byte of an encoding of [size]
    bytes, with the range [lo..hi] for the second byte, asks for. *)
Definition conts (size lo hi : nat) (rest : gostring) : bool :=
  match size, rest with
  | 2, c1 :: _ => inRange lo hi c1
  | 3, c1 :: c2 :: _ => inRange lo hi c1 && inRange 128 191 c2
  | 4, c1 :: c2 :: c3 :: _ =>
      inRange lo hi c1 && inRange 128 191 c2 && inRange 128 191 c3
  | _, _ => false
  end.

(** The rune that the [size] bytes [c :: rest] hold. *)
Definition runeValue (size : nat) (c : ascii) (rest : gostring) : rune :=
  match size, rest with
  | 2, c1 :: _ => ((byteVal c - 192) * 64 + (byteVal c1 - 128))%Z
  | 3, c1 :: c2 :: _ =>
      ((byteVal c - 224) * 4096 + (byteVal c1 - 128) * 64
       + (byteVal c2 - 128))%Z
  | 4, c1 :: c2 :: c3 :: _ =>
      ((byteVal c - 240) * 262144 + (byteVal c1 - 128) * 4096
       + (byteVal c2 - 128) * 64 + (byteVal c3 - 128))%Z
  | _, _ => if (byteVal c <? 128)%Z then byteVal c else RuneError
  end.

End utf8.

(** ** Go's [unicode] package *)

Module unicode.

Import utf8.

(** [unicode.IsSpace]: the white space of Latin-1 ('\t', '\n', '\v',
    '\f', '\r', ' ', U+0085, U+00A0) and, beyond Latin-1, the code
    points of the table [White_Space]: U+1680, U+2000..U+200A, U+2028,
    U+2029, U+202F, U+205F and U+3000. *)
Definition IsSpace (r : rune) : bool :=
  (if (0 <=? r) && (r <=? 255) then
     ((9 <=? r) && (r <=? 13)) || (r =? 32) || (r =? 133) || (r =? 160)
   else
     (r =? 5760) || ((8192 <=? r) && (r <=? 8202)) || (r =? 8232)
     || (r =? 8233) || (r =? 8239) || (r =? 8287) || (r =? 12288))%Z.

(** The tables [unicode.CaseRanges] and [unicode.Upper] are data of Go's
    library.  They come in through the function
    [unicode.To(unicode.LowerCase, r)] that the first one defines, which
    [unicode.ToLower] calls for the code points beyond ASCII, and
    through the membership in the second one, which [unicode.IsUpper]
    tests for the code points beyond Latin-1. *)
Class CaseTable := {
  toLowerCase : rune -> rune;
  upperCase : rune -> bool
}.

(** [unicode.ToLower] *)
Definition ToLower {caseTable : CaseTable} (r : rune) : rune :=
  (if r <=? 127 then
     if (65 <=? r) && (r <=? 90) then r + 32 else r
   else toLowerCase r)%Z.

(** [unicode.IsUpper]: in Latin-1 the letters 'A'..'Z', U+00C0..U+00D6
    and U+00D8..U+00DE. *)
Definition IsUpper {caseTable : CaseTable} (r : rune) : bool :=
  (if (0 <=? r) && (r <=? 255) then
     ((65 <=? r) && (r <=? 90)) || ((192 <=? r) && (r <=? 214))
     || ((216 <=? r) && (r <=? 222))
   else upperCase r)%Z.

End unicode.

(** ** Go's [strings] package *)

Module strings.

(** [strings.Split(s, sep)] for a one-byte separator: the result is
    never empty, [Split "" sep] is the list holding the empty string. *)
Fixpoint Split (s : gostring) (sep : ascii) : list gostring :=
  match s with
  | [] => [[]]
  | c :: t =>
      if Ascii.eqb c sep then [] :: Split t sep
      else match Split t sep with
           | l :: ls => (c :: l) :: ls
           | [] => [[c]]
           end
  end.

(** [strings.Join(elems, sep)]. *)
Fixpoint Join (elems : list gostring) (sep : gostring) : gostring :=
  match elems with
  | [] => []
  | [l] => l
  | l :: ls => l ++ sep ++ Join ls sep
  end.

Fixpoint dropWhile (f : ascii -> bool) (s : gostring) : gostring :=
  match s with
  | [] => []
  | c :: t => if f c then dropWhile f t else s
  end.

(** Trimming at the end with a predicate on bytes, as
    [strings.TrimRight] does it for a cutset of ASCII bytes: the scan
    goes from the end of the string. *)
Definition TrimRightFunc (s : gostring) (f : ascii -> bool) : gostring :=
  rev (dropWhile f (rev s)).

Definition inCutset (cutset : gostring) (c : ascii) : bool :=
  existsb (Ascii.eqb c) cutset.

(** [strings.TrimRight(s, cutset)]. *)
Definition TrimRight (s cutset : gostring) : gostring :=
  TrimRightFunc s (inCutset cutset).

(** [skipWhile f l]: [l] without its longest prefix of elements that
    satisfy [f]. *)
Fixpoint skipWhile {A} (f : A -> bool) (l : list A) : list A :=
  match l with
  | [] => []
  | x :: t => if f x then skipWhile f t else l
  end.

(** [strings.TrimLeftFunc(s, f)] and [strings.TrimRightFunc(s, f)] for a
    predicate [f] on runes: [s] without the runes that satisfy [f] at
    its start (at its end).  A byte that is no encoding counts as the
    rune U+FFFD.  The code scans [s] from the end for the second one,
    with [utf8.DecodeLastRuneInString]; the encodings found that way
    are those of the scan from the start. *)
Definition TrimLeftFuncR (s : gostring) (f : utf8.rune -> bool) : gostring :=
  utf8.bytesOf (skipWhile (fun x => f x.1) (utf8.runes s)).

Definition TrimRightFuncR (s : gostring) (f : utf8.rune -> bool) : gostring :=
  utf8.bytesOf (rev (skipWhile (fun x => f x.1) (rev (utf8.runes s)))).

(** [strings.TrimFunc(s, f)] *)
Definition TrimFunc (s : gostring) (f : utf8.rune -> bool) : gostring :=
  TrimRightFuncR (TrimLeftFuncR s f) f.

(** [strings.TrimSpace]: its loop over leading and trailing ASCII bytes
    removes the ASCII white space and hands over to
    [TrimFunc(s, unicode.IsSpace)] at the first byte from 0x80 on, which
    removes the same bytes. *)
Definition TrimSpace (s : gostring) : gostring := TrimFunc s unicode.IsSpace.

Definition isUpper (c : ascii) : bool :=
  let n := nat_of_ascii c in (65 <=? n) && (n <=? 90).

Definition toLowerByte (c : ascii) : ascii :=
  if isUpper c then ascii_of_nat (nat_of_ascii c + 32) else c.

Definition isASCII (s : gostring) : bool :=
  forallb (fun c => nat_of_ascii c <? 128) s.

(** [strings.Map(mapping, s)]: the encodings of the images of the runes
    of [s]; a negative image is dropped.  (The code copies the bytes of
    [s] as long as the runes are mapped to themselves; these bytes are
    the encodings of the runes.) *)
Definition Map (mapping : utf8.rune -> utf8.rune) (s : gostring) : gostring :=
  concat (map (fun x => let r := mapping x.1 in
                        if (r <? 0)%Z then [] else utf8.EncodeRune r)
              (utf8.runes s)).

(** [strings.ToLower]: byte by byte for a string of ASCII bytes, with
    [Map(unicode.ToLower, s)] otherwise. *)
Definition ToLower {caseTable : unicode.CaseTable} (s : gostring) : gostring :=
  if isASCII s then map toLowerByte s else Map unicode.ToLower s.

(** [strings.Repeat(s, count)] panics when [count] is negative.  (It
    also panics when the result would be longer than an [int] can count,
    and the run time fails when the result cannot be allocated: the
    counts of the renderer are the depth of a list and constants, far
    from these bounds; for [Indent] and [PadRight], whose level and
    width the caller chooses, the properties are about the calls that
    return.) *)
Definition Repeat (s : gostring) (count : Z) : result gostring :=
  if (count <? 0)%Z then Panic
  else Ret (concat (repeat s (Z.to_nat count))).

(** [strings.HasSuffix] *)
Definition HasSuffix (s suffix : gostring) : bool :=
  (length suffix <=? length s)%nat
  && gostring_eqb (drop (length s - length suffix) s) suffix.

(** [strings.Contains] *)
Fixpoint Contains (s substr : gostring) : bool :=
  match s with
  | [] => match substr with [] => true | _ => false end
  | _ :: t => gostring_eqb (take (length substr) s) substr || Contains t substr
  end.

(** [strings.FieldsFunc(s, f)]: the maximal runs of runes that do not
    satisfy [f], in the order of the string; there is no empty field.
    [fieldsOf] is its loop over the runes. *)
Fixpoint fieldsOf (f : utf8.rune -> bool) (l : list (utf8.rune * gostring))
  : list gostring :=
  match l with
  | [] => []
  | x :: t =>
      if f x.1 then fieldsOf f t
      else match t with
           | [] => [x.2]
           | y :: _ =>
               if f y.1 then x.2 :: fieldsOf f t
               else match fieldsOf f t with
                    | w :: ws => (x.2 ++ w) :: ws
                    | [] => [x.2]
                    end
           end
  end.

Definition FieldsFunc (s : gostring) (f : utf8.rune -> bool) : list gostring :=
  fieldsOf f (utf8.runes s).

(** [strings.Fields]: the fields between white space; for a string of
    ASCII bytes the code splits at the ASCII white space, which is what
    [FieldsFunc(s, unicode.IsSpace)] does on such a string. *)
Definition Fields (s : gostring) : list gostring :=
  FieldsFunc s unicode.IsSpace.

(** The order [a <= b] of Go strings: byte by byte. *)
Fixpoint le (a b : gostring) : bool :=
  match a, b with
  | [], _ => true
  | _ :: _, [] => false
  | x :: a', y :: b' =>
      if (nat_of_ascii x <? nat_of_ascii y)%nat then true
      else if (nat_of_ascii y <? nat_of_ascii x)%nat then false
      else le a' b'
  end.


End strings.




(** ** internal/theme *)

Module theme.

(** [type ColorKey string] *)
Definition ColorKey := string.

Definition Header1 : ColorKey := "header1".
Definition Header2 : ColorKey := "header2".
Definition Header3 : ColorKey := "header3".
Definition Header4 : ColorKey := "header4".
Definition Header5 : ColorKey := "header5".
Definition Header6 : ColorKey := "header6".
Definition Bold : ColorKey := "bold".
Definition Italic : ColorKey := "italic".
Definition Strikethrough : ColorKey := "strikethrough".
Definition Code : ColorKey := "code".
Definition BlockQuote : ColorKey := "blockquote".
Definition Link : ColorKey := "link".
Definition BulletPoint : ColorKey := "bullet".
Definition OrderedList : ColorKey := "ordered".
Definition TableHeader : ColorKey := "table_header".
Definition TableBorder : ColorKey := "table_border".
Definition Reset : ColorKey := "reset".

Inductive BackgroundType := BackgroundUnknown | BackgroundLight | BackgroundDark.

Record ThemeManager := {
  backgroundType : BackgroundType;
  colors : gmap string gostring;
  chromaTheme : string
}.

(** An escape sequence: ESC followed by the given text. *)
Definition esc (s : string) : gostring := ESC :: str s.

Definition buildDarkColorScheme : gmap string gostring :=
  list_to_map
    [ (Header1, esc "[1;96m"); (Header2, esc "[1;94m");
      (Header3, esc "[1;95m"); (Header4, esc "[1;93m");
      (Header5, esc "[1;92m"); (Header6, esc "[1;91m");
      (Bold, esc "[1m"); (Italic, esc "[3m");
      (Strikethrough, esc "[9m"); (Code, esc "[38;5;208m");
      (BlockQuote, esc "[38;5;244m"); (Link, esc "[4;94m");
      (BulletPoint, esc "[1;97m"); (OrderedList, esc "[1;97m");
      (TableHeader, esc "[1;97m"); (TableBorder, esc "[38;5;244m");
      (Reset, esc "[0m") ].

Definition buildLightColorScheme : gmap string gostring :=
  list_to_map
    [ (Header1, esc "[1;34m"); (Header2, esc "[1;36m");
      (Header3, esc "[1;35m"); (Header4, esc "[1;33m");
      (Header5, esc "[1;32m"); (Header6, esc "[1;31m");
      (Bold, esc "[1m"); (Italic, esc "[3m");
      (Strikethrough, esc "[9m"); (Code, esc "[38;5;166m");
      (BlockQuote, esc "[38;5;240m"); (Link, esc "[4;34m");
      (BulletPoint, esc "[1;30m"); (OrderedList, esc "[1;30m");
      (TableHeader, esc "[1;30m"); (TableBorder, esc "[38;5;240m");
      (Reset, esc "[0m") ].

Definition buildColorScheme (bgType : BackgroundType) : gmap string gostring :=
  match bgType with
  | BackgroundLight => buildLightColorScheme
  | BackgroundDark => buildDarkColorScheme
  | BackgroundUnknown => buildDarkColorScheme
  end.

Definition getDefaultChromaTheme (bgType : BackgroundType) : string :=
  match bgType with
  | BackgroundLight => "github"
  | BackgroundDark => "monokai"
  | BackgroundUnknown => "monokai"
  end.

Definition NewWithBackground (bgType : BackgroundType) : ThemeManager :=
  {| backgroundType := bgType;
     colors := buildColorScheme bgType;
     chromaTheme := getDefaultChromaTheme bgType |}.

(** A missing key of a Go map reads as the zero value, the empty string. *)
Definition GetColor (tm : ThemeManager) (key : ColorKey) : gostring :=
  match colors tm !! key with
  | Some color => color
  | None => default [] (colors tm !! Reset)
  end.

Definition Style (tm : ThemeManager) (text : gostring) (key : ColorKey) : gostring :=
  GetColor tm key ++ text ++ GetColor tm Reset.

Definition StyleNoReset (tm : ThemeManager) (text : gostring) (key : ColorKey) : gostring :=
  GetColor tm key ++ text.

Definition ResetSeq (tm : ThemeManager) : gostring := GetColor tm Reset.

Definition getColorSchemeName (tm : ThemeManager) : string :=
  match backgroundType tm with
  | BackgroundLight => "light"
  | BackgroundDark => "dark"
  | BackgroundUnknown => "auto"
  end.

Definition ANSIReset := esc "[0m".

(** The table of [GetANSIConstant]. *)
Definition ansiConstants : gmap string gostring :=
  list_to_map
    [ ("reset", ANSIReset); ("bold", esc "[1m"); ("dim", esc "[2m");
      ("italic", esc "[3m"); ("underline", esc "[4m");
      ("strikethrough", esc "[9m");
      ("black", esc "[30m"); ("red", esc "[31m"); ("green", esc "[32m");
      ("yellow", esc "[33m"); ("blue", esc "[34m"); ("magenta", esc "[35m");
      ("cyan", esc "[36m"); ("white", esc "[37m");
      ("bright_black", esc "[90m"); ("bright_red", esc "[91m");
      ("bright_green", esc "[92m"); ("bright_yellow", esc "[93m");
      ("bright_blue", esc "[94m"); ("bright_magenta", esc "[95m");
      ("bright_cyan", esc "[96m"); ("bright_white", esc "[97m") ]%string.

Definition GetANSIConstant (tm : ThemeManager) (name : string) : gostring :=
  match ansiConstants !! name with
  | Some constant => constant
  | None => ANSIReset
  end.

(** *** The environment of the process

    [os.LookupEnv] and [os.Getenv] read the environment, a finite map
    from names to values; [runtime.GOOS] is a parameter of the functions
    that read it. *)
Definition Env := gmap string gostring.

Definition LookupEnv (env : Env) (key : string) : option gostring := env !! key.

Definition Getenv (env : Env) (key : string) : gostring :=
  default [] (env !! key).

Definition SupportsColor (tm : ThemeManager) (env : Env) : bool :=
  match LookupEnv env "TERM" with
  | None => false
  | Some term =>
      if gostring_eqb term (str "dumb") then false
      else
        let truecolor :=
          match LookupEnv env "COLORTERM" with
          | Some colorterm =>
              gostring_eqb colorterm (str "truecolor")
              || gostring_eqb colorterm (str "24bit")
          | None => false
          end in
        if truecolor then true
        else
          let colorTerms :=
            [ "xterm"; "xterm-256color"; "xterm-color";
              "screen"; "screen-256color"; "tmux"; "tmux-256color";
              "rxvt"; "rxvt-unicode"; "alacritty"; "kitty"; "wezterm" ]%string in
          if existsb (fun colorTerm => strings.Contains term (str colorTerm))
               colorTerms
          then true
          else true
  end.

(** *** detector.go *)

(** [BackgroundType.String] *)
Definition BackgroundTypeString (bt : BackgroundType) : string :=
  match bt with
  | BackgroundLight => "light"
  | BackgroundDark => "dark"
  | BackgroundUnknown => "unknown"
  end.

(** The loop over the indicators "NAME=value" of
    [isDarkThemeEnvironment] and [isLightThemeEnvironment]. *)
Definition indicatorSet (env : Env) (indicators : list string) : bool :=
  existsb (fun indicator =>
             match strings.Split (str indicator) "="%char with
             | [name; value] =>
                 gostring_eqb (Getenv env (string_of_list_ascii name)) value
             | _ => false
             end) indicators.

Section detection.

Context {caseTable : unicode.CaseTable}.

Definition isDarkThemeEnvironment (env : Env) : bool :=
  if indicatorSet env ["DARK_MODE=1"; "THEME=dark"; "COLOR_SCHEME=dark"]%string
  then true
  else
    let term := strings.ToLower (Getenv env "TERM") in
    let termProgram := strings.ToLower (Getenv env "TERM_PROGRAM") in
    existsb (fun darkTerm =>
               strings.Contains term (str darkTerm)
               || strings.Contains termProgram (str darkTerm))
      ["alacritty"; "kitty"; "wezterm"]%string.

Definition isLightThemeEnvironment (env : Env) : bool :=
  indicatorSet env ["LIGHT_MODE=1"; "THEME=light"; "COLOR_SCHEME=light"]%string.

Definition detectMacOSBackground (env : Env) : BackgroundType :=
  if gostring_eqb (Getenv env "TERM_PROGRAM") (str "Apple_Terminal")
  then BackgroundDark
  else if gostring_eqb (Getenv env "TERM_PROGRAM") (str "iTerm.app")
  then BackgroundDark
  else BackgroundDark.

Definition detectLinuxBackground (env : Env) : BackgroundType :=
  let desktop := strings.ToLower (Getenv env "XDG_CURRENT_DESKTOP") in
  if strings.Contains desktop (str "gnome") then BackgroundDark
  else if strings.Contains desktop (str "kde") then BackgroundDark
  else BackgroundDark.

Definition detectWindowsBackground (env : Env) : BackgroundType :=
  if negb (gostring_eqb (Getenv env "WT_SESSION") [])
  then BackgroundDark
  else if strings.Contains (strings.ToLower (Getenv env "PSModulePath"))
            (str "powershell")
  then BackgroundDark
  else BackgroundDark.

(** What the variable COLORFGBG decides, if it decides: its last field,
    when there are two fields at least, is compared as a string. *)
Definition colorfgbgBackground (env : Env) : option BackgroundType :=
  let theme := Getenv env "COLORFGBG" in
  if negb (gostring_eqb theme []) then
    let parts := strings.Split theme ";"%char in
    if (2 <=? length parts)%nat then
      let bg := default [] (last parts) in
      if strings.le (str "0") bg && strings.le bg (str "7")
      then Some BackgroundDark
      else if strings.le (str "8") bg && strings.le bg (str "15")
      then Some BackgroundLight
      else None
    else None
  else None.

Definition DetectTerminalBackground (env : Env) (GOOS : string) : BackgroundType :=
  match colorfgbgBackground env with
  | Some bg => bg
  | None =>
      if isDarkThemeEnvironment env then BackgroundDark
      else if isLightThemeEnvironment env then BackgroundLight
      else if String.eqb GOOS "darwin" then detectMacOSBackground env
      else if String.eqb GOOS "linux" then detectLinuxBackground env
      else if String.eqb GOOS "windows" then detectWindowsBackground env
      else BackgroundDark
  end.

(** [New]: the theme manager of the detected background. *)
Definition New (env : Env) (GOOS : string) : ThemeManager :=
  NewWithBackground (DetectTerminalBackground env GOOS).

End detection.

Definition IsLightBackground (tm : ThemeManager) : bool :=
  match backgroundType tm with BackgroundLight => true | _ => false end.

Definition IsDarkBackground (tm : ThemeManager) : bool :=
  match backgroundType tm with BackgroundDark => true | _ => false end.


End theme.

(** ** internal/highlighter *)

Module highlighter.

Import strings.

(** [ChromaHelper.Highlight] runs the lexers and formatters of the
    chroma library; the highlighter only sees its result. *)
Record ChromaHelper := {
  chromaHighlight : gostring -> gostring -> gostring * option error
}.

Record Highlighter := {
  themeManager : theme.ThemeManager;
  chromaHelper : ChromaHelper
}.

Definition isOneOf (lang : gostring) (cases : list string) : bool :=
  existsb (fun c => gostring_eqb lang (str c)) cases.

(** The [switch lang] of [normalizeLanguage]. *)
Definition normalizeSwitch (lang : gostring) : gostring :=
  if isOneOf lang ["js"; "javascript"] then str "javascript"
  else if isOneOf lang ["ts"; "typescript"] then str "typescript"
  else if isOneOf lang ["py"; "python"] then str "python"
  else if isOneOf lang ["rb"; "ruby"] then str "ruby"
  else if isOneOf lang ["sh"; "bash"; "shell"] then str "bash"
  else if isOneOf lang ["yml"; "yaml"] then str "yaml"
  else if isOneOf lang ["json"] then str "json"
  else if isOneOf lang ["xml"; "html"] then lang
  else if isOneOf lang ["css"] then str "css"
  else if isOneOf lang ["sql"] then str "sql"
  else if isOneOf lang ["go"; "golang"] then str "go"
  else if isOneOf lang ["rust"; "rs"] then str "rust"
  else if isOneOf lang ["c"] then str "c"
  else if isOneOf lang ["cpp"; "c++"; "cxx"] then str "cpp"
  else if isOneOf lang ["java"] then str "java"
  else if isOneOf lang ["php"] then str "php"
  else if isOneOf lang ["swift"] then str "swift"
  else if isOneOf lang ["kotlin"; "kt"] then str "kotlin"
  else if isOneOf lang ["scala"] then str "scala"
  else if isOneOf lang ["r"] then str "r"
  else if isOneOf lang ["matlab"] then str "matlab"
  else if isOneOf lang ["perl"] then str "perl"
  else if isOneOf lang ["lua"] then str "lua"
  else if isOneOf lang ["vim"] then str "vim"
  else if isOneOf lang ["dockerfile"; "docker"] then str "dockerfile"
  else if isOneOf lang ["makefile"; "make"] then str "makefile"
  else if isOneOf lang ["diff"] then str "diff"
  else if isOneOf lang ["plain"; "text"; "txt"] then str "text"
  else lang.

Section methods.

Context {caseTable : unicode.CaseTable}.

Definition normalizeLanguage (language : gostring) : gostring :=
  match language with
  | [] => language
  | _ => normalizeSwitch (ToLower (TrimSpace language))
  end.

Definition Highlight (h : Highlighter) (code language : gostring)
  : gostring * option error :=
  match TrimSpace code with
  | [] => (code, None)
  | _ =>
      let language := normalizeLanguage language in
      match chromaHighlight (chromaHelper h) code language with
      | (_, Some _) => (theme.Style (themeManager h) code theme.Code, None)
      | (highlighted, None) => (highlighted, None)
      end
  end.

Definition HighlightCode (h : Highlighter) (code language : gostring)
  : gostring * option error :=
  Highlight h code language.

End methods.

Definition HighlightInlineCode (h : Highlighter) (code : gostring) : gostring :=
  theme.Style (themeManager h) code theme.Code.

End highlighter.

(** ** The document tree (goldmark's [ast] package)

    The parser is outside the renderer: a document is the tree that
    [goldmark.Parser().Parse] returned. A node carries the fields the
    renderer reads, with its text segments already resolved against the
    source buffer. [Extension kind] stands for a node of any type that
    the type switch of [renderNode] does not name (tables, strikethrough,
    task check boxes, text blocks, images, ...): such nodes are told
    apart by [Kind().String()]. *)

Module ast.

Inductive NodeKind :=
| Document
| Heading (Level : Z)
| Paragraph
| Text (Value : gostring) (IsRaw HardLineBreak SoftLineBreak : bool)
| Emphasis (Level : Z)
| CodeSpan
| FencedCodeBlock (Info : option gostring) (Lines : list gostring)
| CodeBlock (Lines : list gostring)
| Blockquote
| List (IsOrdered : bool)
| ListItem
| Link (Destination : gostring)
| AutoLink (URL : gostring)
| RawHTML
| ThematicBreak
| HTMLBlock
| Extension (kind : string).

#[warnings="-register-all"] Inductive Node := mkNode (Kind : NodeKind) (Children : list Node).

Definition Kind (n : Node) : NodeKind := let (k, _) := n in k.
Definition Children (n : Node) : list Node := let (_, cs) := n in cs.

(** [Kind().String()] *)
Definition KindString (k : NodeKind) : string :=
  match k with
  | Document => "Document"
  | Heading _ => "Heading"
  | Paragraph => "Paragraph"
  | Text _ _ _ _ => "Text"
  | Emphasis _ => "Emphasis"
  | CodeSpan => "CodeSpan"
  | FencedCodeBlock _ _ => "FencedCodeBlock"
  | CodeBlock _ => "CodeBlock"
  | Blockquote => "Blockquote"
  | List _ => "List"
  | ListItem => "ListItem"
  | Link _ => "Link"
  | AutoLink _ => "AutoLink"
  | RawHTML => "RawHTML"
  | ThematicBreak => "ThematicBreak"
  | HTMLBlock => "HTMLBlock"
  | Extension kind => kind
  end.

(** [Node.Text(source)]: the text of a [Text] node is its segment, the
    text of any other node is the text of its children. *)
Fixpoint NodeText (n : Node) : gostring :=
  match n with
  | mkNode (Text v _ _ _) _ => v
  | mkNode _ cs => concat (map NodeText cs)
  end.

(** A node as the walker reaches it: with the kinds of its ancestors
    (the parent first) and whether it has siblings before and after. *)
Record Cursor := {
  node : Node;
  ancestors : list NodeKind;
  hasPreviousSibling : bool;
  hasNextSibling : bool
}.

Definition Parent (c : Cursor) : option NodeKind := head (ancestors c).

Inductive WalkStatus := WalkStop | WalkSkipChildren | WalkContinue.

Section Walk.
Context {W : Type}.

(** The walker is called on entering and on leaving a node; it
    threads the state [W] of the closure through the calls. *)
Variable walker :
  Cursor -> bool -> W -> result (WalkStatus * option error * W).

Definition stops (st : WalkStatus) (err : option error) : bool :=
  match err, st with
  | Some _, _ => true
  | None, WalkStop => true
  | None, _ => false
  end.

(** The loop over the children of a node,
    [for c := n.FirstChild(); c != nil; c = c.NextSibling()],
    where [walkChild prev next c] walks the child [c]. *)
Section Children.
Variable walkChild :
  bool -> bool -> Node -> W -> result (WalkStatus * option error * W).

Fixpoint walkChildren (first : bool) (cs : list Node) (w : W)
  : result (WalkStatus * option error * W) :=
  match cs with
  | [] => Ret (WalkContinue, None, w)
  | c :: rest =>
      r ← walkChild (negb first)
            (match rest with [] => false | _ => true end) c w;
      let '(st, err, w) := r in
      if stops st err then Ret (WalkStop, err, w)
      else walkChildren false rest w
  end.
End Children.

Fixpoint walkHelper (parents : list NodeKind) (prev next : bool)
    (n : Node) (w : W) : result (WalkStatus * option error * W) :=
  let cur := {| node := n; ancestors := parents;
                hasPreviousSibling := prev; hasNextSibling := next |} in
  r ← walker cur true w;
  let '(status, err, w) := r in
  if stops status err then Ret (status, err, w)
  else
    r ← match status with
        | WalkSkipChildren => Ret (WalkContinue, None, w)
        | _ => walkChildren (walkHelper (Kind n :: parents)) true (Children n) w
        end;
    let '(st, err, w) := r in
    if stops st err then Ret (WalkStop, err, w)
    else
      r ← walker cur false w;
      let '(status, err, w) := r in
      if stops status err then Ret (WalkStop, err, w)
      else Ret (WalkContinue, None, w).

Definition Walk (n : Node) (w : W) : result (option error * W) :=
  r ← walkHelper [] false false n w;
  let '(_, err, w) := r in Ret (err, w).

End Walk.

End ast.

(** ** internal/renderer *)

Module renderer.

Import strings ast.

(** *** styles.go *)

Definition H1Prefix := str "# ".
Definition H2Prefix := str "## ".
Definition H3Prefix := str "### ".
Definition H4Prefix := str "#### ".
Definition H5Prefix := str "##### ".
Definition H6Prefix := str "###### ".

Definition Indent (text : gostring) (level : Z) : result gostring :=
  if (level <=? 0)%Z then Ret text
  else
    indent ← Repeat (str "  ") level;
    let lines := Split text LF in
    let lines :=
      map (fun line =>
             match TrimSpace line with
             | [] => line
             | _ => indent ++ line
             end) lines in
    Ret (Join lines [LF]).

Definition TrimTrailingWhitespace (text : gostring) : gostring :=
  let lines := Split text LF in
  let lines := map (fun line => TrimRight line [SP; TAB]) lines in
  Join lines [LF].

Definition EnsureTrailingNewline (text : gostring) : gostring :=
  let text := TrimRight text [LF] in
  text ++ [LF].

(** The loop of [WrapText] over the words: the lines that are full, the
    words of the current line and its length in runes. *)
Definition wrapStep (width : Z)
    (st : list gostring * list gostring * Z) (word : gostring)
  : list gostring * list gostring * Z :=
  let '(lines, currentLine, currentLength) := st in
  let wordLength := Z.of_nat (utf8.RuneCountInString word) in
  if (0 <? currentLength)%Z && (width <? currentLength + wordLength + 1)%Z then
    (lines ++ [Join currentLine [SP]], [word], wordLength)
  else
    (lines, currentLine ++ [word],
     ((if (0 <? currentLength)%Z then currentLength + 1 else currentLength)
      + wordLength)%Z).

Definition WrapText (text : gostring) (width : Z) : gostring :=
  if (width <=? 0)%Z then text
  else
    let words := Fields text in
    match words with
    | [] => text
    | _ =>
        let '(lines, currentLine, _) :=
          fold_left (wrapStep width) words ([], [], 0%Z) in
        let lines :=
          match currentLine with
          | [] => lines
          | _ => lines ++ [Join currentLine [SP]]
          end in
        Join lines [LF]
    end.

Definition PadRight (text : gostring) (width : Z) : result gostring :=
  let textWidth := Z.of_nat (utf8.RuneCountInString text) in
  if (width <=? textWidth)%Z then Ret text
  else
    padding ← Repeat [SP] (width - textWidth);
    Ret (text ++ padding).

(** *** What the renderer writes

    Every [fmt.Fprint] on the writer appends either text or an escape
    sequence that the theme manager resolves from a style role; the
    buffer keeps the two apart until [Bytes] resolves the roles. *)

Inductive emission :=
| Lit (s : gostring)
| Color (key : theme.ColorKey).

Definition Buffer := list emission.

Definition resolve (tm : theme.ThemeManager) (e : emission) : gostring :=
  match e with
  | Lit s => s
  | Color key => theme.GetColor tm key
  end.

(** [buf.String()] *)
Definition Bytes (tm : theme.ThemeManager) (w : Buffer) : gostring :=
  concat (map (resolve tm) w).

(** The writes of [tm.GetColor(key)], [tm.Reset()], [tm.Style(text, key)]
    and [tm.StyleNoReset(text, key)]. *)
Definition GetColor (key : theme.ColorKey) : Buffer := [Color key].
Definition Reset : Buffer := [Color theme.Reset].
Definition Style (text : gostring) (key : theme.ColorKey) : Buffer :=
  [Color key; Lit text; Color theme.Reset].
Definition StyleNoReset (text : gostring) (key : theme.ColorKey) : Buffer :=
  [Color key; Lit text].

(** [type CodeHighlighter interface] *)
Record CodeHighlighter := {
  Highlight : gostring -> gostring -> gostring * option error;
  HighlightInlineCode : gostring -> gostring
}.

(** The highlighter of [internal/highlighter] implements the interface. *)
Definition ofHighlighter {caseTable : unicode.CaseTable}
    (h : highlighter.Highlighter) : CodeHighlighter :=
  {| Highlight := highlighter.Highlight h;
     HighlightInlineCode := highlighter.HighlightInlineCode h |}.

Record terminalRenderer := {
  themeManager : theme.ThemeManager;
  highlighter : CodeHighlighter
}.

(** What a render function did: the writes it made and the error it
    returned, unless it panicked. *)
Definition rendered := result (Buffer * option error).

Definition ok (w : Buffer) : rendered := Ret (w, None).

Section Renderers.

Variable tr : terminalRenderer.
Let tm := themeManager tr.

Definition renderDocument (n : Cursor) (entering : bool) : rendered :=
  ok [].

(** The [switch n.Level] of [renderHeading]. *)
Definition headingStyle (Level : Z) : theme.ColorKey * gostring :=
  match Level with
  | 1 => (theme.Header1, H1Prefix)
  | 2 => (theme.Header2, H2Prefix)
  | 3 => (theme.Header3, H3Prefix)
  | 4 => (theme.Header4, H4Prefix)
  | 5 => (theme.Header5, H5Prefix)
  | _ => (theme.Header6, H6Prefix)
  end%Z.

Definition renderHeading (n : Cursor) (Level : Z) (entering : bool) : rendered :=
  if entering then
    let '(headerTheme, prefix) := headingStyle Level in
    ok ((if hasPreviousSibling n then [Lit [LF]] else [])
        ++ StyleNoReset prefix headerTheme)
  else
    ok (Reset ++ [Lit [LF]]).

Definition renderParagraph (n : Cursor) (entering : bool) : rendered :=
  if negb entering then
    ok ([Lit [LF]] ++ (if hasNextSibling n then [Lit [LF]] else []))
  else ok [].

Definition renderText (n : Cursor) (Value : gostring)
    (IsRaw HardLineBreak SoftLineBreak : bool) (entering : bool) : rendered :=
  if entering then
    match Parent n with
    | Some CodeSpan => ok []
    | _ =>
        if IsRaw then ok [Lit Value]
        else
          let lines := Split Value LF in
          ok (concat (imap (fun i line =>
            (if (0 <? i)%nat then
               if HardLineBreak
                  || ((i =? length lines - 1)%nat && SoftLineBreak)
               then [Lit [LF]] else [Lit [SP]]
             else []) ++ [Lit line]) lines))
    end
  else ok [].

Definition renderEmphasis (n : Cursor) (Level : Z) (entering : bool) : rendered :=
  if entering then
    if (Level =? 2)%Z then ok (GetColor theme.Bold)
    else ok (GetColor theme.Italic)
  else ok Reset.

Definition renderCodeSpan (n : Cursor) (entering : bool) : rendered :=
  if entering then
    let value := NodeText (node n) in
    let highlighted := HighlightInlineCode (highlighter tr) value in
    ok [Lit highlighted]
  else ok [].

Definition renderFencedCodeBlock (n : Cursor) (Info : option gostring)
    (Lines : list gostring) (entering : bool) : rendered :=
  if entering then
    let language := match Info with Some info => info | None => [] end in
    let code := concat Lines in
    let '(highlighted, err) := Highlight (highlighter tr) code language in
    let highlighted :=
      match err with
      | Some _ => theme.Style tm code theme.Code
      | None => highlighted
      end in
    indented ← Indent (TrimRight highlighted [LF]) 1;
    ok [Lit [LF]; Lit indented; Lit [LF; LF]]
  else ok [].

Definition renderCodeBlock (n : Cursor) (Lines : list gostring)
    (entering : bool) : rendered :=
  if entering then
    let code := concat Lines in
    let styled := theme.Style tm code theme.Code in
    indented ← Indent (TrimRight styled [LF]) 1;
    ok [Lit [LF]; Lit indented; Lit [LF; LF]]
  else ok [].

Definition renderBlockquote (n : Cursor) (entering : bool) : rendered :=
  if entering then
    ok ([Lit [LF]] ++ GetColor theme.BlockQuote ++ [Lit (str "│ ")])
  else
    ok (Reset ++ [Lit [LF; LF]]).

Definition renderList (n : Cursor) (entering : bool) : rendered :=
  if entering then
    ok (if hasPreviousSibling n then [Lit [LF]] else [])
  else
    ok (if hasNextSibling n then [Lit [LF]] else []).

Definition isList (k : NodeKind) : bool :=
  match k with List _ => true | _ => false end.

(** " ", the no-break space, in UTF-8. *)
Definition NBSP : gostring := ["194"%char; "160"%char].

Definition renderListItem (n : Cursor) (entering : bool) : rendered :=
  if entering then
    let level := Z.of_nat (length (filter isList (ancestors n))) in
    let level := (level - 1)%Z in
    indent ← Repeat (str "  ") level;
    let marker :=
      match Parent n with
      | Some (List IsOrdered) =>
          if IsOrdered then Style (str "1.") theme.OrderedList
          else Style (str "•") theme.BulletPoint
      | _ => Style (str "•") theme.BulletPoint
      end in
    ok ([Lit NBSP; Lit indent] ++ marker ++ [Lit [SP]])
  else
    ok [Lit [LF]].

Definition renderLink (n : Cursor) (Destination : gostring)
    (entering : bool) : rendered :=
  if entering then ok (GetColor theme.Link)
  else
    let url := Destination in
    ok ([Lit (str " (" ++ url ++ str ")")] ++ Reset).

Definition renderAutoLink (n : Cursor) (URL : gostring)
    (entering : bool) : rendered :=
  if entering then ok (Style URL theme.Link) else ok [].

Definition renderRawHTML (n : Cursor) (entering : bool) : rendered := ok [].

Definition renderHTMLBlock (n : Cursor) (entering : bool) : rendered := ok [].

Definition renderThematicBreak (n : Cursor) (entering : bool) : rendered :=
  if entering then
    rule ← Repeat (str "─") 50;
    ok ([Lit [LF]] ++ Style rule theme.TableBorder ++ [Lit [LF; LF]])
  else ok [].

Definition renderTable (n : Cursor) (entering : bool) : rendered :=
  if entering then ok [Lit [LF]] else ok [Lit [LF]].

Definition renderTableHeader (n : Cursor) (entering : bool) : rendered :=
  ok [].

Definition renderTableRow (n : Cursor) (entering : bool) : rendered :=
  if entering then
    ok (GetColor theme.TableBorder ++ [Lit (str "│")])
  else
    if String.eqb (KindString (Kind (node n))) "TableHeader" then
      let cellCount := length (Children (node n)) in
      dashes ← Repeat (str "─") 15;
      ok (Reset ++ [Lit [LF]]
            ++ GetColor theme.TableBorder
            ++ flat_map (fun i =>
                 [Lit (str "├"); Lit dashes]
                 ++ (if (i <? cellCount - 1)%nat then [Lit (str "┼")] else []))
                 (seq 0 cellCount)
            ++ [Lit (str "┤")] ++ Reset ++ [Lit [LF]])
    else
      ok (Reset ++ [Lit [LF]]).

(** [node.Parent().Kind()] on a node without parent is a nil
    dereference. *)
Definition renderTableCell (n : Cursor) (entering : bool) : rendered :=
  match Parent n with
  | None => Panic
  | Some parent =>
      let inHeader := String.eqb (KindString parent) "TableHeader" in
      if entering then
        ok ([Lit [SP]]
              ++ (if inHeader then GetColor theme.TableHeader else []))
      else
        spaces ← Repeat [SP] 14;
        ok ((if inHeader then Reset else [])
              ++ [Lit spaces] ++ GetColor theme.TableBorder
              ++ [Lit (str "│")])
  end.

Definition renderStrikethrough (n : Cursor) (entering : bool) : rendered :=
  if entering then ok (GetColor theme.Strikethrough) else ok Reset.

Definition renderTaskCheckBox (n : Cursor) (entering : bool) : rendered :=
  if entering then
    ok (Style (str "[ ]") theme.BulletPoint ++ [Lit [SP]])
  else ok [].

Definition renderNode (n : Cursor) (entering : bool) : rendered :=
  match Kind (node n) with
  | Document => renderDocument n entering
  | Heading Level => renderHeading n Level entering
  | Paragraph => renderParagraph n entering
  | Text v raw hard soft => renderText n v raw hard soft entering
  | Emphasis Level => renderEmphasis n Level entering
  | CodeSpan => renderCodeSpan n entering
  | FencedCodeBlock Info Lines => renderFencedCodeBlock n Info Lines entering
  | CodeBlock Lines => renderCodeBlock n Lines entering
  | Blockquote => renderBlockquote n entering
  | List _ => renderList n entering
  | ListItem => renderListItem n entering
  | Link Destination => renderLink n Destination entering
  | AutoLink URL => renderAutoLink n URL entering
  | RawHTML => renderRawHTML n entering
  | ThematicBreak => renderThematicBreak n entering
  | HTMLBlock => renderHTMLBlock n entering
  | Extension kind =>
      if String.eqb kind "Table" then renderTable n entering
      else if String.eqb kind "TableHeader" then renderTableHeader n entering
      else if String.eqb kind "TableRow" then renderTableRow n entering
      else if String.eqb kind "TableCell" then renderTableCell n entering
      else if String.eqb kind "Strikethrough" then renderStrikethrough n entering
      else if String.eqb kind "TaskCheckBox" then renderTaskCheckBox n entering
      else ok []
  end.

(** The closure that [render] hands to [ast.Walk]. *)
Definition walker (n : Cursor) (entering : bool) (w : Buffer)
  : result (WalkStatus * option error * Buffer) :=
  r ← renderNode n entering;
  let '(out, err) := r in
  match err with
  | Some e => Ret (WalkStop, Some e, w ++ out)
  | None => Ret (WalkContinue, None, w ++ out)
  end.

Definition render (w : Buffer) (doc : Node) : result (option error * Buffer) :=
  Walk walker doc w.

End Renderers.

Record Renderer := { rThemeManager : theme.ThemeManager }.

(** [RenderContent] on the tree [doc] that the parser made of [content]. *)
Definition RenderContent (r : Renderer) (doc : Node) (hl : CodeHighlighter)
  : result (gostring * option error) :=
  let termRenderer :=
    {| themeManager := rThemeManager r; highlighter := hl |} in
  r' ← render termRenderer [] doc;
  let '(err, buf) := r' in
  match err with
  | Some e => Ret ([], Some (str "failed to render markdown: " ++ e))
  | None =>
      let result := Bytes (rThemeManager r) buf in
      let result := TrimTrailingWhitespace result in
      let result := EnsureTrailingNewline result in
      Ret (result, None)
  end.

End renderer.

(** ** internal/viewer

    The pager runs the command [less]; what the operating system does is
    a parameter here: [LookPath] is [exec.LookPath], and a run of the
    command ends in one of the ways that [Display] tells apart. The
    functions that print return what they wrote to the standard output. *)

Module viewer.

Import strings.

Record Pager := { lessPath : gostring }.

Definition findLessCommand (LookPath : gostring -> option gostring)
    (GOOS : string) : gostring :=
  let candidates :=
    [str "less"]
    ++ (if String.eqb GOOS "darwin"
        then [str "/opt/homebrew/bin/less"; str "/usr/local/bin/less"] else [])
    ++ (if String.eqb GOOS "linux"
        then [str "/usr/bin/less"; str "/bin/less"] else []) in
  (fix loop (candidates : list gostring) : gostring :=
     match candidates with
     | [] => []
     | candidate :: rest =>
         match LookPath candidate with
         | Some path => path
         | None => loop rest
         end
     end) candidates.

Definition NewPager (LookPath : gostring -> option gostring) (GOOS : string)
  : Pager :=
  {| lessPath := findLessCommand LookPath GOOS |}.

Definition IsLessAvailable (p : Pager) : bool :=
  negb (gostring_eqb (lessPath p) []).

(** How a run of [less] on the content ends: the pipe or the start fails,
    the command ends well, it ends with an exit status, or waiting for it
    fails in another way. *)
Inductive lessRun :=
| PipeFailed (err : error)
| StartFailed (err : error)
| Exited
| ExitStatus (status : Z) (err : error)
| WaitFailed (err : error).

Definition lessArgs : list gostring :=
  [str "-R"; str "-S"; str "-X"; str "-F"; str "-K"; str "+g"].

Definition Display
    (run : gostring -> list gostring -> gostring -> lessRun)
    (p : Pager) (content : gostring) : option error :=
  if gostring_eqb (lessPath p) [] then
    Some (str "less command not available")
  else
    match run (lessPath p) lessArgs content with
    | PipeFailed err => Some (str "failed to create stdin pipe: " ++ err)
    | StartFailed err => Some (str "failed to start less: " ++ err)
    | Exited => None
    | ExitStatus status err =>
        if (status <=? 1)%Z then None
        else Some (str "less command failed: " ++ err)
    | WaitFailed err => Some (str "less command failed: " ++ err)
    end.

Record Viewer := { pager : Pager }.

Definition notice : gostring :=
  str "Note: 'less' command not available, displaying content directly:".

Definition fallbackDisplay (GOOS : string) (v : Viewer) (content : gostring)
  : result (gostring * option error) :=
  rule ← Repeat (str "-") 80;
  let out := notice ++ [LF] ++ rule ++ [LF] ++ content in
  let out := if negb (HasSuffix content [LF]) then out ++ [LF] else out in
  let out := out ++ rule ++ [LF] in
  let out :=
    if String.eqb GOOS "windows"
    then out ++ str "Press Enter to continue..." else out in
  Ret (out, None).

(** [DisplayInVimMode]: what is printed by the viewer itself, and the
    error. *)
Definition DisplayInVimMode
    (run : gostring -> list gostring -> gostring -> lessRun) (GOOS : string)
    (v : Viewer) (content : gostring) : result (gostring * option error) :=
  if gostring_eqb content [] then
    Ret ([], Some (str "no content to display"))
  else if negb (IsLessAvailable (pager v)) then
    fallbackDisplay GOOS v content
  else
    Ret ([], Display run (pager v) content).

End viewer.


(** * Notions used by the properties *)

Module notions.

Import strings ast highlighter renderer.

(** The last step of [RenderContent]. *)
Definition postProcess (s : gostring) : gostring :=
  EnsureTrailingNewline (TrimTrailingWhitespace s).

(** A line has no trailing white space when it does not end with a
    space or a tab. *)
Definition noTrailingWhitespace (line : gostring) : Prop :=
  last line <> Some SP /\ last line <> Some TAB.

(** The lines of a text are what stands between its newlines. *)
Definition linesTrimmed (s : gostring) : Prop :=
  Forall noTrailingWhitespace (Split s LF).

(** The text ends with a newline, and the byte before it, if any, is
    not a newline. *)
Definition oneTrailingNewline (s : gostring) : Prop :=
  exists body, s = body ++ [LF] /\ last body <> Some LF.

(** A language name in normal form: lower case, without white space
    around it. *)
Definition normalForm {caseTable : unicode.CaseTable} (r : gostring) : Prop :=
  ToLower (TrimSpace r) = r.

(** A string of white space only: every rune of it is white space for
    [unicode.IsSpace]; the empty string is one. *)
Definition onlyWhitespace (s : gostring) : Prop :=
  Forall (fun x => unicode.IsSpace x.1 = true) (utf8.runes s).

(** A list without the elements that satisfy [p] at its two ends. *)
Definition trimBoth {A} (p : A -> bool) (l : list A) : list A :=
  rev (skipWhile p (rev (skipWhile p l))).

(** What the properties of [normalizeLanguage] use of the table
    [unicode.CaseRanges]: for the code points beyond ASCII, lower case
    is a code point again, the lower case of a lower case is itself, and
    lower case keeps white space and nothing else white space. *)
Definition lowerCaseLaws (caseTable : unicode.CaseTable) : Prop :=
  forall r, utf8.ValidRune r = true -> (127 < r)%Z ->
    utf8.ValidRune (unicode.toLowerCase r) = true
    /\ unicode.ToLower (unicode.toLowerCase r) = unicode.toLowerCase r
    /\ unicode.IsSpace (unicode.toLowerCase r) = unicode.IsSpace r.

(** A part of the tables, for the examples: "Ü" (U+00DC) has the lower
    case "ü" (U+00FC), the Kelvin sign (U+212A) has the lower case "k",
    and the other code points are left as they are; the Kelvin sign and
    the double-struck capital C (U+2102), which has no lower case, are
    upper-case letters. *)
Definition sampleCaseTable : unicode.CaseTable :=
  {| unicode.toLowerCase :=
       fun r => if (r =? 220)%Z then 252%Z
                else if (r =? 8490)%Z then 107%Z
                else r;
     unicode.upperCase := fun r => (r =? 8490)%Z || (r =? 8450)%Z |}.

(** The names the switch returns for its aliases. *)
Definition canonicalNames : list gostring :=
  map str
    [ "javascript"; "typescript"; "python"; "ruby"; "bash"; "yaml"; "json";
      "xml"; "html"; "css"; "sql"; "go"; "rust"; "c"; "cpp"; "java"; "php";
      "swift"; "kotlin"; "scala"; "r"; "matlab"; "perl"; "lua"; "vim";
      "dockerfile"; "makefile"; "diff"; "text" ]%string.

(** The highlighter of the dark theme over a given chroma helper. *)
Definition darkHighlighter (ch : ChromaHelper) : Highlighter :=
  {| highlighter.themeManager := theme.NewWithBackground theme.BackgroundDark;
     highlighter.chromaHelper := ch |}.

(** Induction on a tree goes through the lists of children. *)
Fixpoint Node_forall_ind (P : Node -> Prop)
    (H : forall k cs, Forall P cs -> P (mkNode k cs)) (n : Node) : P n :=
  match n with
  | mkNode k cs =>
      H k cs ((fix children (cs : list Node) : Forall P cs :=
                 match cs with
                 | [] => List.Forall_nil P
                 | c :: rest =>
                     List.Forall_cons P c rest (Node_forall_ind P H c)
                       (children rest)
                 end) cs)
  end.

(** *** What a walk writes

    The renderer's walker never stops the walk, so the walk of a node
    writes what entering it writes, then what its children write, then
    what leaving it writes. *)

Section Kids.
Variable outputChild : bool -> bool -> Node -> result Buffer.

Fixpoint outputChildren (first : bool) (cs : list Node) : result Buffer :=
  match cs with
  | [] => Ret []
  | c :: rest =>
      o ← outputChild (negb first) (match rest with [] => false | _ => true end) c;
      os ← outputChildren false rest;
      Ret (o ++ os)
  end.
End Kids.

Fixpoint output (tr : terminalRenderer) (parents : list NodeKind)
    (prev next : bool) (n : Node)
  : result Buffer :=
  let cur := {| node := n; ancestors := parents;
                hasPreviousSibling := prev; hasNextSibling := next |} in
  r1 ← renderNode tr cur true;
  inner ← outputChildren (output tr (Kind n :: parents)) true (Children n);
  r2 ← renderNode tr cur false;
  Ret (r1.1 ++ inner ++ r2.1).

(** *** Trees on which no render function panics

    A [ListItem] counts the lists above it and a table cell asks its
    parent for its kind: in a parsed document every list item is below a
    list and every cell has a parent. *)

Definition nodeOK (parents : list NodeKind) (k : NodeKind) : bool :=
  match k with
  | ListItem => existsb isList parents
  | Extension kind =>
      if String.eqb kind "TableCell" then
        match parents with [] => false | _ => true end
      else true
  | _ => true
  end.

Fixpoint wellFormed (parents : list NodeKind) (n : Node) : bool :=
  match n with
  | mkNode k cs => nodeOK parents k && forallb (wellFormed (k :: parents)) cs
  end.

(** *** Styling state

    The style that is in force after some writes, for a terminal that
    had none before: a style role applies its style, [Reset] clears it. *)
Definition styleAfter (out : Buffer) : option theme.ColorKey :=
  fold_left (fun st e =>
               match e with
               | Color key => if String.eqb key theme.Reset then None else Some key
               | Lit _ => st
               end) out None.

(** A table cell, by its kind. *)
Definition isTableCell (k : NodeKind) : bool :=
  match k with
  | Extension kind => String.eqb kind "TableCell"
  | _ => false
  end.

(** Writes of text only, without any escape sequence of the theme. *)
Definition onlyText (out : Buffer) : Prop :=
  Forall (fun e => match e with Lit _ => True | Color _ => False end) out.

(** A text that stands as a block in the output: not empty, neither
    starting nor ending with a newline. *)
Definition blockText (t : gostring) : Prop :=
  head t <> Some LF /\ last t <> None /\ last t <> Some LF.

(** [strings.Contains] *)
Fixpoint Contains (s substr : gostring) : bool :=
  match s with
  | [] => match substr with [] => true | _ => false end
  | _ :: t => bool_decide (take (length substr) s = substr) || Contains t substr
  end.

(** *** Sample values *)

Definition darkTheme : theme.ThemeManager :=
  theme.NewWithBackground theme.BackgroundDark.

(** A highlighter that knows no language. *)
Definition failingHighlighter : CodeHighlighter :=
  {| Highlight := fun _ language =>
       ([], Some (str "no suitable lexer found for language: " ++ language));
     HighlightInlineCode := fun code => theme.Style darkTheme code theme.Code |}.

Definition darkTerminal : terminalRenderer :=
  {| themeManager := darkTheme; highlighter := failingHighlighter |}.

Definition darkRenderer : Renderer := {| rThemeManager := darkTheme |}.

Definition text (s : string) : Node := mkNode (Text (str s) false false false) [].

Definition cell (s : string) : Node := mkNode (Extension "TableCell") [text s].

(** The table with the header "A | B" and the body row "1 | 2". *)
Definition tableAB : Node :=
  mkNode Document
    [ mkNode (Extension "Table")
        [ mkNode (Extension "TableHeader") [cell "A"; cell "B"];
          mkNode (Extension "TableRow") [cell "1"; cell "2"] ] ].

(** The list "- a\n- b": the items of a tight list hold text blocks. *)
Definition listAB : Node :=
  mkNode Document
    [ mkNode (List false)
        [ mkNode ListItem [mkNode (Extension "TextBlock") [text "a"]];
          mkNode ListItem [mkNode (Extension "TextBlock") [text "b"]] ] ].

(** A list item of an unordered list at the top of the document. *)
Definition bulletItem : Cursor :=
  {| node := mkNode ListItem [mkNode (Extension "TextBlock") [text "a"]];
     ancestors := [List false; Document];
     hasPreviousSibling := false; hasNextSibling := true |}.

Definition paragraphsAB : Node :=
  mkNode Document [mkNode Paragraph [text "A"]; mkNode Paragraph [text "B"]].

(** A paragraph of inline raw HTML only, followed by the paragraph "B". *)
Definition paragraphsHTMLB : Node :=
  mkNode Document [mkNode Paragraph [mkNode RawHTML []]; mkNode Paragraph [text "B"]].

(** The first cell of the header row of [tableAB], as the walk reaches it. *)
Definition headerCellA : Cursor :=
  {| node := cell "A";
     ancestors := [Extension "TableHeader"; Extension "Table"; Document];
     hasPreviousSibling := false; hasNextSibling := true |}.

End notions.

(** ** Notions of the further properties *)

Module more_notions.

Import strings utf8 ast highlighter renderer notions.

(** A word: a string that is not empty and holds no white space. *)
Definition isWord (w : gostring) : Prop :=
  w <> [] /\ Forall (fun x => unicode.IsSpace x.1 = false) (runes w).

(** A line of the wrapped text fits the width, or is one word. *)
Definition fits (width : Z) (line : gostring) : Prop :=
  (Z.of_nat (RuneCountInString line) <= width)%Z \/ isWord line.

(** A separator: an ASCII byte that is white space. *)
Definition separator (c : ascii) : Prop :=
  (nat_of_ascii c < 128)%nat /\ unicode.IsSpace (byteVal c) = true.

(** An escape sequence that selects a graphic rendition: ESC, "[",
    parameters and the final "m". *)
Definition isSGR (s : gostring) : bool :=
  match s with
  | e :: b :: rest =>
      Ascii.eqb e ESC && Ascii.eqb b "["%char
      && match last rest with Some m => Ascii.eqb m "m"%char | None => false end
  | _ => false
  end.

(** The style roles that [theme.go] declares. *)
Definition roles : list theme.ColorKey :=
  [ theme.Header1; theme.Header2; theme.Header3; theme.Header4; theme.Header5;
    theme.Header6; theme.Bold; theme.Italic; theme.Strikethrough; theme.Code;
    theme.BlockQuote; theme.Link; theme.BulletPoint; theme.OrderedList;
    theme.TableHeader; theme.TableBorder; theme.Reset ].

(** The names that [GetANSIConstant] knows. *)
Definition ansiNames : list string :=
  [ "reset"; "bold"; "dim"; "italic"; "underline"; "strikethrough";
    "black"; "red"; "green"; "yellow"; "blue"; "magenta"; "cyan"; "white";
    "bright_black"; "bright_red"; "bright_green"; "bright_yellow";
    "bright_blue"; "bright_magenta"; "bright_cyan"; "bright_white" ]%string.

(** An environment where the background colour of COLORFGBG is 15, white,
    and LIGHT_MODE is set. *)
Definition whiteOnBlackEnv : theme.Env :=
  {[ "COLORFGBG"%string := str "0;15"; "LIGHT_MODE"%string := str "1" ]}.

(** An environment where only LIGHT_MODE is set. *)
Definition lightModeEnv : theme.Env := {[ "LIGHT_MODE"%string := str "1" ]}.

(** The labels of the switch of [normalizeLanguage] that are rewritten. *)
Definition languageAliases : list gostring :=
  map str
    [ "js"; "ts"; "py"; "rb"; "sh"; "shell"; "yml"; "golang"; "rs"; "c++";
      "cxx"; "kt"; "docker"; "make"; "plain"; "txt" ]%string.

(** A node that the renderer does not render itself: the document, raw
    HTML, and every node whose kind has no render function that writes
    (the header row of a table among them). *)
Definition silentKind (k : ast.NodeKind) : bool :=
  match k with
  | ast.Document | ast.RawHTML | ast.HTMLBlock => true
  | ast.Extension kind =>
      negb (existsb (String.eqb kind)
              ["Table"; "TableRow"; "TableCell"; "Strikethrough"; "TaskCheckBox"]%string)
  | _ => false
  end.

(** A text node without children. *)
Definition isTextLeaf (n : ast.Node) : Prop :=
  exists v raw hard soft, n = ast.mkNode (ast.Text v raw hard soft) [].

(** A line of an indented block: of white space only, or starting with
    two spaces. *)
Definition indentedLine (line : gostring) : Prop :=
  strings.TrimSpace line = [] \/ exists rest, line = SP :: SP :: rest.

(** How often an emission occurs in what was written. *)
Definition occurrences (e : renderer.emission) (out : renderer.Buffer) : nat :=
  length (List.filter
            (fun x => match x, e with
                      | renderer.Lit a, renderer.Lit b => gostring_eqb a b
                      | renderer.Color a, renderer.Color b => String.eqb a b
                      | _, _ => false
                      end) out).

(** The header row of a table with the given cells, as a cursor. *)
Definition headerRow (cells : list ast.Node) (parents : list ast.NodeKind)
    (prev next : bool) : ast.Cursor :=
  {| ast.node := ast.mkNode (ast.Extension "TableHeader") cells;
     ast.ancestors := parents;
     ast.hasPreviousSibling := prev; ast.hasNextSibling := next |}.

End more_notions.

(** * Properties *)

(** ** Facts on the string functions *)

Module strings_facts.
Import strings.

Lemma Split_nonempty s sep : Split s sep <> [].
Proof.
destruct s as [|c t]; simpl; [discriminate|].
destruct (Ascii.eqb c sep); [discriminate|].
destruct (Split t sep); discriminate.
Qed.

Lemma Join_Split s sep : Join (Split s sep) [sep] = s.
Proof.
induction s as [|c t IH]; simpl; [reflexivity|].
destruct (Ascii.eqb_spec c sep) as [->|Hne].
- pose proof (Split_nonempty t sep) as Hn.
  destruct (Split t sep) as [|l ls] eqn:E; [contradiction|].
  simpl. simpl in IH. rewrite IH. reflexivity.
- destruct (Split t sep) as [|l ls] eqn:E.
  + exfalso. eapply Split_nonempty; eassumption.
  + simpl in *. destruct ls; simpl in *; rewrite <- IH; reflexivity.
Qed.

Lemma Split_no_sep s sep : Forall (fun l => ~ In sep l) (Split s sep).
Proof.
induction s as [|c t IH]; simpl.
- constructor; [intros []|constructor].
- destruct (Ascii.eqb_spec c sep) as [->|Hne].
  + constructor; [intros []|exact IH].
  + destruct (Split t sep) as [|l ls].
    * constructor; [|constructor]. intros [H|[]]; congruence.
    * inversion IH; subst. constructor; [|assumption].
      intros [H|H]; [congruence|contradiction].
Qed.

Lemma Split_line l sep : ~ In sep l -> Split l sep = [l].
Proof.
induction l as [|c t IH]; simpl; intros H; [reflexivity|].
destruct (Ascii.eqb_spec c sep) as [->|Hne]; [tauto|].
rewrite IH by tauto. reflexivity.
Qed.

(** Splitting at an occurrence of the separator. *)
Lemma Split_cons_line l rest sep :
~ In sep l -> Split (l ++ sep :: rest) sep = l :: Split rest sep.
Proof.
induction l as [|c t IH]; simpl; intros H.
- rewrite Ascii.eqb_refl. reflexivity.
- destruct (Ascii.eqb_spec c sep) as [->|Hne]; [tauto|].
  rewrite IH by tauto. reflexivity.
Qed.

Lemma Split_Join ls sep :
ls <> [] -> Forall (fun l => ~ In sep l) ls -> Split (Join ls [sep]) sep = ls.
Proof.
induction ls as [|l ls IH]; intros Hne Hall; [contradiction|].
inversion Hall as [|? ? Hl Hls]; subst.
destruct ls as [|l' ls'].
- simpl. apply Split_line; assumption.
- change (Join (l :: l' :: ls') [sep]) with (l ++ sep :: Join (l' :: ls') [sep]).
  rewrite Split_cons_line by assumption.
  rewrite IH; [reflexivity|discriminate|assumption].
Qed.

Lemma Split_app a b sep :
Split (a ++ sep :: b) sep = Split a sep ++ Split b sep.
Proof.
induction a as [|c t IH]; simpl.
- rewrite Ascii.eqb_refl. reflexivity.
- destruct (Ascii.eqb_spec c sep) as [->|Hne].
  + rewrite IH. reflexivity.
  + rewrite IH. pose proof (Split_nonempty t sep).
    destruct (Split t sep); [contradiction|reflexivity].
Qed.

(** *** Trimming *)

Lemma TrimRightFunc_nil f : TrimRightFunc [] f = [].
Proof. reflexivity. Qed.

Lemma TrimRightFunc_snoc s c f :
TrimRightFunc (s ++ [c]) f = if f c then TrimRightFunc s f else s ++ [c].
Proof.
unfold TrimRightFunc. rewrite rev_app_distr. simpl.
destruct (f c); [reflexivity|].
simpl. rewrite rev_involutive. reflexivity.
Qed.

Lemma TrimRightFunc_last s c f :
last (TrimRightFunc s f) = Some c -> f c = false.
Proof.
induction s as [|d s IH] using rev_ind; [discriminate|].
rewrite TrimRightFunc_snoc. destruct (f d) eqn:E; [exact IH|].
rewrite last_snoc. congruence.
Qed.

Lemma TrimRightFunc_fixed s f :
(forall c, last s = Some c -> f c = false) -> TrimRightFunc s f = s.
Proof.
destruct s as [|d s _] using rev_ind; [reflexivity|].
intros H. rewrite TrimRightFunc_snoc, (H d); [reflexivity|apply last_snoc].
Qed.

Lemma TrimRightFunc_idem s f :
TrimRightFunc (TrimRightFunc s f) f = TrimRightFunc s f.
Proof. apply TrimRightFunc_fixed. intros c. apply TrimRightFunc_last. Qed.

Lemma TrimRightFunc_decomp s f :
exists t, s = TrimRightFunc s f ++ t /\ Forall (fun c => f c = true) t.
Proof.
induction s as [|d s IH] using rev_ind.
- exists []. split; [reflexivity|constructor].
- rewrite TrimRightFunc_snoc. destruct (f d) eqn:E.
  + destruct IH as (t & Ht & Hall). exists (t ++ [d]). split.
    * rewrite app_assoc, <- Ht. reflexivity.
    * apply Forall_app. split; [assumption|]. constructor; [assumption|constructor].
  + exists []. split; [rewrite app_nil_r; reflexivity|constructor].
Qed.

Lemma TrimRightFunc_cons c t f :
TrimRightFunc (c :: t) f =
match TrimRightFunc t f with
| [] => if f c then [] else [c]
| t' => c :: t'
end.
Proof.
induction t as [|d u IH] using rev_ind.
- change [c] with ([] ++ [c]). rewrite TrimRightFunc_snoc. reflexivity.
- rewrite app_comm_cons, !TrimRightFunc_snoc.
  destruct (f d); [exact IH|]. destruct u; reflexivity.
Qed.

Lemma inCutset_In cutset c : inCutset cutset c = true <-> In c cutset.
Proof.
unfold inCutset. rewrite existsb_exists. split.
- intros (x & Hin & Heq). apply Ascii.eqb_eq in Heq. congruence.
- intros H. exists c. split; [assumption|apply Ascii.eqb_refl].
Qed.

Lemma TrimRight_no_sep s cutset sep :
~ In sep s -> ~ In sep (TrimRight s cutset).
Proof.
intros H Hin. apply H.
destruct (TrimRightFunc_decomp s (inCutset cutset)) as (t & Ht & _).
rewrite Ht. apply in_or_app. left. exact Hin.
Qed.

End strings_facts.

(** ** Post-processing of the rendered text *)

Module postprocess.

Import strings strings_facts renderer notions.

Lemma TrimRight_line_ok l : noTrailingWhitespace (TrimRight l [SP; TAB]).
Proof.
  split; intros H; apply TrimRightFunc_last in H; discriminate H.
Qed.

Lemma TrimRight_line_fixed l :
  noTrailingWhitespace l -> TrimRight l [SP; TAB] = l.
Proof.
  intros [H1 H2]. apply TrimRightFunc_fixed. intros c Hc.
  destruct (inCutset [SP; TAB] c) eqn:E; [|reflexivity].
  apply inCutset_In in E. destruct E as [<-|[<-|[]]]; congruence.
Qed.

Lemma Split_TrimTrailingWhitespace s :
  Split (TrimTrailingWhitespace s) LF
  = map (fun line => TrimRight line [SP; TAB]) (Split s LF).
Proof.
  unfold TrimTrailingWhitespace. apply Split_Join.
  - pose proof (Split_nonempty s LF). destruct (Split s LF); [contradiction|discriminate].
  - apply Forall_map. eapply Forall_impl; [apply Split_no_sep|].
    intros l Hl. apply TrimRight_no_sep, Hl.
Qed.

Lemma TrimTrailingWhitespace_lines s : linesTrimmed (TrimTrailingWhitespace s).
Proof.
  unfold linesTrimmed. rewrite Split_TrimTrailingWhitespace.
  apply Forall_map, Forall_forall. intros l _. apply TrimRight_line_ok.
Qed.

Lemma TrimTrailingWhitespace_fixed s :
  linesTrimmed s -> TrimTrailingWhitespace s = s.
Proof.
  intros H. unfold TrimTrailingWhitespace.
  rewrite <- (Join_Split s LF) at 2. f_equal.
  rewrite <- (map_id (Split s LF)) at 2. apply map_ext_Forall.
  eapply Forall_impl; [exact H|]. intros l Hl. apply TrimRight_line_fixed, Hl.
Qed.

(** Removing the trailing newlines removes trailing empty lines only. *)
Lemma TrimRight_LF_lines s : linesTrimmed s -> linesTrimmed (TrimRight s [LF]).
Proof.
  unfold linesTrimmed. intros H.
  destruct (TrimRightFunc_decomp s (inCutset [LF])) as (t & Ht & Hall).
  fold (TrimRight s [LF]) in Ht. destruct t as [|c t].
  - rewrite app_nil_r in Ht. rewrite <- Ht. exact H.
  - inversion Hall as [|? ? Hc _]; subst.
    apply inCutset_In in Hc. destruct Hc as [<-|[]].
    rewrite Ht, Split_app in H. apply Forall_app in H. apply H.
Qed.

Lemma snoc_LF_lines s : linesTrimmed s -> linesTrimmed (s ++ [LF]).
Proof.
  unfold linesTrimmed. intros H. rewrite Split_app. apply Forall_app.
  split; [exact H|]. constructor; [|constructor]. split; discriminate.
Qed.

Lemma EnsureTrailingNewline_lines s :
  linesTrimmed s -> linesTrimmed (EnsureTrailingNewline s).
Proof. intros H. apply snoc_LF_lines, TrimRight_LF_lines, H. Qed.

Lemma EnsureTrailingNewline_one s : oneTrailingNewline (EnsureTrailingNewline s).
Proof.
  exists (TrimRight s [LF]). split; [reflexivity|].
  intros H. apply TrimRightFunc_last in H. discriminate H.
Qed.

Lemma EnsureTrailingNewline_fixed s :
  oneTrailingNewline s -> EnsureTrailingNewline s = s.
Proof.
  intros (body & -> & Hbody). unfold EnsureTrailingNewline, TrimRight.
  rewrite TrimRightFunc_snoc. simpl. f_equal.
  apply TrimRightFunc_fixed. intros c Hc.
  destruct (inCutset [LF] c) eqn:E; [|reflexivity].
  apply inCutset_In in E. destruct E as [<-|[]]. contradiction.
Qed.

Lemma postProcess_lines s : linesTrimmed (postProcess s).
Proof. apply EnsureTrailingNewline_lines, TrimTrailingWhitespace_lines. Qed.

Lemma postProcess_one s : oneTrailingNewline (postProcess s).
Proof. apply EnsureTrailingNewline_one. Qed.

Lemma postProcess_fixed s :
  linesTrimmed s -> oneTrailingNewline s -> postProcess s = s.
Proof.
  intros H1 H2. unfold postProcess.
  rewrite TrimTrailingWhitespace_fixed by assumption.
  apply EnsureTrailingNewline_fixed, H2.
Qed.

(** C8: the post-processing step of [RenderContent], the trim of
    trailing white space on every line followed by the single trailing
    newline, is idempotent: on every string, applying it twice gives
    what applying it once gives. *)
Theorem postProcess_idempotent (s : gostring) :
  EnsureTrailingNewline (TrimTrailingWhitespace
    (EnsureTrailingNewline (TrimTrailingWhitespace s)))
  = EnsureTrailingNewline (TrimTrailingWhitespace s).
Proof.
  apply (postProcess_fixed (postProcess s)).
  - apply postProcess_lines.
  - apply postProcess_one.
Qed.

End postprocess.

(** ** Runes *)

Module utf8_facts.

Import strings utf8 notions.

Lemma runeSize_least c rest : (1 <= runeSize c rest <= S (length rest))%nat.
Proof.
  unfold runeSize. repeat case_match; simpl in *; try lia;
  repeat match goal with
  | H : (_ <? _)%nat = false |- _ => apply Nat.ltb_ge in H
  | H : first _ = Some _ |- _ => unfold first in H; repeat case_match; simplify_eq
  end; simpl in *; try lia.
Qed.

Lemma Decode_size s r size :
  s <> [] -> DecodeRuneInString s = (r, size) ->
  (1 <= size <= length s)%nat.
Proof.
  destruct s as [|c rest]; [done|]. intros _. unfold DecodeRuneInString.
  pose proof (runeSize_least c rest).
  repeat case_match; intros; simplify_eq; simpl in *; lia.
Qed.

Lemma decodeRunes_fuel2 n : forall m s,
  (length s <= n)%nat -> (length s <= m)%nat ->
  decodeRunes n s = decodeRunes m s.
Proof.
  induction n as [|n IH]; intros m s Hn Hm.
  - destruct s; [by destruct m|simpl in Hn; lia].
  - destruct s as [|c rest]; [by destruct m|].
    destruct m as [|m]; [simpl in Hm; lia|].
    cbn [decodeRunes].
    destruct (DecodeRuneInString (c :: rest)) as [r size] eqn:E.
    apply Decode_size in E; [|done]. simpl in E.
    f_equal. apply IH; rewrite length_drop; simpl in *; lia.
Qed.

Lemma decodeRunes_fuel fuel s :
  (length s <= fuel)%nat -> decodeRunes fuel s = decodeRunes (length s) s.
Proof. intros. by apply decodeRunes_fuel2. Qed.

Lemma runes_step s r size :
  s <> [] -> DecodeRuneInString s = (r, size) ->
  runes s = (r, take size s) :: runes (drop size s).
Proof.
  intros Hs E. unfold runes. destruct s as [|c rest]; [done|].
  cbn [decodeRunes length]. rewrite E. f_equal.
  apply decodeRunes_fuel. apply Decode_size in E; [|done].
  rewrite length_drop. simpl in *. lia.
Qed.

(** Induction on a string, rune by rune. *)
Lemma runes_ind (P : gostring -> Prop) :
  P [] ->
  (forall s r size, s <> [] -> DecodeRuneInString s = (r, size) ->
     (1 <= size <= length s)%nat -> P (drop size s) -> P s) ->
  forall s, P s.
Proof.
  intros H0 Hs s. remember (length s) as n eqn:Hn.
  revert s Hn. induction (lt_wf n) as [n _ IH]. intros s ->.
  destruct s as [|c rest]; [exact H0|].
  destruct (DecodeRuneInString (c :: rest)) as [r size] eqn:E.
  assert (Hb := Decode_size (c :: rest) r size ltac:(discriminate) E).
  eapply Hs; eauto. eapply IH; [|reflexivity].
  rewrite length_drop. simpl in *. lia.
Qed.

(** The runes of a string hold its bytes. *)
Lemma runes_bytes s : bytesOf (runes s) = s.
Proof.
  unfold bytesOf.
  induction s as [|s r size Hs E Hb IH] using runes_ind; [done|].
  rewrite (runes_step _ _ _ Hs E). simpl. rewrite IH. apply take_drop.
Qed.

(** A suffix of the runes of a string is the runes of its bytes. *)
Lemma runes_suffix s l1 l2 :
  runes s = l1 ++ l2 -> runes (bytesOf l2) = l2.
Proof.
  unfold bytesOf.
  revert l1. induction s as [|s r size Hs E Hb IH] using runes_ind; intros l1 H.
  - destruct l1, l2; simplify_eq; done.
  - rewrite (runes_step _ _ _ Hs E) in H.
    destruct l1 as [|x l1].
    + simpl in H. subst l2. cbn [map concat snd].
      pose proof (runes_bytes (drop size s)) as Hd. unfold bytesOf in Hd.
      rewrite Hd, take_drop. apply runes_step; done.
    + simpl in H. injection H as _ H. eauto.
Qed.

Lemma first_size c size lo hi :
  first c = Some (size, (lo, hi)) -> size = 2%nat \/ size = 3%nat \/ size = 4%nat.
Proof. unfold first. repeat case_match; intros; simplify_eq; auto. Qed.

Lemma runeSize_spec c rest :
  runeSize c rest =
  if (nat_of_ascii c <? 128)%nat then 1%nat
  else match first c with
       | None => 1%nat
       | Some (size, (lo, hi)) => if conts size lo hi rest then size else 1%nat
       end.
Proof.
  unfold runeSize. destruct (nat_of_ascii c <? 128)%nat; [done|].
  destruct (first c) as [[size [lo hi]]|] eqn:Ef; [|done].
  apply first_size in Ef.
  destruct Ef as [-> | [-> | ->]];
    destruct rest as [|c1 [|c2 [|c3 rest]]]; cbn;
    repeat (destruct (inRange _ _ _); cbn; try done); done.
Qed.

Lemma conts_app size lo hi a b :
  conts size lo hi a = true -> conts size lo hi (a ++ b) = true.
Proof.
  destruct size as [|[|[|[|[|?]]]]]; try done;
  destruct a as [|c1 [|c2 [|c3 a]]]; try done.
Qed.

Lemma conts_take size lo hi a b :
  conts size lo hi (a ++ b) = true -> (size <= S (length a))%nat ->
  conts size lo hi a = true.
Proof.
  destruct size as [|[|[|[|[|?]]]]]; try done;
  destruct a as [|c1 [|c2 [|c3 a]]]; simpl; try done; lia.
Qed.

Lemma Decode_spec c rest :
  DecodeRuneInString (c :: rest) =
  if (nat_of_ascii c <? 128)%nat then (byteVal c, 1%nat)
  else match first c with
       | None => (RuneError, 1%nat)
       | Some (size, (lo, hi)) =>
           if conts size lo hi rest then (runeValue size c rest, size)
           else (RuneError, 1%nat)
       end.
Proof.
  unfold DecodeRuneInString. rewrite runeSize_spec.
  assert (Hb : (byteVal c <? 128)%Z = (nat_of_ascii c <? 128)%nat).
  { unfold byteVal. destruct (Nat.ltb_spec (nat_of_ascii c) 128);
      [apply Z.ltb_lt|apply Z.ltb_ge]; lia. }
  destruct (nat_of_ascii c <? 128)%nat eqn:E.
  { rewrite Hb. by destruct rest as [|c1 [|c2 [|c3 rest]]]. }
  destruct (first c) as [[size [lo hi]]|] eqn:Ef.
  2:{ rewrite Hb. by destruct rest as [|c1 [|c2 [|c3 rest]]]. }
  destruct (conts size lo hi rest) eqn:Ec.
  2:{ rewrite Hb. by destruct rest as [|c1 [|c2 [|c3 rest]]]. }
  apply first_size in Ef.
  destruct Ef as [-> | [-> | ->]];
    destruct rest as [|c1 [|c2 [|c3 rest]]]; try done.
Qed.

Lemma runeValue_app size lo hi c a b :
  conts size lo hi a = true -> runeValue size c (a ++ b) = runeValue size c a.
Proof.
  destruct size as [|[|[|[|[|?]]]]]; try done;
  destruct a as [|c1 [|c2 [|c3 a]]]; try done.
Qed.

(** The first rune of a string does not depend on the bytes after it. *)
Lemma Decode_truncate a b r size :
  a <> [] -> DecodeRuneInString (a ++ b) = (r, size) ->
  (size <= length a)%nat -> DecodeRuneInString a = (r, size).
Proof.
  destruct a as [|c a]; [done|]. intros _.
  cbn [app]. rewrite !Decode_spec.
  destruct (nat_of_ascii c <? 128)%nat; [done|].
  destruct (first c) as [[sz [lo hi]]|] eqn:Ef; [|done].
  destruct (conts sz lo hi (a ++ b)) eqn:Ec.
  - intros [= <- <-] Hl. simpl in Hl.
    rewrite (conts_take _ _ _ _ _ Ec) by lia.
    by erewrite runeValue_app by (eapply conts_take; [exact Ec|lia]).
  - intros [= <- <-] _.
    destruct (conts sz lo hi a) eqn:Ea; [|done].
    by rewrite (conts_app _ _ _ _ b Ea) in Ec.
Qed.

(** A prefix of the runes of a string is the runes of its bytes. *)
Lemma runes_prefix s l1 l2 :
  runes s = l1 ++ l2 -> runes (bytesOf l1) = l1.
Proof.
  unfold bytesOf.
  revert l1. induction s as [|s r size Hs E Hb IH] using runes_ind; intros l1 H.
  - destruct l1, l2; simplify_eq; done.
  - rewrite (runes_step _ _ _ Hs E) in H.
    destruct l1 as [|x l1]; [done|].
    simpl in H. injection H as <- H. cbn [map concat snd].
    pose proof (IH _ H) as IH'.
    assert (Hs' : s = take size s ++ concat (map snd l1) ++ concat (map snd l2)).
    { rewrite <- concat_app, <- map_app, <- H.
      pose proof (runes_bytes (drop size s)) as Hd. unfold bytesOf in Hd.
      by rewrite Hd, take_drop. }
    assert (Ht : take size s <> []).
    { destruct s; [done|]. destruct size; [lia|done]. }
    assert (Hlen : length (take size s) = size) by (rewrite length_take; lia).
    rewrite (runes_step _ r size).
    + rewrite take_app_length' by done. rewrite drop_app_length' by done.
      by rewrite IH'.
    + by destruct (take size s).
    + apply (Decode_truncate _ (concat (map snd l2))).
      * by destruct (take size s).
      * by rewrite <- app_assoc, <- Hs'.
      * rewrite length_app. lia.
Qed.

Lemma nat_of_byteOf z : (0 <= z < 256)%Z -> nat_of_ascii (byteOf z) = Z.to_nat z.
Proof. intros. unfold byteOf. apply nat_ascii_embedding. lia. Qed.

Lemma byteVal_byteOf z : (0 <= z < 256)%Z -> byteVal (byteOf z) = z.
Proof. intros. unfold byteVal. rewrite nat_of_byteOf by done. lia. Qed.

Lemma byteVal_range c : (0 <= byteVal c < 256)%Z.
Proof. unfold byteVal. pose proof (nat_ascii_bounded c). lia. Qed.

Lemma inRange_spec lo hi c :
  inRange lo hi c = true <-> (Z.of_nat lo <= byteVal c <= Z.of_nat hi)%Z.
Proof.
  unfold inRange, byteVal. rewrite andb_true_iff, !Nat.leb_le. lia.
Qed.

Lemma first_spec c size lo hi :
  first c = Some (size, (lo, hi)) ->
  let n := byteVal c in
  (size = 2%nat /\ 194 <= n <= 223 /\ lo = 128%nat /\ hi = 191%nat)%Z
  \/ (size = 3%nat /\ n = 224 /\ lo = 160%nat /\ hi = 191%nat)%Z
  \/ (size = 3%nat /\ (225 <= n <= 236 \/ 238 <= n <= 239)
      /\ lo = 128%nat /\ hi = 191%nat)%Z
  \/ (size = 3%nat /\ n = 237 /\ lo = 128%nat /\ hi = 159%nat)%Z
  \/ (size = 4%nat /\ n = 240 /\ lo = 144%nat /\ hi = 191%nat)%Z
  \/ (size = 4%nat /\ 241 <= n <= 243 /\ lo = 128%nat /\ hi = 191%nat)%Z
  \/ (size = 4%nat /\ n = 244 /\ lo = 128%nat /\ hi = 143%nat)%Z.
Proof.
  unfold first, byteVal. cbv zeta.
  repeat match goal with
  | |- context [(?a <? ?b)%nat] => destruct (Nat.ltb_spec a b)
  | |- context [(?a <=? ?b)%nat] => destruct (Nat.leb_spec a b)
  | |- context [(?a =? ?b)%nat] => destruct (Nat.eqb_spec a b)
  end; intros; simplify_eq; lia.
Qed.

Lemma first_of_range n :
  (0 <= n < 256)%Z ->
  first (byteOf n) =
  if (n <? 194)%Z then None
  else if (n <=? 223)%Z then Some (2, (128, 191))%nat
  else if (n =? 224)%Z then Some (3, (160, 191))%nat
  else if (n <=? 236)%Z then Some (3, (128, 191))%nat
  else if (n =? 237)%Z then Some (3, (128, 159))%nat
  else if (n <=? 239)%Z then Some (3, (128, 191))%nat
  else if (n =? 240)%Z then Some (4, (144, 191))%nat
  else if (n <=? 243)%Z then Some (4, (128, 191))%nat
  else if (n =? 244)%Z then Some (4, (128, 143))%nat
  else None.
Proof.
  intros Hn. unfold first. rewrite nat_of_byteOf by done. cbv zeta.
  repeat match goal with
  | |- context [(?a <? ?b)%nat] => destruct (Nat.ltb_spec a b)
  | |- context [(?a <=? ?b)%nat] => destruct (Nat.leb_spec a b)
  | |- context [(?a =? ?b)%nat] => destruct (Nat.eqb_spec a b)
  | |- context [(?a <? ?b)%Z] => destruct (Z.ltb_spec a b)
  | |- context [(?a <=? ?b)%Z] => destruct (Z.leb_spec a b)
  | |- context [(?a =? ?b)%Z] => destruct (Z.eqb_spec a b)
  end; try done; lia.
Qed.

Ltac euclid := Z.div_mod_to_equations; lia.

Ltac valid_range :=
  unfold ValidRune, MaxRune;
  rewrite ?andb_true_iff, ?negb_true_iff, ?andb_false_iff, ?Z.leb_le, ?Z.leb_gt.

(** A decoded rune is a code point: the decoder accepts neither an
    encoding that is longer than needed nor a surrogate half. *)
Lemma Decode_valid s r size :
  DecodeRuneInString s = (r, size) -> ValidRune r = true.
Proof.
  destruct s as [|c rest]; [by intros [= <- <-]|].
  rewrite Decode_spec.
  destruct (Nat.ltb_spec (nat_of_ascii c) 128).
  { intros [= <- <-]. valid_range. unfold byteVal. lia. }
  destruct (first c) as [[sz [lo hi]]|] eqn:Ef; [|by intros [= <- <-]].
  destruct (conts sz lo hi rest) eqn:Ec; [|by intros [= <- <-]].
  intros [= <- <-]. apply first_spec in Ef. cbv zeta in Ef.
  valid_range.
  destruct sz as [|[|[|[|[|?]]]]]; try (exfalso; lia);
  destruct rest as [|c1 [|c2 [|c3 rest]]]; try done; cbn [conts runeValue] in *;
  rewrite ?andb_true_iff, ?inRange_spec in Ec;
  pose proof (byteVal_range c); lia.
Qed.

(** Decoding the encoding of a code point gives it back. *)
Lemma EncodeRune_decode r rest :
  ValidRune r = true ->
  DecodeRuneInString (EncodeRune r ++ rest) = (r, length (EncodeRune r)).
Proof.
  intros Hv. pose proof Hv as Hv'. revert Hv'. valid_range.
  intros [[H0 Hmax] Hsur]. unfold EncodeRune.
  destruct (Z.leb_spec 0 r); [|lia]. cbn [andb].
  destruct (Z.leb_spec r 127).
  { cbn [app length]. rewrite Decode_spec, nat_of_byteOf by lia.
    destruct (Nat.ltb_spec (Z.to_nat r) 128); [|lia].
    by rewrite byteVal_byteOf by lia. }
  destruct (Z.leb_spec r 2047).
  { cbn [app length]. rewrite Decode_spec, nat_of_byteOf by euclid.
    destruct (Nat.ltb_spec (Z.to_nat (192 + r / 64)) 128); [euclid|].
    rewrite first_of_range by euclid.
    destruct (Z.ltb_spec (192 + r / 64) 194); [euclid|].
    destruct (Z.leb_spec (192 + r / 64) 223); [|euclid].
    cbn [conts runeValue].
    assert (Hr : inRange 128 191 (byteOf (128 + r mod 64)) = true).
    { apply inRange_spec. rewrite byteVal_byteOf; euclid. }
    rewrite Hr. f_equal.
    rewrite !byteVal_byteOf by euclid. euclid. }
  rewrite Hv. cbn [negb].
  destruct (Z.leb_spec r 65535).
  { cbn [app length]. rewrite Decode_spec, nat_of_byteOf by euclid.
    destruct (Nat.ltb_spec (Z.to_nat (224 + r / 4096)) 128); [euclid|].
    rewrite first_of_range by euclid.
    assert (Hc2 : inRange 128 191 (byteOf (128 + r mod 64)) = true).
    { apply inRange_spec. rewrite byteVal_byteOf; euclid. }
    assert (Hval : ((byteVal (byteOf (224 + r / 4096)) - 224) * 4096
              + (byteVal (byteOf (128 + (r / 64) mod 64)) - 128) * 64
              + (byteVal (byteOf (128 + r mod 64)) - 128))%Z = r).
    { rewrite !byteVal_byteOf by euclid. euclid. }
    repeat match goal with
    | |- context [(?a <? ?b)%Z] => destruct (Z.ltb_spec a b)
    | |- context [(?a <=? ?b)%Z] => destruct (Z.leb_spec a b)
    | |- context [(?a =? ?b)%Z] => destruct (Z.eqb_spec a b)
    end; try (exfalso; euclid);
    cbn [conts runeValue]; rewrite Hc2;
    match goal with
    | |- context [inRange ?lo ?hi ?c] =>
        let Hc := fresh in
        assert (Hc : inRange lo hi c = true)
          by (apply inRange_spec; rewrite byteVal_byteOf; euclid);
        rewrite Hc
    end; cbn [andb]; by rewrite Hval. }
  cbn [app length]. rewrite Decode_spec, nat_of_byteOf by euclid.
  destruct (Nat.ltb_spec (Z.to_nat (240 + r / 262144)) 128); [euclid|].
  rewrite first_of_range by euclid.
  assert (Hc2 : inRange 128 191 (byteOf (128 + (r / 64) mod 64)) = true).
  { apply inRange_spec. rewrite byteVal_byteOf; euclid. }
  assert (Hc3 : inRange 128 191 (byteOf (128 + r mod 64)) = true).
  { apply inRange_spec. rewrite byteVal_byteOf; euclid. }
  assert (Hval : ((byteVal (byteOf (240 + r / 262144)) - 240) * 262144
            + (byteVal (byteOf (128 + (r / 4096) mod 64)) - 128) * 4096
            + (byteVal (byteOf (128 + (r / 64) mod 64)) - 128) * 64
            + (byteVal (byteOf (128 + r mod 64)) - 128))%Z = r).
  { rewrite !byteVal_byteOf by euclid. euclid. }
  repeat match goal with
  | |- context [(?a <? ?b)%Z] => destruct (Z.ltb_spec a b)
  | |- context [(?a <=? ?b)%Z] => destruct (Z.leb_spec a b)
  | |- context [(?a =? ?b)%Z] => destruct (Z.eqb_spec a b)
  end; try (exfalso; euclid);
  cbn [conts runeValue]; rewrite Hc2, Hc3;
  match goal with
  | |- context [inRange ?lo ?hi ?c] =>
      let Hc := fresh in
      assert (Hc : inRange lo hi c = true)
        by (apply inRange_spec; rewrite byteVal_byteOf; euclid);
      rewrite Hc
  end; cbn [andb]; by rewrite Hval.
Qed.

Lemma EncodeRune_length r : (1 <= length (EncodeRune r))%nat.
Proof. unfold EncodeRune. repeat case_match; simpl; lia. Qed.

Lemma runes_encode r rest :
  ValidRune r = true ->
  runes (EncodeRune r ++ rest) = (r, EncodeRune r) :: runes rest.
Proof.
  intros Hv. pose proof (EncodeRune_length r).
  rewrite (runes_step _ r (length (EncodeRune r))).
  - by rewrite take_app_length, drop_app_length.
  - destruct (EncodeRune r); simpl in *; [lia|done].
  - by apply EncodeRune_decode.
Qed.

Lemma runes_concat_encode rs :
  Forall (fun r => ValidRune r = true) rs ->
  runes (concat (map EncodeRune rs)) = map (fun r => (r, EncodeRune r)) rs.
Proof.
  induction 1 as [|r rs Hr _ IH]; [done|].
  cbn [map concat]. by rewrite runes_encode, IH.
Qed.

Lemma runes_valid s x : In x (runes s) -> ValidRune x.1 = true.
Proof.
  revert x.
  induction s as [|s r size Hs E Hb IH] using runes_ind; [done|].
  rewrite (runes_step _ _ _ Hs E). intros x [<-|Hx]; [|by apply IH].
  simpl. by eapply Decode_valid.
Qed.

Lemma runes_ascii s :
  isASCII s = true -> runes s = map (fun c => (byteVal c, [c])) s.
Proof.
  induction s as [|c s IH]; [done|]. cbn [isASCII forallb].
  rewrite andb_true_iff. intros [Hc Hs].
  rewrite (runes_step _ (byteVal c) 1); [|done|].
  - cbn [take drop map]. f_equal. by apply IH.
  - rewrite Decode_spec. by rewrite Hc.
Qed.

(** The encoding of a rune that is no ASCII capital holds none. *)
Lemma EncodeRune_not_upper r :
  ~ (65 <= r <= 90)%Z -> Forall (fun c => isUpper c = false) (EncodeRune r).
Proof.
  intros Hr.
  assert (B : forall z, (0 <= z < 256)%Z -> ~ (65 <= z <= 90)%Z ->
              isUpper (byteOf z) = false).
  { intros z Hz Hn. unfold isUpper. rewrite nat_of_byteOf by done. cbv zeta.
    apply andb_false_iff. rewrite !Nat.leb_gt. lia. }
  unfold EncodeRune.
  destruct (ValidRune r) eqn:Ev; cbn [negb].
  - pose proof Ev as Ev'. revert Ev'. valid_range. intros [[H0 Hmax] Hsur].
    repeat match goal with
    | |- context [(?a <=? ?b)%Z] => destruct (Z.leb_spec a b); cbn [andb negb]
    end; repeat (apply List.Forall_cons || apply List.Forall_nil);
    apply B; euclid.
  - repeat match goal with
    | |- context [(?a <=? ?b)%Z] => destruct (Z.leb_spec a b); cbn [andb negb]
    end; repeat (apply List.Forall_cons || apply List.Forall_nil);
    apply B; euclid.
Qed.

(** An ASCII byte at the start of a string is its first rune. *)
Lemma runes_cons_ascii c s :
  (nat_of_ascii c < 128)%nat -> runes (c :: s) = (byteVal c, [c]) :: runes s.
Proof.
  intros Hc. apply (runes_step (c :: s) (byteVal c) 1); [done|].
  rewrite Decode_spec. apply Nat.ltb_lt in Hc. by rewrite Hc.
Qed.

(** An ASCII byte is no continuation byte. *)
Lemma inRange_ascii lo hi c :
  (128 <= lo)%nat -> (nat_of_ascii c < 128)%nat -> inRange lo hi c = false.
Proof.
  intros H Hc. unfold inRange. apply andb_false_iff. left.
  apply Nat.leb_gt. lia.
Qed.

Lemma first_lo c size lo hi :
  first c = Some (size, (lo, hi)) -> (128 <= lo)%nat.
Proof. unfold first. repeat case_match; intros [= <- <- <-]; lia. Qed.

Lemma conts_app_ascii size lo hi a c b :
  (128 <= lo)%nat -> (nat_of_ascii c < 128)%nat ->
  conts size lo hi (a ++ c :: b) = conts size lo hi a.
Proof.
  intros Hlo Hc.
  pose proof (inRange_ascii lo hi c Hlo Hc) as S1.
  pose proof (inRange_ascii 128 191 c (Nat.le_refl _) Hc) as S2.
  destruct size as [|[|[|[|[|?]]]]]; try done;
  destruct a as [|c1 [|c2 [|c3 a]]]; cbn [app conts];
    rewrite ?S1, ?S2, ?andb_false_r; try done.
  all: by destruct b as [|? [|? ?]].
Qed.

Lemma runeValue_app_any size c a b :
  (size <= S (length a))%nat -> runeValue size c (a ++ b) = runeValue size c a.
Proof.
  destruct size as [|[|[|[|[|?]]]]]; try done;
  destruct a as [|c1 [|c2 [|c3 a]]]; simpl; try done; try lia.
  all: by destruct b as [|? [|? [|? ?]]].
Qed.

Lemma conts_length size lo hi a :
  conts size lo hi a = true -> (size <= S (length a))%nat.
Proof.
  destruct size as [|[|[|[|[|?]]]]]; try done;
  destruct a as [|c1 [|c2 [|c3 a]]]; simpl; try done; lia.
Qed.

Lemma Decode_app_ascii a c b :
  a <> [] -> (nat_of_ascii c < 128)%nat ->
  DecodeRuneInString (a ++ c :: b) = DecodeRuneInString a.
Proof.
  destruct a as [|x a]; [done|]. intros _ Hc. cbn [app]. rewrite !Decode_spec.
  destruct (nat_of_ascii x <? 128)%nat; [done|].
  destruct (first x) as [[sz [lo hi]]|] eqn:Ef; [|done].
  rewrite (conts_app_ascii _ _ _ _ _ _ (first_lo _ _ _ _ Ef) Hc).
  destruct (conts sz lo hi a) eqn:Ea; [|done].
  by rewrite (runeValue_app_any _ _ _ _ (conts_length _ _ _ _ Ea)).
Qed.

(** An ASCII byte is a rune of its own wherever it stands. *)
Lemma runes_app_ascii (a : gostring) c b :
  (nat_of_ascii c < 128)%nat ->
  runes (a ++ c :: b) = runes a ++ (byteVal c, [c]) :: runes b.
Proof.
  intros Hc.
  induction a as [|a r size Ha E Hb IH] using runes_ind.
  - by apply runes_cons_ascii.
  - rewrite (runes_step a r size Ha E).
    rewrite (runes_step (a ++ c :: b) r size).
    + rewrite take_app_le, drop_app_le by lia. by rewrite IH.
    + by destruct a.
    + by rewrite Decode_app_ascii.
Qed.

Lemma runes_nonempty (s : gostring) : s <> [] -> runes s <> [].
Proof.
  intros Hs Hr. pose proof (runes_bytes s) as Hb. rewrite Hr in Hb.
  by symmetry in Hb.
Qed.

(** *** Lists without the elements of both ends *)

Section skip.
Context {A : Type} (p : A -> bool).

Lemma skipWhile_suffix l :
  exists l1, l = l1 ++ skipWhile p l /\ forallb p l1 = true.
Proof.
  induction l as [|x l [l1 [IH Hp]]]; [by exists []|].
  simpl. destruct (p x) eqn:E.
  - exists (x :: l1). simpl. rewrite E, Hp. split; [by f_equal|done].
  - by exists [].
Qed.

Lemma skipWhile_head l x : head (skipWhile p l) = Some x -> p x = false.
Proof.
  induction l as [|y l IH]; [done|]. simpl. destruct (p y) eqn:E; [done|].
  by intros [= <-].
Qed.

Lemma skipWhile_fixed l :
  (forall x, head l = Some x -> p x = false) -> skipWhile p l = l.
Proof. destruct l as [|x l]; [done|]. simpl. intros H. by rewrite H. Qed.

Lemma skipWhile_all l : forallb p l = true -> skipWhile p l = [].
Proof.
  induction l as [|x l IH]; [done|]. simpl. intros [-> ?]%andb_true_iff. auto.
Qed.

Lemma trimRight_prefix l :
  exists l2, l = rev (skipWhile p (rev l)) ++ l2 /\ forallb p l2 = true.
Proof.
  destruct (skipWhile_suffix (rev l)) as [l1 [H Hp]].
  exists (rev l1). split.
  - rewrite <- (rev_involutive l) at 1. rewrite H at 1. by rewrite rev_app_distr.
  - rewrite forallb_forall in *. intros x Hx. apply Hp. by apply in_rev.
Qed.

Lemma last_rev_head (l : list A) : last (rev l) = head l.
Proof. destruct l as [|x l]; [done|]. simpl. by rewrite last_snoc. Qed.

Lemma head_rev_last (l : list A) : head (rev l) = last l.
Proof. rewrite <- (rev_involutive l) at 2. by rewrite last_rev_head. Qed.

Lemma trimBoth_head l x : head (trimBoth p l) = Some x -> p x = false.
Proof.
  unfold trimBoth. rewrite head_rev_last.
  intros H.
  destruct (trimRight_prefix (skipWhile p l)) as [l2 [Hm Hp]].
  destruct (rev (skipWhile p (rev (skipWhile p l)))) as [|y t] eqn:Et.
  { rewrite <- (rev_involutive (skipWhile p (rev (skipWhile p l)))), Et in H.
    done. }
  assert (Hy : head (skipWhile p l) = Some y) by (rewrite Hm; done).
  assert (x = y).
  { rewrite <- head_rev_last, Et in H. simpl in H. congruence. }
  subst y. by apply (skipWhile_head l).
Qed.

Lemma trimBoth_last l x : last (trimBoth p l) = Some x -> p x = false.
Proof.
  unfold trimBoth. rewrite <- head_rev_last, rev_involutive.
  apply skipWhile_head.
Qed.

Lemma trimBoth_fixed l :
  (forall x, head l = Some x -> p x = false) ->
  (forall x, last l = Some x -> p x = false) ->
  trimBoth p l = l.
Proof.
  intros Hh Hl. unfold trimBoth. rewrite (skipWhile_fixed l) by done.
  rewrite skipWhile_fixed; [by rewrite rev_involutive|].
  intros x. rewrite head_rev_last. apply Hl.
Qed.

Lemma trimBoth_idem l : trimBoth p (trimBoth p l) = trimBoth p l.
Proof.
  apply trimBoth_fixed; intros x Hx;
    [exact (trimBoth_head l x Hx)|exact (trimBoth_last l x Hx)].
Qed.

Lemma trimBoth_all l : forallb p l = true -> trimBoth p l = [].
Proof. intros H. unfold trimBoth. rewrite (skipWhile_all l H). reflexivity. Qed.

End skip.

Lemma skipWhile_map {A B} (g : A -> B) (p : B -> bool) (q : A -> bool) l :
  (forall x, In x l -> p (g x) = q x) ->
  skipWhile p (map g l) = map g (skipWhile q l).
Proof.
  induction l as [|x l IH]; [done|]. intros H. simpl.
  rewrite H by (by left). destruct (q x); [|done].
  apply IH. intros. apply H. by right.
Qed.

Lemma trimBoth_map {A B} (g : A -> B) (p : B -> bool) (q : A -> bool) l :
  (forall x, In x l -> p (g x) = q x) ->
  trimBoth p (map g l) = map g (trimBoth q l).
Proof.
  intros H. unfold trimBoth.
  rewrite (skipWhile_map g p q) by done.
  rewrite <- map_rev, (skipWhile_map g p q), map_rev; [done|].
  intros x Hx. apply H. apply in_rev in Hx.
  destruct (skipWhile_suffix q l) as [l1 [Hl _]]. rewrite Hl.
  apply in_or_app. by right.
Qed.

(** *** [strings.TrimFunc] *)

Section trim.
Variable f : rune -> bool.

Lemma runes_TrimLeftFuncR s :
  runes (TrimLeftFuncR s f) = skipWhile (fun x : rune * gostring => f x.1) (runes s).
Proof.
  destruct (skipWhile_suffix (fun x : rune * gostring => f x.1) (runes s)) as [l1 [H _]].
  unfold TrimLeftFuncR. by apply (runes_suffix s l1).
Qed.

Lemma runes_TrimRightFuncR s :
  runes (TrimRightFuncR s f) = rev (skipWhile (fun x : rune * gostring => f x.1) (rev (runes s))).
Proof.
  destruct (trimRight_prefix (fun x : rune * gostring => f x.1) (runes s)) as [l2 [H _]].
  unfold TrimRightFuncR. by apply (runes_prefix s _ l2).
Qed.

Lemma TrimFunc_runes s : TrimFunc s f = bytesOf (trimBoth (fun x : rune * gostring => f x.1) (runes s)).
Proof.
  unfold TrimFunc. unfold TrimRightFuncR at 1. by rewrite runes_TrimLeftFuncR.
Qed.

Lemma runes_TrimFunc s : runes (TrimFunc s f) = trimBoth (fun x : rune * gostring => f x.1) (runes s).
Proof. unfold TrimFunc. by rewrite runes_TrimRightFuncR, runes_TrimLeftFuncR. Qed.

Lemma TrimFunc_idem s : TrimFunc (TrimFunc s f) f = TrimFunc s f.
Proof.
  rewrite (TrimFunc_runes (TrimFunc s f)), runes_TrimFunc, trimBoth_idem.
  by rewrite <- TrimFunc_runes.
Qed.

Lemma TrimFunc_all s :
  Forall (fun x => f x.1 = true) (runes s) -> TrimFunc s f = [].
Proof.
  intros H. rewrite TrimFunc_runes, trimBoth_all; [done|].
  apply forallb_forall. rewrite List.Forall_forall in H. exact H.
Qed.

Lemma TrimFunc_nil_iff s :
  TrimFunc s f = [] <-> Forall (fun x => f x.1 = true) (runes s).
Proof.
  split; [|apply TrimFunc_all].
  rewrite TrimFunc_runes. intros H.
  assert (Hn : trimBoth (fun x : rune * gostring => f x.1) (runes s) = []).
  { assert (Hr := runes_TrimFunc s). rewrite TrimFunc_runes, H in Hr.
    by rewrite <- Hr. }
  unfold trimBoth in Hn.
  destruct (skipWhile_suffix (fun x : rune * gostring => f x.1) (runes s)) as [l1 [H1 Hp1]].
  destruct (trimRight_prefix (fun x : rune * gostring => f x.1) (skipWhile (fun x : rune * gostring => f x.1) (runes s))) as [l2 [H2 Hp2]].
  rewrite Hn in H2. simpl in H2.
  apply List.Forall_forall. intros x Hx. rewrite H1 in Hx.
  apply in_app_or in Hx as [Hx|Hx].
  - rewrite forallb_forall in Hp1. by apply Hp1.
  - rewrite H2 in Hx. rewrite forallb_forall in Hp2. by apply Hp2.
Qed.

End trim.

(** *** [strings.TrimSpace] *)

Lemma TrimSpace_idem s : TrimSpace (TrimSpace s) = TrimSpace s.
Proof. apply TrimFunc_idem. Qed.

(** A string is trimmed to nothing exactly if it holds white space
    only. *)
Lemma TrimSpace_nil_iff s : TrimSpace s = [] <-> notions.onlyWhitespace s.
Proof. apply TrimFunc_nil_iff. Qed.

(** What [TrimSpace] leaves neither starts nor ends with white space. *)
Lemma TrimSpace_head s x :
  head (runes (TrimSpace s)) = Some x -> unicode.IsSpace x.1 = false.
Proof.
  unfold TrimSpace. rewrite runes_TrimFunc.
  apply (trimBoth_head (fun x => unicode.IsSpace x.1)).
Qed.

Lemma TrimSpace_last s x :
  last (runes (TrimSpace s)) = Some x -> unicode.IsSpace x.1 = false.
Proof.
  unfold TrimSpace. rewrite runes_TrimFunc.
  apply (trimBoth_last (fun x => unicode.IsSpace x.1)).
Qed.

(** *** [strings.ToLower] *)

Section lower.
Context {caseTable : unicode.CaseTable}.

Lemma ToLower_byte c :
  (nat_of_ascii c < 128)%nat ->
  EncodeRune (unicode.ToLower (byteVal c)) = [toLowerByte c].
Proof.
  intros Hc. unfold unicode.ToLower, toLowerByte, isUpper, byteVal.
  cbv zeta.
  destruct (Z.leb_spec (Z.of_nat (nat_of_ascii c)) 127); [|lia].
  destruct (Z.leb_spec 65 (Z.of_nat (nat_of_ascii c)));
  destruct (Z.leb_spec (Z.of_nat (nat_of_ascii c)) 90);
  destruct (Nat.leb_spec 65 (nat_of_ascii c));
  destruct (Nat.leb_spec (nat_of_ascii c) 90); try lia; cbn [andb];
  unfold EncodeRune;
  repeat match goal with
  | |- context [(?a <=? ?b)%Z] => destruct (Z.leb_spec a b); try lia
  end; cbn [andb]; unfold byteOf.
  - do 2 f_equal. lia.
  - by rewrite Nat2Z.id, ascii_nat_embedding.
  - by rewrite Nat2Z.id, ascii_nat_embedding.
Qed.

(** The fast path of [ToLower] for ASCII strings agrees with [Map]. *)
Lemma ToLower_Map s : ToLower s = Map unicode.ToLower s.
Proof.
  unfold ToLower. destruct (isASCII s) eqn:E; [|done].
  unfold Map. rewrite runes_ascii by done. rewrite map_map.
  induction s as [|c s IH]; [done|].
  cbn [isASCII forallb] in E. apply andb_true_iff in E as [Hc Hs].
  cbn [map concat]. rewrite <- IH by done. cbn [fst].
  apply Nat.ltb_lt in Hc. rewrite ToLower_byte by done.
  destruct (Z.ltb_spec (unicode.ToLower (byteVal c)) 0) as [Hn|]; [|done].
  exfalso. unfold unicode.ToLower, byteVal in Hn.
  repeat case_match; lia.
Qed.

Hypothesis laws : notions.lowerCaseLaws caseTable.

Lemma unicode_ToLower_valid r :
  ValidRune r = true -> ValidRune (unicode.ToLower r) = true.
Proof.
  intros Hv. unfold unicode.ToLower.
  destruct (Z.leb_spec r 127); [|by apply laws; [|lia]].
  revert Hv. valid_range. case_match; lia.
Qed.

Lemma unicode_ToLower_idem r :
  ValidRune r = true -> unicode.ToLower (unicode.ToLower r) = unicode.ToLower r.
Proof.
  intros Hv. unfold unicode.ToLower at 2 3.
  destruct (Z.leb_spec r 127); [|by apply laws; [|lia]].
  destruct (Z.leb_spec 65 r); destruct (Z.leb_spec r 90); cbn [andb];
    unfold unicode.ToLower;
    repeat match goal with
    | |- context [(?a <=? ?b)%Z] => destruct (Z.leb_spec a b); cbn [andb]; try lia
    end; done.
Qed.

Lemma unicode_ToLower_space r :
  ValidRune r = true -> unicode.IsSpace (unicode.ToLower r) = unicode.IsSpace r.
Proof.
  intros Hv. unfold unicode.ToLower.
  destruct (Z.leb_spec r 127); [|by apply laws; [|lia]].
  destruct (Z.leb_spec 65 r); destruct (Z.leb_spec r 90); cbn [andb]; try done.
  unfold unicode.IsSpace.
  repeat match goal with
  | |- context [(?a <=? ?b)%Z] => destruct (Z.leb_spec a b); cbn [andb orb]; try lia
  | |- context [(?a =? ?b)%Z] => destruct (Z.eqb_spec a b); cbn [andb orb]; try lia
  end; done.
Qed.

(** Lower case is never an ASCII capital. *)
Lemma unicode_ToLower_not_upper r :
  ValidRune r = true -> ~ (65 <= unicode.ToLower r <= 90)%Z.
Proof.
  intros Hv Hr. pose proof (unicode_ToLower_idem r Hv) as Hi.
  unfold unicode.ToLower at 1 in Hi.
  destruct (Z.leb_spec (unicode.ToLower r) 127); [|lia].
  destruct (Z.leb_spec 65 (unicode.ToLower r)); [|lia].
  destruct (Z.leb_spec (unicode.ToLower r) 90); [|lia].
  cbn [andb] in Hi. lia.
Qed.

Lemma lower_encode r :
  ValidRune r = true ->
  (let r' := unicode.ToLower r in
   if (r' <? 0)%Z then [] else EncodeRune r') = EncodeRune (unicode.ToLower r).
Proof.
  intros Hv. cbv zeta.
  pose proof (unicode_ToLower_valid r Hv) as H. revert H.
  unfold ValidRune. rewrite !andb_true_iff, Z.leb_le. intros [[H _] _].
  destruct (Z.ltb_spec (unicode.ToLower r) 0); [lia|done].
Qed.

(** The runes of a string in lower case. *)
Lemma runes_ToLower s :
  runes (ToLower s) =
  map (fun x => (unicode.ToLower x.1, EncodeRune (unicode.ToLower x.1)))
    (runes s).
Proof.
  rewrite ToLower_Map. unfold Map.
  transitivity
    (runes (concat (map EncodeRune
                      (map (fun x => unicode.ToLower x.1) (runes s))))).
  - f_equal. f_equal. rewrite map_map. apply map_ext_in.
    intros x Hx. apply lower_encode. by apply (runes_valid s).
  - rewrite runes_concat_encode, map_map; [done|].
    apply List.Forall_forall. intros r Hr.
    apply in_map_iff in Hr as (x&<-&Hx).
    apply unicode_ToLower_valid. by apply (runes_valid s).
Qed.

Lemma ToLower_bytes s :
  ToLower s =
  concat (map (fun x => EncodeRune (unicode.ToLower x.1)) (runes s)).
Proof.
  rewrite <- (runes_bytes (ToLower s)), runes_ToLower.
  unfold bytesOf. by rewrite map_map.
Qed.

Lemma ToLower_idem s : ToLower (ToLower s) = ToLower s.
Proof.
  rewrite (ToLower_bytes (ToLower s)), runes_ToLower, map_map.
  rewrite (ToLower_bytes s). f_equal. apply map_ext_in. intros x Hx. cbn [fst].
  rewrite unicode_ToLower_idem; [done|]. by apply (runes_valid s).
Qed.

Lemma ToLower_not_upper s : Forall (fun c => isUpper c = false) (ToLower s).
Proof.
  rewrite ToLower_bytes. apply List.Forall_forall. intros c Hc.
  apply in_concat in Hc as (l & Hl & Hc).
  apply in_map_iff in Hl as (x & <- & Hx).
  pose proof (EncodeRune_not_upper (unicode.ToLower x.1)
                (unicode_ToLower_not_upper _ (runes_valid s x Hx))) as F.
  rewrite List.Forall_forall in F. by apply F.
Qed.

(** Every rune of a string in lower case is its own lower case. *)
Lemma ToLower_fixed_runes s :
  ToLower s = s -> Forall (fun x => unicode.ToLower x.1 = x.1) (runes s).
Proof.
  intros H. apply List.Forall_forall. intros x Hx.
  rewrite <- H, runes_ToLower in Hx.
  apply in_map_iff in Hx as (y & <- & Hy). cbn [fst].
  apply unicode_ToLower_idem. by apply (runes_valid s).
Qed.

Lemma TrimSpace_ToLower s : TrimSpace (ToLower s) = ToLower (TrimSpace s).
Proof.
  unfold TrimSpace.
  rewrite TrimFunc_runes, runes_ToLower.
  rewrite (trimBoth_map _ _ (fun x => unicode.IsSpace x.1)).
  2:{ intros x Hx. cbn [fst]. apply unicode_ToLower_space.
      by apply (runes_valid s). }
  rewrite ToLower_bytes, runes_TrimFunc.
  unfold bytesOf. by rewrite map_map.
Qed.

End lower.

(** The sample of the case table has the properties of the table. *)
Lemma sampleCaseTable_laws : notions.lowerCaseLaws notions.sampleCaseTable.
Proof.
  intros r Hv Hr. unfold unicode.ToLower, unicode.toLowerCase, notions.sampleCaseTable.
  destruct (Z.eqb_spec r 220) as [->|]; [vm_compute; auto|].
  destruct (Z.eqb_spec r 8490) as [->|]; [vm_compute; auto|].
  split; [exact Hv|]. split; [|reflexivity].
  destruct (Z.leb_spec r 127); [lia|].
  destruct (Z.eqb_spec r 220); [lia|].
  destruct (Z.eqb_spec r 8490); [lia|reflexivity].
Qed.

End utf8_facts.

(** ** The highlighter *)

Module highlighter_facts.

Import strings strings_facts utf8 utf8_facts highlighter notions.

Section normalize.
Context {caseTable : unicode.CaseTable}.

Lemma isOneOf_true lang cases :
  isOneOf lang cases = true -> In lang (map str cases).
Proof.
  unfold isOneOf. rewrite existsb_exists. intros (c & Hin & Heq).
  apply bool_decide_eq_true in Heq. subst. apply in_map, Hin.
Qed.

Lemma normalizeSwitch_cases lang :
  normalizeSwitch lang = lang \/ In (normalizeSwitch lang) canonicalNames.
Proof.
  unfold normalizeSwitch.
  repeat match goal with
  | |- context [if isOneOf lang ?cs then _ else _] =>
      destruct (isOneOf lang cs) eqn:?;
      [ first [ right; vm_compute; tauto | left; reflexivity ] | ]
  end.
  left. reflexivity.
Qed.

Lemma canonicalNames_fixed :
  Forall (fun r => normalizeSwitch r = r /\ ToLower (TrimSpace r) = r)
    canonicalNames.
Proof.
  unfold canonicalNames. cbn [map].
  repeat (apply List.Forall_cons; [split; vm_compute; reflexivity|]).
  apply List.Forall_nil.
Qed.

Lemma normalizeSwitch_idem lang :
  normalizeSwitch (normalizeSwitch lang) = normalizeSwitch lang.
Proof.
  destruct (normalizeSwitch_cases lang) as [H|H].
  - rewrite H at 1. reflexivity.
  - pose proof canonicalNames_fixed as F. rewrite Forall_forall in F.
    apply F, list_elem_of_In, H.
Qed.

Lemma normalizeLanguage_switch s :
  normalizeLanguage s = normalizeSwitch (ToLower (TrimSpace s)).
Proof. destruct s; reflexivity. Qed.

Lemma normalizeSwitch_normalForm lang :
  normalForm lang -> normalForm (normalizeSwitch lang).
Proof.
  intros Hl. destruct (normalizeSwitch_cases lang) as [H|H].
  - rewrite H. exact Hl.
  - pose proof canonicalNames_fixed as F. rewrite Forall_forall in F.
    apply F, list_elem_of_In, H.
Qed.

Section with_laws.
Hypothesis laws : lowerCaseLaws caseTable.

Lemma normalForm_lower_trim s : normalForm (ToLower (TrimSpace s)).
Proof.
  unfold normalForm.
  rewrite (TrimSpace_ToLower laws), TrimSpace_idem, (ToLower_idem laws).
  reflexivity.
Qed.

Lemma normalizeLanguage_normalForm s : normalForm (normalizeLanguage s).
Proof.
  destruct s as [|c t]; [reflexivity|].
  apply normalizeSwitch_normalForm, normalForm_lower_trim.
Qed.

(** A name in normal form is in lower case and trimmed. *)
Lemma normalForm_fixed r :
  normalForm r -> ToLower r = r /\ TrimSpace r = r.
Proof.
  unfold normalForm. intros H. split.
  - rewrite <- H at 1. rewrite (ToLower_idem laws). exact H.
  - rewrite <- H at 1. rewrite <- (TrimSpace_ToLower laws), TrimSpace_idem.
    rewrite (TrimSpace_ToLower laws). exact H.
Qed.

End with_laws.

(** C10, as the code has it: [normalizeLanguage] is idempotent; its
    result is in lower case (lower-casing it again changes nothing,
    every rune of it is its own lower case, and it holds none of the
    bytes 'A'..'Z'); its result is trimmed (trimming it again changes
    nothing, and neither its first nor its last rune is white space);
    and the empty string maps to itself.  The table of Go's [unicode]
    package comes in through [lowerCaseLaws]. *)
Theorem normalizeLanguage_idempotent_lowercase (s : gostring) :
  lowerCaseLaws caseTable ->
  normalizeLanguage (normalizeLanguage s) = normalizeLanguage s
  /\ ToLower (normalizeLanguage s) = normalizeLanguage s
  /\ Forall (fun x => unicode.ToLower x.1 = x.1) (runes (normalizeLanguage s))
  /\ Forall (fun c => isUpper c = false) (normalizeLanguage s)
  /\ TrimSpace (normalizeLanguage s) = normalizeLanguage s
  /\ (forall x, head (runes (normalizeLanguage s)) = Some x ->
        unicode.IsSpace x.1 = false)
  /\ (forall x, last (runes (normalizeLanguage s)) = Some x ->
        unicode.IsSpace x.1 = false)
  /\ normalizeLanguage [] = [].
Proof.
  intros laws.
  pose proof (normalizeLanguage_normalForm laws s) as Hn.
  destruct (normalForm_fixed laws _ Hn) as [Hl Ht].
  split; [|split; [|split; [|split; [|split; [|split; [|split]]]]]].
  - unfold normalForm in Hn.
    rewrite (normalizeLanguage_switch (normalizeLanguage s)), Hn.
    rewrite (normalizeLanguage_switch s). apply normalizeSwitch_idem.
  - exact Hl.
  - apply (ToLower_fixed_runes laws), Hl.
  - rewrite <- Hl. apply (ToLower_not_upper laws).
  - exact Ht.
  - intros x. rewrite <- Ht. apply TrimSpace_head.
  - intros x. rewrite <- Ht. apply TrimSpace_last.
  - reflexivity.
Qed.

End normalize.

Lemma normalizeLanguage_idempotent_lowercase_witness :
  let s := str " " ++ [byteOf 195; byteOf 156] ++ str "Go " in
  lowerCaseLaws sampleCaseTable
  /\ normalizeLanguage (caseTable := sampleCaseTable) s
     = [byteOf 195; byteOf 188] ++ str "go"
  /\ normalizeLanguage (caseTable := sampleCaseTable)
       (normalizeLanguage (caseTable := sampleCaseTable) s)
     = normalizeLanguage (caseTable := sampleCaseTable) s.
Proof.
  split; [exact sampleCaseTable_laws|]. split; [vm_compute; reflexivity|].
  apply (normalizeLanguage_idempotent_lowercase (caseTable := sampleCaseTable)
           (str " " ++ [byteOf 195; byteOf 156] ++ str "Go ")
           sampleCaseTable_laws).
Defined.

(** The claim C10 fails on a capital letter that has no lower case: the
    double-struck capital C (U+2102, the bytes E2 84 82) is an
    upper-case letter for [unicode.IsUpper], [unicode.ToLower] returns
    it as it is, and so does [normalizeLanguage]. *)
Lemma capital_without_lower_case :
  let s := [byteOf 226; byteOf 132; byteOf 130] in
  runes s = [(8450%Z, s)]
  /\ unicode.IsUpper (caseTable := sampleCaseTable) 8450%Z = true
  /\ unicode.ToLower (caseTable := sampleCaseTable) 8450%Z = 8450%Z
  /\ normalizeLanguage (caseTable := sampleCaseTable) s = s
  /\ Exists (fun x => unicode.IsUpper (caseTable := sampleCaseTable) x.1 = true)
       (runes (normalizeLanguage (caseTable := sampleCaseTable) s)).
Proof.
  split; [vm_compute; reflexivity|]. split; [reflexivity|].
  split; [reflexivity|]. split; [vm_compute; reflexivity|].
  vm_compute. apply List.Exists_cons_hd. reflexivity.
Qed.

Section highlight.
Context {caseTable : unicode.CaseTable}.

(** C9: on a code string of white space only (every rune of it is white
    space for [unicode.IsSpace]; the empty string is one), [Highlight]
    returns the code as it is, without an error, whatever the language
    hint is. *)
Theorem Highlight_whitespace_unchanged
    (h : Highlighter) (code language : gostring) :
  onlyWhitespace code ->
  Highlight h code language = (code, None).
Proof.
  intros H. apply TrimSpace_nil_iff in H. unfold Highlight. rewrite H. reflexivity.
Qed.

(** [Highlight] never returns an error: when chroma fails, the code
    comes back in the plain code style. *)
Lemma Highlight_no_error h code language :
  snd (Highlight h code language) = None.
Proof.
  unfold Highlight. destruct (TrimSpace code); [reflexivity|].
  destruct (chromaHighlight _ _ _) as [hl [e|]]; reflexivity.
Qed.

Lemma Highlight_fallback h code language hl e :
  TrimSpace code <> [] ->
  chromaHighlight (chromaHelper h) code (normalizeLanguage language) = (hl, Some e) ->
  Highlight h code language = (theme.Style (themeManager h) code theme.Code, None).
Proof.
  intros Hne Hc. unfold Highlight. destruct (TrimSpace code); [contradiction|].
  rewrite Hc. reflexivity.
Qed.

End highlight.

Lemma Highlight_whitespace_unchanged_witness :
  let h := darkHighlighter {| chromaHighlight := fun _ _ => ([], Some (str "no lexer")) |} in
  let code := [byteOf 194; byteOf 160; byteOf 226; byteOf 128; byteOf 131; LF] in
  onlyWhitespace code
  /\ Highlight (caseTable := sampleCaseTable) h code (str "go") = (code, None).
Proof.
  assert (W : onlyWhitespace
                [byteOf 194; byteOf 160; byteOf 226; byteOf 128; byteOf 131; LF])
    by (vm_compute; repeat constructor).
  split; [exact W|].
  apply (Highlight_whitespace_unchanged (caseTable := sampleCaseTable) _
           [byteOf 194; byteOf 160; byteOf 226; byteOf 128; byteOf 131; LF]
           (str "go") W).
Defined.

End highlighter_facts.

(** ** The renderer *)

Module renderer_facts.

Import strings strings_facts ast renderer notions postprocess.

Section Output.

Variable tr : terminalRenderer.

(** A render function returns without error, unless it panics. *)
Lemma Repeat_cases s count :
  Repeat s count = Panic \/ exists r, Repeat s count = Ret r.
Proof. unfold Repeat. destruct (count <? 0)%Z; eauto. Qed.

Lemma Indent_one text :
  Indent text 1 =
  Ret (Join (map (fun line => match TrimSpace line with
                              | [] => line
                              | _ => str "  " ++ line
                              end) (Split text LF)) [LF]).
Proof. reflexivity. Qed.

Lemma renderNode_no_error n entering :
  renderNode tr n entering = Panic
  \/ exists out, renderNode tr n entering = Ret (out, None).
Proof.
  unfold renderNode, renderDocument, renderHeading, renderParagraph, renderText,
    renderEmphasis, renderCodeSpan, renderFencedCodeBlock, renderCodeBlock,
    renderBlockquote, renderList, renderListItem, renderLink, renderAutoLink,
    renderRawHTML, renderThematicBreak, renderHTMLBlock, renderTable,
    renderTableHeader, renderTableRow, renderTableCell, renderStrikethrough,
    renderTaskCheckBox, ok.
  repeat case_match; rewrite ?Indent_one; simpl; eauto;
    match goal with
    | |- context [Repeat ?s ?c] => destruct (Repeat_cases s c) as [->|[? ->]]; simpl; eauto
    end.
Qed.


Lemma walker_output n entering w :
  walker tr n entering w =
  r ← renderNode tr n entering; Ret (WalkContinue, None, w ++ r.1).
Proof.
  unfold walker. destruct (renderNode_no_error n entering) as [->|[out ->]];
    reflexivity.
Qed.

Lemma walkChildren_output walkChild outputChild cs :
  Forall (fun c => forall prev next w,
            walkChild prev next c w =
            out ← outputChild prev next c; Ret (WalkContinue, None, w ++ out)) cs ->
  forall first w,
    walkChildren walkChild first cs w =
    out ← outputChildren outputChild first cs; Ret (WalkContinue, None, w ++ out).
Proof.
  induction 1 as [|c rest Hc _ IH]; intros first w; simpl.
  - rewrite app_nil_r. reflexivity.
  - rewrite Hc. destruct (outputChild _ _ c) as [o|]; simpl; [|reflexivity].
    rewrite IH. destruct (outputChildren outputChild false rest) as [os|]; simpl;
      [|reflexivity].
    rewrite app_assoc. reflexivity.
Qed.

Lemma walkHelper_output n : forall parents prev next w,
  walkHelper (walker tr) parents prev next n w =
  out ← output tr parents prev next n; Ret (WalkContinue, None, w ++ out).
Proof.
  induction n as [k cs IH] using Node_forall_ind. intros parents prev next w.
  simpl. rewrite walker_output.
  destruct (renderNode tr _ true) as [[o1 e1]|]; simpl; [|reflexivity].
  rewrite (walkChildren_output _ (output tr (k :: parents))).
  2:{ eapply Forall_impl; [exact IH|]. intros c Hc p nx w'. apply Hc. }
  destruct (outputChildren _ true cs) as [inner|]; simpl; [|reflexivity].
  rewrite walker_output.
  destruct (renderNode tr _ false) as [[o2 e2]|]; simpl; [|reflexivity].
  rewrite <- !app_assoc. reflexivity.
Qed.

Lemma render_output doc w :
  render tr w doc = out ← output tr [] false false doc; Ret (None, w ++ out).
Proof.
  unfold render, Walk. rewrite walkHelper_output.
  destruct (output tr [] false false doc); reflexivity.
Qed.

Lemma filter_isList_length parents :
  existsb isList parents = true ->
  (Z.of_nat (length (filter isList parents)) - 1 <? 0)%Z = false.
Proof.
  intros H. apply Z.ltb_ge. induction parents as [|k ps IH]; [discriminate|].
  simpl in *. destruct (isList k) eqn:E.
  - rewrite filter_cons. destruct (decide (isList k)) as [|Hn]; [simpl; lia|].
    rewrite E in Hn. exfalso. apply Hn. exact I.
  - rewrite filter_cons. destruct (decide (isList k)) as [Hn|]; [|apply IH, H].
    rewrite E in Hn. destruct Hn.
Qed.

Lemma renderNode_wellFormed n entering :
  nodeOK (ancestors n) (Kind (node n)) = true ->
  exists out, renderNode tr n entering = Ret (out, None).
Proof.
  intros Hok. destruct (renderNode_no_error n entering) as [Hp|H]; [|exact H].
  exfalso. revert Hp Hok.
  unfold renderNode, nodeOK, renderDocument, renderHeading, renderParagraph, renderText,
    renderEmphasis, renderCodeSpan, renderFencedCodeBlock, renderCodeBlock,
    renderBlockquote, renderList, renderListItem, renderLink, renderAutoLink,
    renderRawHTML, renderThematicBreak, renderHTMLBlock, renderTable,
    renderTableHeader, renderTableRow, renderTableCell, renderStrikethrough,
    renderTaskCheckBox, ok, Parent.
  destruct (Kind (node n)); repeat case_match; rewrite ?Indent_one; simpl;
    try discriminate; intros Hp Hr.
  all: try (unfold Repeat in Hp; rewrite filter_isList_length in Hp by exact Hr;
            discriminate Hp).
Qed.



Lemma outputChildren_wellFormed outputChild parents cs :
  Forall (fun c => forall prev next,
            wellFormed parents c = true ->
            exists out, outputChild prev next c = Ret out) cs ->
  forallb (wellFormed parents) cs = true ->
  forall first, exists out, outputChildren outputChild first cs = Ret out.
Proof.
  induction 1 as [|c rest Hc _ IH]; simpl; intros Hwf first; [eauto|].
  apply andb_true_iff in Hwf. destruct Hwf as [Hwc Hwr].
  destruct (Hc (negb first) (match rest with [] => false | _ => true end) Hwc)
    as [o ->].
  destruct (IH Hwr false) as [os ->]. simpl. eauto.
Qed.

Lemma output_wellFormed n : forall parents prev next,
  wellFormed parents n = true ->
  exists out, output tr parents prev next n = Ret out.
Proof.
  induction n as [k cs IH] using Node_forall_ind. intros parents prev next Hwf.
  simpl in Hwf. apply andb_true_iff in Hwf. destruct Hwf as [Hk Hcs].
  simpl.
  edestruct (renderNode_wellFormed
    {| node := mkNode k cs; ancestors := parents;
       hasPreviousSibling := prev; hasNextSibling := next |} true) as [o1 ->];
    [exact Hk|].
  edestruct (renderNode_wellFormed
    {| node := mkNode k cs; ancestors := parents;
       hasPreviousSibling := prev; hasNextSibling := next |} false) as [o2 ->];
    [exact Hk|].
  destruct (outputChildren_wellFormed (output tr (k :: parents)) (k :: parents) cs)
    with (first := true) as [inner ->]; [|exact Hcs|simpl; eauto].
  eapply Forall_impl; [exact IH|]. intros c Hc p nx Hw. apply Hc, Hw.
Qed.

End Output.

(** [RenderContent] post-processes what the walk of the document wrote. *)
Lemma RenderContent_output r doc hl :
  RenderContent r doc hl =
  out ← output {| themeManager := rThemeManager r; highlighter := hl |}
        [] false false doc;
  Ret (EnsureTrailingNewline (TrimTrailingWhitespace (Bytes (rThemeManager r) out)),
       None).
Proof.
  unfold RenderContent. rewrite render_output.
  destruct (output _ [] false false doc); reflexivity.
Qed.

(** C2: the string that [RenderContent] returns for a document has no
    space or tab at the end of any line and ends with exactly one newline,
    whatever the walk wrote to the buffer; no error is returned, whatever
    the highlighter is. The empty document renders to the single
    newline. *)
Theorem RenderContent_normalized
    (r : Renderer) (hl : CodeHighlighter) (doc : Node) :
  wellFormed [] doc = true ->
  (exists s, RenderContent r doc hl = Ret (s, None)
             /\ linesTrimmed s /\ oneTrailingNewline s)
  /\ RenderContent r (mkNode Document []) hl = Ret ([LF], None).
Proof.
  intros Hwf. split; [|reflexivity].
  rewrite RenderContent_output.
  destruct (output_wellFormed
              {| themeManager := rThemeManager r; highlighter := hl |}
              doc [] false false Hwf) as [out ->].
  simpl. eexists. split; [reflexivity|]. split.
  - apply postProcess_lines.
  - apply postProcess_one.
Qed.

Lemma RenderContent_normalized_witness :
  wellFormed [] listAB = true
  /\ (exists s, RenderContent darkRenderer listAB failingHighlighter = Ret (s, None)
                /\ linesTrimmed s /\ oneTrailingNewline s)
  /\ RenderContent darkRenderer (mkNode Document []) failingHighlighter
     = Ret ([LF], None).
Proof.
  split; [reflexivity|].
  apply (RenderContent_normalized darkRenderer failingHighlighter listAB).
  reflexivity.
Defined.

(** Whatever [RenderContent] returns is normalized, on every tree. *)
Lemma RenderContent_returns_normalized r hl doc s err :
  RenderContent r doc hl = Ret (s, err) ->
  err = None /\ linesTrimmed s /\ oneTrailingNewline s.
Proof.
  rewrite RenderContent_output.
  destruct (output _ [] false false doc) as [out|]; simpl; [|discriminate].
  intros [= <- <-]. split; [reflexivity|]. split.
  - apply postProcess_lines.
  - apply postProcess_one.
Qed.

(** *** Fenced code blocks *)

Section fenced.
Context {caseTable : unicode.CaseTable}.

(** C3: rendering a fenced code block returns no error, whatever the code
    and the language hint are: when [Highlight] fails, the raw text of the
    block is written in the plain [Code] style (with the trailing newlines
    cut and the indentation of every code block) and the error is dropped.
    The highlighter of this repository does not return an error in the
    first place. *)
Theorem renderFencedCodeBlock_never_fails
    (tr : terminalRenderer) (n : Cursor) (Info : option gostring)
    (Lines : list gostring) (entering : bool) :
  (exists out, renderFencedCodeBlock tr n Info Lines entering = Ret (out, None))
  /\ (forall highlighted e,
        Highlight (highlighter tr) (concat Lines)
          (match Info with Some info => info | None => [] end)
        = (highlighted, Some e) ->
        exists indented,
          Indent (TrimRight (theme.Style (themeManager tr) (concat Lines) theme.Code)
                    [LF]) 1 = Ret indented
          /\ renderFencedCodeBlock tr n Info Lines true
             = Ret ([Lit [LF]; Lit indented; Lit [LF; LF]], None))
  /\ (forall h code language,
        snd (Highlight (ofHighlighter h) code language) = None).
Proof.
  split; [|split].
  - unfold renderFencedCodeBlock. destruct entering; [|unfold ok; eauto].
    destruct (Highlight _ _ _) as [hl err]. rewrite Indent_one. simpl.
    unfold ok. eauto.
  - intros hl e He. rewrite Indent_one. eexists. split; [reflexivity|].
    unfold renderFencedCodeBlock. rewrite He, Indent_one. reflexivity.
  - intros h code language. apply highlighter_facts.Highlight_no_error.
Qed.

End fenced.

Lemma renderFencedCodeBlock_never_fails_witness :
  Highlight (highlighter darkTerminal) (concat [str "x=1"]) (str "nolang")
  = ([], Some (str "no suitable lexer found for language: nolang"))
  /\ exists indented,
       Indent (TrimRight (theme.Style darkTheme (concat [str "x=1"]) theme.Code)
                 [LF]) 1 = Ret indented
       /\ renderFencedCodeBlock darkTerminal bulletItem (Some (str "nolang"))
            [str "x=1"] true
          = Ret ([Lit [LF]; Lit indented; Lit [LF; LF]], None).
Proof.
  split; [reflexivity|].
  apply (proj1 (proj2 (renderFencedCodeBlock_never_fails
                         (caseTable := sampleCaseTable) darkTerminal bulletItem
                         (Some (str "nolang")) [str "x=1"] true))
           [] (str "no suitable lexer found for language: nolang")).
  reflexivity.
Defined.

(** *** Headings *)

(** C5: entering a heading writes a newline first exactly when the
    heading has a previous sibling, then the prefix of its level in the
    style role of its level; the levels 1 to 6 have the six roles
    [Header1] to [Header6], which differ from each other, and a level
    above 6 has the role and the prefix of level 6. Leaving the heading
    writes the reset sequence and one newline. *)
Theorem renderHeading_levels (n : Cursor) (Level : Z) :
  renderHeading n Level true
  = Ret ((if hasPreviousSibling n then [Lit [LF]] else [])
         ++ [Color (headingStyle Level).1; Lit (headingStyle Level).2], None)
  /\ map headingStyle [1; 2; 3; 4; 5; 6]%Z
     = [ (theme.Header1, str "# "); (theme.Header2, str "## ");
         (theme.Header3, str "### "); (theme.Header4, str "#### ");
         (theme.Header5, str "##### "); (theme.Header6, str "###### ") ]
  /\ NoDup [ theme.Header1; theme.Header2; theme.Header3;
             theme.Header4; theme.Header5; theme.Header6 ]
  /\ ((6 < Level)%Z -> headingStyle Level = headingStyle 6)
  /\ renderHeading n Level false = Ret ([Color theme.Reset; Lit [LF]], None).
Proof.
  repeat split.
  - unfold renderHeading. destruct (headingStyle Level). reflexivity.
  - apply (bool_decide_unpack _). vm_compute. exact I.
  - intros H. unfold headingStyle.
    destruct Level as [|p|p]; try lia.
    do 3 (destruct p as [p|p|]; try lia; try reflexivity).
Qed.

Lemma renderHeading_levels_witness :
  (6 < 9)%Z /\ headingStyle 9 = headingStyle 6.
Proof.
  split; [lia|].
  apply (proj1 (proj2 (proj2 (proj2 (renderHeading_levels bulletItem 9))))).
  lia.
Defined.

(** The six heading roles resolve to six different escape sequences in
    both colour schemes. *)
Lemma heading_sequences_distinct bg :
  NoDup (map (theme.GetColor (theme.NewWithBackground bg))
           [ theme.Header1; theme.Header2; theme.Header3;
             theme.Header4; theme.Header5; theme.Header6 ]).
Proof. destruct bg; apply (bool_decide_unpack _); vm_compute; exact I. Qed.


(** *** List items *)

(** C4, as the code has it: entering a list item below [d] lists, [d]
    at least 1, writes a no-break space (U+00A0), then [d - 1] times two
    spaces, then the marker in its style ("1." when the parent is an
    ordered list, the bullet otherwise), then one space; leaving it
    writes a newline. An item of an unordered list at depth 1 starts
    with the no-break space and the styled bullet, without indentation. *)
Theorem renderListItem_marker (tm : theme.ThemeManager) (n : Cursor) :
  (1 <= length (filter isList (ancestors n)))%nat ->
  renderListItem n true
  = Ret ([ Lit NBSP;
           Lit (concat (repeat (str "  ")
                          (length (filter isList (ancestors n)) - 1))) ]
         ++ match Parent n with
            | Some (List true) => Style (str "1.") theme.OrderedList
            | _ => Style (str "•") theme.BulletPoint
            end
         ++ [Lit [SP]], None)
  /\ renderListItem n false = Ret ([Lit [LF]], None)
  /\ (length (filter isList (ancestors n)) = 1%nat ->
      Parent n = Some (List false) ->
      exists out, renderListItem n true = Ret (out, None)
        /\ Bytes tm out
           = NBSP ++ theme.Style tm (str "•") theme.BulletPoint ++ [SP]).
Proof.
  intros Hd.
  assert (E : renderListItem n true
    = Ret ([ Lit NBSP;
             Lit (concat (repeat (str "  ")
                            (length (filter isList (ancestors n)) - 1))) ]
           ++ match Parent n with
              | Some (List true) => Style (str "1.") theme.OrderedList
              | _ => Style (str "•") theme.BulletPoint
              end
           ++ [Lit [SP]], None)).
  { unfold renderListItem, Repeat.
    replace (Z.of_nat (length (filter isList (ancestors n))) - 1)%Z
      with (Z.of_nat (length (filter isList (ancestors n)) - 1)) by lia.
    destruct (Z.ltb_spec (Z.of_nat (length (filter isList (ancestors n)) - 1)) 0);
      [lia|].
    rewrite Nat2Z.id. simpl.
    destruct (Parent n) as [[]|]; reflexivity. }
  split; [exact E|]. split; [reflexivity|].
  intros H1 Hp. eexists. split; [exact E|].
  rewrite H1, Hp. unfold Bytes, theme.Style. simpl.
  rewrite ?app_nil_r, <- ?app_assoc. reflexivity.
Qed.

Lemma renderListItem_marker_witness :
  (1 <= length (filter isList (ancestors bulletItem)))%nat
  /\ renderListItem bulletItem false = Ret ([Lit [LF]], None).
Proof.
  assert (H : (1 <= length (filter isList (ancestors bulletItem)))%nat)
    by (vm_compute; lia).
  split; [exact H|].
  exact (proj1 (proj2 (renderListItem_marker darkTheme bulletItem H))).
Defined.

(** C4 as it is stated does not hold: the item of an unordered list at
    depth 1 does not start with its marker, a no-break space comes
    first. *)
Lemma renderListItem_counterexample :
  exists out, renderListItem bulletItem true = Ret (out, None)
    /\ Bytes darkTheme out
       <> concat (repeat (str "  ") (1 - 1))
          ++ theme.Style darkTheme (str "•") theme.BulletPoint ++ [SP].
Proof.
  eexists. split; [reflexivity|]. vm_compute. discriminate.
Qed.

(** *** Tables *)

(** What leaving a header row would write if [renderTableRow] were
    called on it: the reset and the newline of every row, then the
    separator line. *)
Lemma renderTableRow_separator parents prev next :
  renderTableRow
    {| node := mkNode (Extension "TableHeader") [cell "A"; cell "B"];
       ancestors := parents; hasPreviousSibling := prev; hasNextSibling := next |}
    false
  = Ret ([ Color theme.Reset; Lit [LF]; Color theme.TableBorder;
           Lit (str "├"); Lit (concat (repeat (str "─") 15)); Lit (str "┼");
           Lit (str "├"); Lit (concat (repeat (str "─") 15));
           Lit (str "┤"); Color theme.Reset; Lit [LF] ], None).
Proof. reflexivity. Qed.

(** C1 on the code: [renderNode] sends a node of kind "TableHeader" to
    [renderTableHeader], which writes nothing, so neither the border nor
    the newline nor the separator line of a header row is written. The
    table with the header "A | B" and the row "1 | 2" renders without any
    separator glyph, its two rows on one line. *)
Theorem table_header_separator_missing :
  (forall tr parents prev next cells entering,
      renderNode tr
        {| node := mkNode (Extension "TableHeader") cells; ancestors := parents;
           hasPreviousSibling := prev; hasNextSibling := next |} entering
      = Ret ([], None))
  /\ exists s,
       RenderContent darkRenderer tableAB failingHighlighter = Ret (s, None)
       /\ Contains s (str "├") = false
       /\ Contains s (str "┼") = false
       /\ Contains s (str "┤") = false
       /\ length (Split s LF) = 3%nat.
Proof.
  split; [reflexivity|].
  eexists. split; [vm_compute; reflexivity|].
  repeat split; vm_compute; reflexivity.
Qed.


(** *** Styles are reset when a node is left *)

Lemma styleAfter_lits out : onlyText out -> styleAfter out = None.
Proof.
  unfold styleAfter, onlyText. intros H. generalize (@None theme.ColorKey).
  induction H as [|e out He _ IH]; intros st; [reflexivity|].
  simpl. destruct e; [apply IH|destruct He].
Qed.

Lemma concat_imap_lits {A} (f : nat -> A -> Buffer) (l : list A) :
  (forall i x, onlyText (f i x)) -> onlyText (concat (imap f l)).
Proof.
  unfold onlyText. revert f. induction l as [|x l IH]; intros f Hf; simpl; [constructor|].
  apply Forall_app. split; [apply Hf|]. apply IH. intros i y. apply Hf.
Qed.

Lemma renderText_unstyled n v raw hard soft entering out err :
  renderText n v raw hard soft entering = Ret (out, err) -> styleAfter out = None.
Proof.
  unfold renderText, ok. intros H. apply styleAfter_lits.
  repeat case_match; simplify_eq; try (repeat constructor; fail).
  all: apply concat_imap_lits; intros i x; repeat case_match; repeat constructor.
Qed.

(** A reset clears what was applied before it. *)
Lemma styleAfter_reset a pre post :
  onlyText pre -> styleAfter (a ++ pre ++ Color theme.Reset :: post) = styleAfter post.
Proof.
  intros Hpre. unfold styleAfter. rewrite !fold_left_app. cbn [fold_left].
  reflexivity.
Qed.

(** Whenever entering a node leaves a style applied, leaving the node
    writes the reset sequence, and no other escape sequence before it;
    what a table cell writes after it leaves the border style applied,
    what the other nodes write after it applies no style. *)
Lemma renderNode_style_reset tr n en :
  renderNode tr n true = Ret (en, None) ->
  styleAfter en <> None ->
  exists pre post,
    renderNode tr n false = Ret (pre ++ Color theme.Reset :: post, None)
    /\ onlyText pre
    /\ styleAfter post
       = if isTableCell (Kind (node n)) then Some theme.TableBorder else None.
Proof.
  unfold renderNode, isTableCell. intros Hen Hst.
  destruct (Kind (node n)) eqn:K.
  4:{ exfalso. apply Hst. eapply renderText_unstyled, Hen. }
  all: revert Hen; unfold renderDocument, renderHeading, renderParagraph,
    renderEmphasis, renderCodeSpan, renderFencedCodeBlock, renderCodeBlock,
    renderBlockquote, renderList, renderListItem, renderLink, renderAutoLink,
    renderRawHTML, renderThematicBreak, renderHTMLBlock, renderTable,
    renderTableHeader, renderTableRow, renderTableCell, renderStrikethrough,
    renderTaskCheckBox, ok, Parent, Repeat; rewrite ?Indent_one.
  all: repeat case_match; simpl; intros Hen; simplify_eq.
  all: try (exfalso; apply Hst; reflexivity).
  all: repeat match goal with
       | H : String.eqb _ _ = true |- _ => apply String.eqb_eq in H; subst
       end; try discriminate.
  all: try match goal with
       | H : KindString (Kind _) = _, K' : Kind _ = _ |- _ =>
           rewrite K' in H; discriminate H
       end.
  all: first
    [ eexists [], _; split; [reflexivity|split; [constructor|reflexivity]]
    | eexists [_], _; split; [reflexivity|split; [repeat constructor|reflexivity]] ].
Qed.

(** Leaving a table cell writes the border after the reset: the border
    style stays applied until the row is left. *)
Lemma renderTableCell_exit_border n parent out :
  Parent n = Some parent ->
  renderTableCell n false = Ret (out, None) ->
  styleAfter out = Some theme.TableBorder.
Proof.
  unfold renderTableCell. intros ->. simpl.
  destruct (String.eqb (KindString parent) "TableHeader"); intros [= <-]; reflexivity.
Qed.

(** The nodes that apply a style on entering: headings, emphasis,
    strikethrough, links, block quotes, table rows and the cells of a
    header row. *)
Lemma styled_enter_events tr n :
  (exists l, Kind (node n) = Heading l)
  \/ (exists l, Kind (node n) = Emphasis l)
  \/ Kind (node n) = Extension "Strikethrough"
  \/ (exists d, Kind (node n) = Link d)
  \/ Kind (node n) = Blockquote
  \/ Kind (node n) = Extension "TableRow"
  \/ (Kind (node n) = Extension "TableCell"
      /\ Parent n = Some (Extension "TableHeader")) ->
  exists en, renderNode tr n true = Ret (en, None) /\ styleAfter en <> None.
Proof.
  unfold renderNode.
  intros [[l ->]|[[l ->]|[->|[[d ->]|[->|[->|[-> Hp]]]]]]]; simpl.
  - unfold renderHeading. destruct (headingStyle l) as [k p] eqn:E.
    eexists. split; [reflexivity|].
    unfold headingStyle in E.
    destruct (hasPreviousSibling n); repeat case_match; simplify_eq; discriminate.
  - unfold renderEmphasis. destruct (l =? 2)%Z; eexists; (split; [reflexivity|discriminate]).
  - eexists. split; [reflexivity|discriminate].
  - eexists. split; [reflexivity|discriminate].
  - eexists. split; [reflexivity|discriminate].
  - eexists. split; [reflexivity|discriminate].
  - unfold renderTableCell. rewrite Hp. eexists. split; [reflexivity|discriminate].
Qed.

(** C6, as the code has it: when entering a node applies a style (as
    headings, emphasis, strikethrough, links, block quotes, table rows
    and header cells do), leaving that node writes the reset sequence,
    before any other escape sequence, and in the walk of a list of
    siblings this is written before anything of the siblings that
    follow.  When the node has been left, no style is applied, whatever
    was written before the node, unless the node is a table cell: a cell
    writes its border after the reset, and the border style is applied
    when the cell has been left. *)
Theorem balanced_styling
    (tr : terminalRenderer) (parents : list NodeKind) (first : bool)
    (c : Node) (rest : list Node) (w w' : Buffer) (en : Buffer)
    (st : WalkStatus) (err : option error) :
  renderNode tr
    {| node := c; ancestors := parents; hasPreviousSibling := negb first;
       hasNextSibling := match rest with [] => false | _ => true end |} true
  = Ret (en, None) ->
  styleAfter en <> None ->
  walkChildren (walkHelper (walker tr) parents) first (c :: rest) w
  = Ret (st, err, w') ->
  exists inner pre post after,
    renderNode tr
      {| node := c; ancestors := parents; hasPreviousSibling := negb first;
         hasNextSibling := match rest with [] => false | _ => true end |} false
    = Ret (pre ++ Color theme.Reset :: post, None)
    /\ onlyText pre
    /\ w' = w ++ en ++ inner ++ (pre ++ Color theme.Reset :: post) ++ after
    /\ walkChildren (walkHelper (walker tr) parents) false rest
         (w ++ en ++ inner ++ (pre ++ Color theme.Reset :: post))
       = Ret (st, err, w')
    /\ styleAfter (w ++ en ++ inner ++ (pre ++ Color theme.Reset :: post))
       = if isTableCell (Kind c) then Some theme.TableBorder else None.
Proof.
  intros Hen Hst Hw.
  destruct (renderNode_style_reset tr _ en Hen Hst)
    as (pre & post & Hex & Hpre & Hpost).
  assert (Hall : forall cs, Forall (fun c => forall prev next w,
            walkHelper (walker tr) parents prev next c w =
            out ← output tr parents prev next c;
            Ret (WalkContinue, None, w ++ out)) cs).
  { intros cs. apply Forall_forall. intros x _ p nx w0. apply walkHelper_output. }
  rewrite (walkChildren_output _ (output tr parents) _ (Hall _)) in Hw.
  simpl in Hw. destruct c as [k cs]. simpl in Hw.
  rewrite Hen, Hex in Hw. simpl in Hw.
  destruct (outputChildren (output tr (k :: parents)) true cs) as [inner|];
    [|discriminate Hw].
  simpl in Hw.
  destruct (outputChildren (output tr parents) false rest) as [after|] eqn:Hrest;
    [|discriminate Hw].
  simpl in Hw. injection Hw as <- <- <-.
  exists inner, pre, post, after.
  split; [exact Hex|]. split; [exact Hpre|]. split; [|split].
  - rewrite <- !app_assoc. reflexivity.
  - rewrite (walkChildren_output _ (output tr parents) _ (Hall _)), Hrest.
    simpl. rewrite <- !app_assoc. reflexivity.
  - rewrite !app_assoc, <- (app_assoc _ pre), (styleAfter_reset _ pre post Hpre).
    exact Hpost.
Qed.

Lemma balanced_styling_witness :
  exists inner pre post after,
    renderNode darkTerminal
      {| node := mkNode (Emphasis 2) [text "bold"];
         ancestors := [Paragraph; Document];
         hasPreviousSibling := false; hasNextSibling := true |} false
    = Ret (pre ++ Color theme.Reset :: post, None)
    /\ onlyText pre
    /\ [ Color theme.Bold; Lit (str "bold"); Color theme.Reset;
         Color theme.Italic; Lit (str "it"); Color theme.Reset ]
       = [] ++ [Color theme.Bold] ++ inner
         ++ (pre ++ Color theme.Reset :: post) ++ after
    /\ walkChildren (walkHelper (walker darkTerminal) [Paragraph; Document]) false
         [mkNode (Emphasis 1) [text "it"]]
         ([] ++ [Color theme.Bold] ++ inner ++ (pre ++ Color theme.Reset :: post))
       = Ret (WalkContinue, None,
              [ Color theme.Bold; Lit (str "bold"); Color theme.Reset;
                Color theme.Italic; Lit (str "it"); Color theme.Reset ])
    /\ styleAfter ([] ++ [Color theme.Bold] ++ inner
                   ++ (pre ++ Color theme.Reset :: post))
       = None.
Proof.
  apply (balanced_styling darkTerminal [Paragraph; Document] true
           (mkNode (Emphasis 2) [text "bold"])
           [mkNode (Emphasis 1) [text "it"]] []).
  - reflexivity.
  - discriminate.
  - reflexivity.
Defined.

(** The claim C6 fails on the cell of a header row: entering it applies
    the header style, leaving it writes the reset and then the border
    in the border style, which is applied when the cell has been left
    and the next cell begins. *)
Lemma header_cell_style_leaks :
  exists en ex,
    renderNode darkTerminal headerCellA true = Ret (en, None)
    /\ styleAfter en = Some theme.TableHeader
    /\ renderNode darkTerminal headerCellA false = Ret (ex, None)
    /\ ex = [ Color theme.Reset; Lit (str "              ");
              Color theme.TableBorder; Lit (str "│") ]
    /\ styleAfter (en ++ [Lit (str "A")] ++ ex) = Some theme.TableBorder
    /\ styleAfter (en ++ [Lit (str "A")] ++ ex) <> None.
Proof.
  eexists _, _.
  split; [reflexivity|]. split; [reflexivity|]. split; [reflexivity|].
  split; [reflexivity|]. split; [reflexivity|discriminate].
Qed.

(** *** Paragraphs *)

Lemma Bytes_app tm a b : Bytes tm (a ++ b) = Bytes tm a ++ Bytes tm b.
Proof. unfold Bytes. rewrite map_app, concat_app. reflexivity. Qed.

Lemma outputChildren_of_walk tr parents cs w st err w' :
  walkChildren (walkHelper (walker tr) parents) true cs w = Ret (st, err, w') ->
  exists out, outputChildren (output tr parents) true cs = Ret out /\ w' = w ++ out.
Proof.
  rewrite (walkChildren_output _ (output tr parents)).
  - destruct (outputChildren (output tr parents) true cs) as [out|]; simpl;
      [|discriminate]. intros [= <- <- <-]. eauto.
  - apply Forall_forall. intros x _ p nx w0. apply walkHelper_output.
Qed.

(** Trimming works on the two texts of two blocks apart. *)
Lemma two_blocks_lines ta tb :
  Split (ta ++ [LF; LF] ++ tb ++ [LF]) LF
  = Split ta LF ++ [[]] ++ Split tb LF ++ [[]].
Proof.
  change (ta ++ [LF; LF] ++ tb ++ [LF]) with (ta ++ LF :: (LF :: tb ++ [LF])).
  rewrite Split_app. simpl. rewrite Split_app. reflexivity.
Qed.

Lemma two_blocks_trimmed ta tb :
  TrimTrailingWhitespace (ta ++ [LF; LF] ++ tb ++ [LF])
  = TrimTrailingWhitespace ta ++ [LF; LF] ++ TrimTrailingWhitespace tb ++ [LF].
Proof.
  rewrite <- (Join_Split (TrimTrailingWhitespace ta ++ [LF; LF]
                           ++ TrimTrailingWhitespace tb ++ [LF]) LF).
  unfold TrimTrailingWhitespace at 1. f_equal.
  rewrite !two_blocks_lines, !Split_TrimTrailingWhitespace, !map_app.
  reflexivity.
Qed.

Lemma two_blocks_fixed ta tb :
  blockText (TrimTrailingWhitespace tb) ->
  postProcess (ta ++ [LF; LF] ++ tb ++ [LF])
  = TrimTrailingWhitespace ta ++ [LF; LF] ++ TrimTrailingWhitespace tb ++ [LF].
Proof.
  intros (_ & Hnb & Hlb). unfold postProcess. rewrite two_blocks_trimmed.
  apply EnsureTrailingNewline_fixed.
  exists (TrimTrailingWhitespace ta ++ [LF; LF] ++ TrimTrailingWhitespace tb). split.
  - rewrite <- !app_assoc. reflexivity.
  - rewrite !last_app. destruct (last (TrimTrailingWhitespace tb)); [exact Hlb|contradiction].
Qed.

(** C7, as the code has it: when the texts of two paragraphs A and B
    (what their children write, without the trailing spaces and tabs of
    the lines) are not empty and neither start nor end with a newline,
    the document of A and B renders to the text of A, one empty line,
    the text of B and one newline, so there is exactly one blank line
    between the two texts, none before the first and none after the
    last. A paragraph writes one newline when it is left and a second
    one only when a sibling follows. *)
Theorem paragraphs_one_blank_line
    (r : Renderer) (hl : CodeHighlighter) (csA csB : list Node)
    (oa ob : Buffer) (n : Cursor) :
  walkChildren
    (walkHelper (walker {| themeManager := rThemeManager r; highlighter := hl |})
       [Paragraph; Document]) true csA []
  = Ret (WalkContinue, None, oa) ->
  walkChildren
    (walkHelper (walker {| themeManager := rThemeManager r; highlighter := hl |})
       [Paragraph; Document]) true csB []
  = Ret (WalkContinue, None, ob) ->
  blockText (TrimTrailingWhitespace (Bytes (rThemeManager r) oa)) ->
  blockText (TrimTrailingWhitespace (Bytes (rThemeManager r) ob)) ->
  let ta := TrimTrailingWhitespace (Bytes (rThemeManager r) oa) in
  let tb := TrimTrailingWhitespace (Bytes (rThemeManager r) ob) in
  RenderContent r (mkNode Document [mkNode Paragraph csA; mkNode Paragraph csB]) hl
  = Ret (ta ++ [LF; LF] ++ tb ++ [LF], None)
  /\ Split (ta ++ [LF; LF] ++ tb ++ [LF]) LF
     = Split ta LF ++ [[]] ++ Split tb LF ++ [[]]
  /\ head (ta ++ [LF; LF] ++ tb ++ [LF]) <> Some LF
  /\ last ta <> Some LF
  /\ head tb <> Some LF
  /\ last (ta ++ [LF; LF] ++ tb) <> Some LF
  /\ renderParagraph n true = Ret ([], None)
  /\ renderParagraph n false
     = Ret ([Lit [LF]] ++ (if hasNextSibling n then [Lit [LF]] else []), None).
Proof.
  intros Ha Hb Hca Hcb. cbv zeta.
  apply outputChildren_of_walk in Ha. destruct Ha as (oa' & Ha & ->).
  apply outputChildren_of_walk in Hb. destruct Hb as (ob' & Hb & ->).
  change ([] ++ oa') with oa' in *. change ([] ++ ob') with ob' in *.
  split; [|split; [apply two_blocks_lines|]].
  - rewrite RenderContent_output. simpl. rewrite Ha, Hb. simpl.
    rewrite app_nil_r, !Bytes_app. simpl. rewrite <- !app_assoc.
    do 2 f_equal. apply (two_blocks_fixed _ _ Hcb).
  - destruct Hca as (Hha & Hna & Hla), Hcb as (Hhb & Hnb & Hlb).
    revert Hha Hna Hla Hhb Hnb Hlb.
    generalize (TrimTrailingWhitespace (Bytes (rThemeManager r) oa')).
    generalize (TrimTrailingWhitespace (Bytes (rThemeManager r) ob')).
    intros tb ta Hha Hna Hla Hhb Hnb Hlb.
    split; [|split; [exact Hla|split; [exact Hhb|split; [|split; reflexivity]]]].
    + simpl. destruct ta; [contradiction|exact Hha].
    + rewrite app_assoc, last_app.
      destruct (last tb); [exact Hlb|contradiction].
Qed.

Lemma paragraphs_one_blank_line_witness :
  RenderContent darkRenderer paragraphsAB failingHighlighter
  = Ret (str "A" ++ [LF; LF] ++ str "B" ++ [LF], None).
Proof.
  assert (C : forall s,
            blockText (TrimTrailingWhitespace (Bytes darkTheme [Lit (str s)])) ->
            blockText (TrimTrailingWhitespace
                         (Bytes (rThemeManager darkRenderer) [Lit (str s)])))
    by (intros s H; exact H).
  refine (proj1 (paragraphs_one_blank_line darkRenderer failingHighlighter
                   [text "A"] [text "B"] [Lit (str "A")] [Lit (str "B")] bulletItem
                   eq_refl eq_refl (C "A"%string _) (C "B"%string _))).
  - repeat split; discriminate.
  - repeat split; discriminate.
Defined.

(** The claim C7 fails when a paragraph writes no text: a paragraph of
    inline raw HTML only, which the renderer skips, is still closed by
    its two newlines, so the output starts with a blank line, and there
    is no text of A for the blank line to stand after. *)
Lemma empty_paragraph_blank_line :
  RenderContent darkRenderer paragraphsHTMLB failingHighlighter
  = Ret ([LF; LF] ++ str "B" ++ [LF], None)
  /\ head ([LF; LF] ++ str "B" ++ [LF]) = Some LF.
Proof. split; [vm_compute; reflexivity|reflexivity]. Qed.


End renderer_facts.

(** ** styles.go *)

Module styles_facts.

Import strings strings_facts utf8 utf8_facts renderer notions more_notions
  postprocess highlighter_facts.

Lemma concat_repeat_two_spaces n :
  concat (repeat (str "  ") n) = repeat SP (2 * n).
Proof.
  induction n as [|n IH]; [reflexivity|].
  replace (2 * S n)%nat with (S (S (2 * n))) by lia.
  change (repeat (str "  ") (S n)) with (str "  " :: repeat (str "  ") n).
  rewrite concat_cons, IH. reflexivity.
Qed.

Lemma Indent_lines text level :
  Indent text level
  = Ret (Join (map (fun line => match TrimSpace line with
                                | [] => line
                                | _ => repeat SP (2 * Z.to_nat level) ++ line
                                end) (Split text LF)) [LF]).
Proof.
  unfold Indent. destruct (Z.leb_spec level 0) as [Hle|Hgt].
  - replace (Z.to_nat level) with 0%nat by lia. simpl. f_equal.
    rewrite <- (Join_Split text LF) at 1. f_equal.
    rewrite <- (map_id (Split text LF)) at 1. apply map_ext.
    intros line. destruct (TrimSpace line); reflexivity.
  - unfold Repeat. destruct (Z.ltb_spec level 0); [lia|]. simpl.
    rewrite concat_repeat_two_spaces. reflexivity.
Qed.

Lemma repeat_no_LF n : ~ In LF (repeat SP n).
Proof. intros H. apply repeat_spec in H. discriminate H. Qed.

Lemma indented_lines_no_LF (indent : gostring) lines :
  ~ In LF indent ->
  Forall (fun l => ~ In LF l) lines ->
  Forall (fun l => ~ In LF l)
    (map (fun line => match TrimSpace line with
                      | [] => line
                      | _ => indent ++ line
                      end) lines).
Proof.
  intros Hi H. apply Forall_map. eapply Forall_impl; [exact H|].
  intros l Hl. simpl. destruct (TrimSpace l); [exact Hl|].
  intros Hin. apply in_app_or in Hin.
  destruct Hin as [H1|H1]; [exact (Hi H1)|exact (Hl H1)].
Qed.

(** X1: whenever [Indent] returns, it has kept the lines of the text,
    left the lines of white space only (white space of [unicode.IsSpace],
    the empty line included) as they are and put two spaces per level
    before every other line; for a level of 0 or less the text comes
    back as it is. *)
Theorem Indent_line_by_line (text : gostring) (level : Z) (indented : gostring) :
  Indent text level = Ret indented ->
  Split indented LF
  = map (fun line => match TrimSpace line with
                     | [] => line
                     | _ => repeat SP (2 * Z.to_nat level) ++ line
                     end) (Split text LF)
  /\ ((level <= 0)%Z -> indented = text).
Proof.
  rewrite Indent_lines. intros [= <-]. split.
  - apply Split_Join.
    + pose proof (Split_nonempty text LF).
      destruct (Split text LF); [contradiction|discriminate].
    + apply indented_lines_no_LF; [apply repeat_no_LF|apply Split_no_sep].
  - intros Hl. replace (Z.to_nat level) with 0%nat by lia. cbn [Nat.mul repeat app].
    rewrite <- (Join_Split text LF) at 2. f_equal.
    rewrite <- (map_id (Split text LF)) at 2. apply map_ext.
    intros line. destruct (TrimSpace line); reflexivity.
Qed.

Lemma Indent_line_by_line_witness :
  Indent (str "a" ++ [LF; byteOf 194; byteOf 160; LF] ++ str "b") 2
  = Ret (str "    a" ++ [LF; byteOf 194; byteOf 160; LF] ++ str "    b")
  /\ Split (str "    a" ++ [LF; byteOf 194; byteOf 160; LF] ++ str "    b") LF
     = [str "    a"; [byteOf 194; byteOf 160]; str "    b"].
Proof.
  assert (E : Indent (str "a" ++ [LF; byteOf 194; byteOf 160; LF] ++ str "b") 2
              = Ret (str "    a" ++ [LF; byteOf 194; byteOf 160; LF] ++ str "    b"))
    by (vm_compute; reflexivity).
  split; [exact E|].
  rewrite (proj1 (Indent_line_by_line _ 2 _ E)). vm_compute. reflexivity.
Defined.

Lemma TrimSpace_spaces n l : TrimSpace (repeat SP n ++ l) = TrimSpace l.
Proof.
  induction n as [|n IH]; [reflexivity|].
  cbn [repeat app]. rewrite <- IH.
  unfold TrimSpace, TrimFunc. f_equal.
Qed.

(** X2: for levels that are not negative and whose sum is an [int],
    indenting by [a] levels and then by [b] levels gives what indenting
    by [a + b] levels gives, whenever the three calls return. *)
Theorem Indent_twice (text : gostring) (a b : Z) (once twice both : gostring) :
  (0 <= a)%Z -> (0 <= b)%Z -> (a + b <= 9223372036854775807)%Z ->
  Indent text a = Ret once ->
  Indent once b = Ret twice ->
  Indent text (a + b) = Ret both ->
  twice = both.
Proof.
  intros Ha Hb _. rewrite !Indent_lines. intros [= <-] [= <-] [= <-].
  f_equal.
  rewrite Split_Join.
  2:{ pose proof (Split_nonempty text LF). destruct (Split text LF); [contradiction|discriminate]. }
  2:{ apply indented_lines_no_LF; [apply repeat_no_LF|apply Split_no_sep]. }
  rewrite map_map. apply map_ext. intros line.
  destruct (TrimSpace line) as [|c t] eqn:E.
  - rewrite E. reflexivity.
  - rewrite TrimSpace_spaces, E, app_assoc, <- repeat_app. do 2 f_equal. lia.
Qed.

Lemma Indent_twice_witness :
  Indent (str "a") 1 = Ret (str "  a")
  /\ Indent (str "  a") 2 = Ret (str "      a")
  /\ Indent (str "a") (1 + 2) = Ret (str "      a").
Proof.
  assert (E1 : Indent (str "a") 1 = Ret (str "  a")) by (vm_compute; reflexivity).
  assert (E2 : Indent (str "  a") 2 = Ret (str "      a")) by (vm_compute; reflexivity).
  split; [exact E1|]. split; [exact E2|].
  destruct (Indent (str "a") (1 + 2)) as [both|] eqn:E3; [|vm_compute in E3; discriminate E3].
  rewrite <- (Indent_twice (str "a") 1 2 _ _ both ltac:(lia) ltac:(lia) ltac:(lia) E1 E2 E3).
  reflexivity.
Defined.


(** *** Trimming and the trailing newline *)

(** X3: [TrimTrailingWhitespace] works line by line: it keeps the number
    of lines, every line of the result is the line of the text without
    its trailing spaces and tabs, and trimming again changes nothing. *)
Theorem TrimTrailingWhitespace_line_by_line (s : gostring) :
  Split (TrimTrailingWhitespace s) LF
  = map (fun line => TrimRight line [SP; TAB]) (Split s LF)
  /\ length (Split (TrimTrailingWhitespace s) LF) = length (Split s LF)
  /\ TrimTrailingWhitespace (TrimTrailingWhitespace s) = TrimTrailingWhitespace s.
Proof.
  split; [apply Split_TrimTrailingWhitespace|]. split.
  - rewrite Split_TrimTrailingWhitespace. apply length_map.
  - apply TrimTrailingWhitespace_fixed, TrimTrailingWhitespace_lines.
Qed.

Lemma all_LF t :
  Forall (fun c => inCutset [LF] c = true) t -> t = repeat LF (length t).
Proof.
  induction 1 as [|c t Hc _ IH]; [reflexivity|].
  apply inCutset_In in Hc. destruct Hc as [<-|[]]. simpl. f_equal. exact IH.
Qed.

(** X4: [EnsureTrailingNewline] touches the trailing newlines only: a
    text is a body that does not end with a newline followed by some
    newlines, and the result is that body followed by one newline. *)
Theorem EnsureTrailingNewline_trailing_only (s : gostring) :
  exists body k,
    s = body ++ repeat LF k
    /\ last body <> Some LF
    /\ EnsureTrailingNewline s = body ++ [LF].
Proof.
  destruct (TrimRightFunc_decomp s (inCutset [LF])) as (t & Ht & Hall).
  exists (TrimRight s [LF]), (length t). split; [|split].
  - rewrite <- (all_LF t Hall). exact Ht.
  - intros H. apply TrimRightFunc_last in H. discriminate H.
  - reflexivity.
Qed.

(** X5: the texts that [EnsureTrailingNewline] leaves as they are are
    the texts that end with exactly one newline. *)
Theorem EnsureTrailingNewline_fixed_iff (s : gostring) :
  EnsureTrailingNewline s = s <-> oneTrailingNewline s.
Proof.
  split.
  - intros H. rewrite <- H. apply EnsureTrailingNewline_one.
  - apply EnsureTrailingNewline_fixed.
Qed.

(** *** Runes *)

Import utf8.

Lemma inRange_SP lo hi : (128 <= lo)%nat -> inRange lo hi SP = false.
Proof.
  intros H. unfold inRange. apply andb_false_iff. left.
  apply Nat.leb_gt. change (nat_of_ascii SP) with 32%nat. lia.
Qed.

Lemma first_range c size lo hi :
  first c = Some (size, (lo, hi)) ->
  (128 <= lo)%nat /\ (size = 2 \/ size = 3 \/ size = 4)%nat.
Proof.
  unfold first. repeat case_match; intros [= <- <- <-]; lia.
Qed.

Lemma runeSize_bound c rest : (runeSize c rest - 1 <= length rest)%nat.
Proof.
  unfold runeSize. repeat case_match; subst; simpl in *; try lia.
  all: match goal with
       | H : (_ <? _)%nat = false |- _ => apply Nat.ltb_ge in H; simpl in H; lia
       end.
Qed.


Lemma runeSize_spaces c rest k :
  runeSize c (rest ++ repeat SP k) = runeSize c rest.
Proof.
  unfold runeSize. destruct (nat_of_ascii c <? 128)%nat; [reflexivity|].
  destruct (first c) as [[size [lo hi]]|] eqn:F; [|reflexivity].
  destruct (first_range _ _ _ _ F) as [Hlo Hsize].
  pose proof (inRange_SP lo hi Hlo) as S1.
  pose proof (inRange_SP 128 191 (Nat.le_refl _)) as S2.
  destruct rest as [|c1 [|c2 [|c3 rest]]]; destruct k as [|[|[|k]]];
    simpl; rewrite ?S1, ?S2; simpl;
    destruct Hsize as [-> | [-> | ->]]; simpl;
    repeat case_match; try reflexivity; try lia; try discriminate.
  all: repeat match goal with
       | H : (_ <? _)%nat = _ |- _ => first [apply Nat.ltb_ge in H|apply Nat.ltb_lt in H]
       end; rewrite ?length_app in *; simpl in *; try lia.
Qed.

Lemma countRunes_spaces s : forall skip k,
  (skip <= length s)%nat ->
  countRunes skip (s ++ repeat SP k) = (countRunes skip s + k)%nat.
Proof.
  induction s as [|c t IH]; intros skip k Hs.
  - simpl in Hs. replace skip with 0%nat by lia. simpl.
    induction k as [|k IHk]; [reflexivity|]. simpl. f_equal. exact IHk.
  - simpl. destruct skip as [|skip].
    + rewrite runeSize_spaces, IH; [reflexivity|apply runeSize_bound].
    + apply IH. simpl in Hs. lia.
Qed.

Lemma RuneCount_spaces s k :
  RuneCountInString (s ++ repeat SP k) = (RuneCountInString s + k)%nat.
Proof. apply countRunes_spaces. lia. Qed.

Lemma concat_repeat_space n : concat (repeat [SP] n) = repeat SP n.
Proof. induction n as [|n IH]; [reflexivity|]. simpl. f_equal. exact IH. Qed.

Lemma PadRight_spaces text width :
  PadRight text width
  = Ret (text ++ repeat SP (Z.to_nat (width - Z.of_nat (RuneCountInString text)))).
Proof.
  unfold PadRight. destruct (Z.leb_spec width (Z.of_nat (RuneCountInString text))).
  - replace (Z.to_nat _) with 0%nat by lia. simpl. rewrite app_nil_r. reflexivity.
  - unfold Repeat. destruct (Z.ltb_spec (width - Z.of_nat (RuneCountInString text)) 0);
      [lia|]. simpl. rewrite concat_repeat_space. reflexivity.
Qed.

(** X6: whenever [PadRight] returns, it has not cut the text: the
    result is the text followed by spaces, it has [width] runes, or the
    runes of the text when these are more, and padding it again to the
    same width returns it as it is. *)
Theorem PadRight_width (text : gostring) (width : Z) (padded : gostring) :
  PadRight text width = Ret padded ->
  (exists k, padded = text ++ repeat SP k)
  /\ Z.of_nat (RuneCountInString padded)
     = Z.max width (Z.of_nat (RuneCountInString text))
  /\ PadRight padded width = Ret padded.
Proof.
  rewrite PadRight_spaces. intros [= <-]. split; [eauto|].
  assert (E : Z.of_nat (RuneCountInString
                (text ++ repeat SP (Z.to_nat (width - Z.of_nat (RuneCountInString text)))))
              = Z.max width (Z.of_nat (RuneCountInString text))).
  { rewrite RuneCount_spaces. lia. }
  split; [exact E|].
  unfold PadRight. rewrite E.
  destruct (Z.leb_spec width (Z.max width (Z.of_nat (RuneCountInString text))));
    [reflexivity|lia].
Qed.

Lemma PadRight_width_witness :
  PadRight (str "ab" ++ [byteOf 195; byteOf 188]) 5
  = Ret (str "ab" ++ [byteOf 195; byteOf 188] ++ str "  ")
  /\ Z.of_nat (RuneCountInString (str "ab" ++ [byteOf 195; byteOf 188] ++ str "  "))
     = 5%Z.
Proof.
  assert (E : PadRight (str "ab" ++ [byteOf 195; byteOf 188]) 5
              = Ret (str "ab" ++ [byteOf 195; byteOf 188] ++ str "  "))
    by (vm_compute; reflexivity).
  split; [exact E|].
  rewrite (proj1 (proj2 (PadRight_width _ 5 _ E))). vm_compute. reflexivity.
Defined.

(** *** Words *)

Section fields.
Variable f : rune -> bool.

Lemma fieldsOf_cons_nonspace x t : f x.1 = false -> fieldsOf f (x :: t) <> [].
Proof.
  intros Hx. simpl. rewrite Hx. destruct t as [|y t']; [done|].
  destruct (f y.1); [done|]. by destruct (fieldsOf f (y :: t')).
Qed.

Lemma fieldsOf_app_space l1 x l2 :
  f x.1 = true -> fieldsOf f (l1 ++ x :: l2) = fieldsOf f l1 ++ fieldsOf f l2.
Proof.
  intros Hx. induction l1 as [|y l1 IH].
  - simpl. by rewrite Hx.
  - change ((y :: l1) ++ x :: l2) with (y :: (l1 ++ x :: l2)).
    cbn [fieldsOf]. destruct (f y.1) eqn:Hy; [exact IH|].
    destruct l1 as [|z l1'].
    + cbn [app] in *. by rewrite Hx, IH.
    + cbn [app] in *. destruct (f z.1) eqn:Hz.
      * by rewrite IH.
      * rewrite IH. pose proof (fieldsOf_cons_nonspace z l1' Hz) as Hne.
        by destruct (fieldsOf f (z :: l1')).
Qed.

Lemma fieldsOf_run l :
  l <> [] -> Forall (fun x => f x.1 = false) l -> fieldsOf f l = [bytesOf l].
Proof.
  intros Hne Hall. induction Hall as [|x t Hx Ht IH]; [done|].
  cbn [fieldsOf]. rewrite Hx. destruct t as [|y t'].
  - unfold bytesOf. simpl. by rewrite app_nil_r.
  - inversion Ht as [|? ? Hy _]; subst. rewrite Hy.
    by rewrite IH.
Qed.

(** The first field of a list that starts with no white space: its
    longest prefix without white space. *)
Lemma fieldsOf_first x t :
  f x.1 = false ->
  exists run rest,
    x :: t = run ++ rest /\ run <> []
    /\ Forall (fun x => f x.1 = false) run
    /\ fieldsOf f (x :: t) = bytesOf run :: fieldsOf f rest
    /\ (length rest <= length t)%nat.
Proof.
  revert x. induction t as [|y t IH]; intros x Hx.
  - exists [x], [].
    split; [done|]. split; [done|]. split; [by repeat constructor|].
    split; [|done].
    simpl. rewrite Hx. unfold bytesOf. simpl. by rewrite app_nil_r.
  - destruct (f y.1) eqn:Hy.
    + exists [x], (y :: t).
      split; [done|]. split; [done|]. split; [by repeat constructor|].
      split; [|simpl; lia].
      cbn [fieldsOf]. rewrite Hx, Hy. unfold bytesOf. simpl.
      by rewrite app_nil_r.
    + destruct (IH y Hy) as (run & rest & E & Hne & Hall & Hf & Hl).
      exists (x :: run), rest.
      split; [simpl; by rewrite E|]. split; [done|].
      split; [by constructor|]. split; [|simpl in *; lia].
      change (fieldsOf f (x :: y :: t))
        with (if f x.1 then fieldsOf f (y :: t)
              else if f y.1 then x.2 :: fieldsOf f (y :: t)
                   else match fieldsOf f (y :: t) with
                        | w :: ws => (x.2 ++ w) :: ws
                        | [] => [x.2]
                        end).
      rewrite Hx, Hy, Hf. reflexivity.
Qed.

End fields.

Lemma separator_SP : separator SP.
Proof. split; [vm_compute; lia|reflexivity]. Qed.

Lemma separator_LF : separator LF.
Proof. split; [vm_compute; lia|reflexivity]. Qed.

Lemma Fields_app_space a c b :
  separator c -> Fields (a ++ c :: b) = Fields a ++ Fields b.
Proof.
  intros [Hc Hs]. unfold Fields, FieldsFunc.
  rewrite runes_app_ascii by exact Hc. by apply fieldsOf_app_space.
Qed.

Lemma Fields_word w : isWord w -> Fields w = [w].
Proof.
  intros [Hne Hall]. unfold Fields, FieldsFunc.
  rewrite fieldsOf_run; [by rewrite runes_bytes|by apply runes_nonempty|exact Hall].
Qed.

Lemma fieldsOf_words n : forall l,
  (length l <= n)%nat -> runes (bytesOf l) = l ->
  Forall isWord (fieldsOf unicode.IsSpace l).
Proof.
  induction n as [|n IH]; intros l Hl Hd.
  { destruct l; [constructor|simpl in Hl; lia]. }
  destruct l as [|x t]; [constructor|].
  assert (Ht : runes (bytesOf t) = t) by (apply (runes_suffix (bytesOf (x :: t)) [x]); exact Hd).
  destruct (unicode.IsSpace x.1) eqn:Hx.
  { cbn [fieldsOf]. rewrite Hx. apply IH; [simpl in Hl; lia|exact Ht]. }
  destruct (fieldsOf_first unicode.IsSpace x t Hx)
    as (run & rest & E & Hne & Hall & Hf & Hlen).
  rewrite Hf.
  assert (Hrun : runes (bytesOf run) = run).
  { apply (runes_prefix (bytesOf (x :: t)) run rest). by rewrite Hd. }
  assert (Hrest : runes (bytesOf rest) = rest).
  { apply (runes_suffix (bytesOf (x :: t)) run rest). by rewrite Hd. }
  constructor.
  - split; [|by rewrite Hrun].
    intros Hb. rewrite Hb in Hrun. by symmetry in Hrun.
  - apply IH; [simpl in Hl; lia|exact Hrest].
Qed.

Lemma Fields_words s : Forall isWord (Fields s).
Proof.
  apply (fieldsOf_words (length (runes s))); [lia|].
  by rewrite runes_bytes.
Qed.

Lemma Fields_Join ls c :
  separator c -> Fields (Join ls [c]) = concat (map Fields ls).
Proof.
  intros Hc. induction ls as [|l ls IH]; [reflexivity|].
  destruct ls as [|l' ls'].
  - simpl. rewrite app_nil_r. reflexivity.
  - change (Join (l :: l' :: ls') [c]) with (l ++ c :: Join (l' :: ls') [c]).
    rewrite Fields_app_space by exact Hc. rewrite IH. reflexivity.
Qed.

Lemma Fields_Join_words ws c :
  separator c -> Forall isWord ws -> Fields (Join ws [c]) = ws.
Proof.
  intros Hc Hws. rewrite Fields_Join by exact Hc.
  induction Hws as [|w ws Hw _ IH]; [reflexivity|].
  simpl. rewrite (Fields_word w Hw), IH. reflexivity.
Qed.

Lemma word_no_LF w : isWord w -> ~ In LF w.
Proof.
  intros [_ Hall] Hin. apply in_split in Hin as (a & b & ->).
  destruct separator_LF as [Hc Hs].
  rewrite (runes_app_ascii a LF b Hc) in Hall.
  apply List.Forall_app in Hall as [_ Hall].
  inversion Hall as [|? ? Hx _]; subst. simpl in Hx. congruence.
Qed.

(** The loop keeps the words: the words of the full lines followed by
    the words of the current line are the words seen so far. *)
Lemma wrapStep_words width ws : forall lines cur len,
  Forall isWord ws -> Forall isWord cur ->
  forall lines' cur' len',
    fold_left (wrapStep width) ws (lines, cur, len) = (lines', cur', len') ->
    Forall isWord cur'
    /\ concat (map Fields lines') ++ cur'
       = (concat (map Fields lines) ++ cur) ++ ws.
Proof.
  induction ws as [|w ws IH]; intros lines cur len Hws Hcur lines' cur' len' H.
  - simpl in H. injection H as <- <- <-. rewrite app_nil_r. auto.
  - inversion Hws as [|? ? Hw Hws']; subst. simpl in H.
    destruct ((0 <? len)%Z && (width <? len + Z.of_nat (RuneCountInString w) + 1)%Z).
    + apply IH in H; [|assumption|constructor; [exact Hw|constructor]].
      destruct H as [Hc' H]. split; [exact Hc'|]. rewrite H.
      rewrite map_app, concat_app. cbn [map concat].
      rewrite (Fields_Join_words cur SP separator_SP Hcur), app_nil_r, <- !app_assoc.
      reflexivity.
    + apply IH in H;
        [|assumption|apply Forall_app; split; [assumption|constructor; [exact Hw|constructor]]].
      destruct H as [Hc' H]. split; [exact Hc'|]. rewrite H, <- !app_assoc.
      reflexivity.
Qed.

(** X7: [WrapText] keeps the words of the text, in their order, for
    every width. *)
Theorem WrapText_keeps_words (text : gostring) (width : Z) :
  Fields (WrapText text width) = Fields text.
Proof.
  unfold WrapText. destruct (width <=? 0)%Z; [reflexivity|].
  destruct (Fields text) as [|w ws] eqn:E; [exact E|].
  destruct (fold_left (wrapStep width) (w :: ws) ([], [], 0%Z))
    as [[lines cur] len] eqn:F.
  apply wrapStep_words in F; [|rewrite <- E; apply Fields_words|constructor].
  destruct F as [Hcur F]. simpl in F.
  rewrite (Fields_Join _ LF separator_LF). rewrite <- F.
  destruct cur as [|c cs].
  - rewrite app_nil_r. reflexivity.
  - rewrite map_app, concat_app. cbn [map concat].
    rewrite (Fields_Join_words (c :: cs) SP separator_SP Hcur), app_nil_r. reflexivity.
Qed.


(** *** The width of the wrapped lines *)

Lemma runeSize_space_sep c rest b :
  runeSize c (rest ++ SP :: b) = runeSize c rest.
Proof.
  unfold runeSize. destruct (nat_of_ascii c <? 128)%nat; [reflexivity|].
  destruct (first c) as [[size [lo hi]]|] eqn:F; [|reflexivity].
  destruct (first_range _ _ _ _ F) as [Hlo Hsize].
  pose proof (inRange_SP lo hi Hlo) as S1.
  pose proof (inRange_SP 128 191 (Nat.le_refl _)) as S2.
  destruct rest as [|c1 [|c2 [|c3 rest]]];
    simpl; rewrite ?S1, ?S2; simpl;
    destruct Hsize as [-> | [-> | ->]]; simpl;
    repeat case_match; try reflexivity; try lia; try discriminate.
  all: repeat match goal with
       | H : (_ <? _)%nat = _ |- _ => first [apply Nat.ltb_ge in H|apply Nat.ltb_lt in H]
       end; rewrite ?length_app in *; simpl in *; try lia.
Qed.

Lemma countRunes_space_sep a b : forall skip,
  (skip <= length a)%nat ->
  countRunes skip (a ++ SP :: b) = (countRunes skip a + S (countRunes 0 b))%nat.
Proof.
  induction a as [|c t IH]; intros skip Hs.
  - simpl in Hs. replace skip with 0%nat by lia. reflexivity.
  - simpl. destruct skip as [|skip].
    + rewrite runeSize_space_sep, IH; [reflexivity|apply runeSize_bound].
    + apply IH. simpl in Hs. lia.
Qed.

Lemma RuneCount_space_sep a b :
  RuneCountInString (a ++ SP :: b)
  = (RuneCountInString a + 1 + RuneCountInString b)%nat.
Proof. unfold RuneCountInString. rewrite countRunes_space_sep by lia. lia. Qed.

Lemma RuneCount_word w : isWord w -> (1 <= RuneCountInString w)%nat.
Proof.
  intros [Hne _]. destruct w; [contradiction|].
  unfold RuneCountInString. simpl. lia.
Qed.

Lemma Join_snoc (ls : list gostring) l sep :
  ls <> [] -> Join (ls ++ [l]) sep = Join ls sep ++ sep ++ l.
Proof.
  induction ls as [|x ls IH]; [contradiction|]. intros _.
  destruct ls as [|y ls'].
  - reflexivity.
  - change (Join ((x :: y :: ls') ++ [l]) sep)
      with (x ++ sep ++ Join ((y :: ls') ++ [l]) sep).
    rewrite IH by discriminate.
    change (Join (x :: y :: ls') sep) with (x ++ sep ++ Join (y :: ls') sep).
    rewrite <- !app_assoc. reflexivity.
Qed.

Lemma Join_words_no_LF ws : Forall isWord ws -> ~ In LF (Join ws [SP]).
Proof.
  induction 1 as [|w ws Hw Hws IH]; [intros []|].
  destruct ws as [|w' ws'].
  - simpl. apply word_no_LF, Hw.
  - change (Join (w :: w' :: ws') [SP]) with (w ++ [SP] ++ Join (w' :: ws') [SP]).
    intros Hin. apply in_app_or in Hin. destruct Hin as [Hin|Hin].
    + exact (word_no_LF w Hw Hin).
    + apply in_app_or in Hin. destruct Hin as [[Hin|[]]|Hin]; [discriminate Hin|].
      exact (IH Hin).
Qed.

Lemma wrapStep_invariant width lines cur len w :
  isWord w ->
  Forall isWord cur ->
  Forall (fun l => ~ In LF l /\ fits width l) lines ->
  len = Z.of_nat (RuneCountInString (Join cur [SP])) ->
  (cur <> [] -> (0 < len)%Z /\ fits width (Join cur [SP])) ->
  exists lines' cur' len',
    wrapStep width (lines, cur, len) w = (lines', cur', len')
    /\ Forall isWord cur'
    /\ Forall (fun l => ~ In LF l /\ fits width l) lines'
    /\ len' = Z.of_nat (RuneCountInString (Join cur' [SP]))
    /\ cur' <> []
    /\ (0 < len')%Z /\ fits width (Join cur' [SP]).
Proof.
  intros Hw Hcur Hlines Hlen Hfit.
  pose proof (RuneCount_word w Hw) as Hw1.
  assert (Hsingle : Forall isWord [w]) by (constructor; [exact Hw|constructor]).
  unfold wrapStep.
  destruct cur as [|c cs].
  - (* the first word of a line *)
    simpl in Hlen. subst len. simpl.
    eexists _, _, _. split; [reflexivity|].
    split; [exact Hsingle|]. split; [exact Hlines|].
    change (RuneCountInString []) with 0%nat.
    split; [cbn [Join app]; lia|]. split; [discriminate|].
    split; [lia|right; exact Hw].
  - destruct Hfit as [Hpos Hf]; [discriminate|].
    destruct (Z.ltb_spec 0 len) as [_|]; [|lia].
    destruct (Z.ltb_spec width (len + Z.of_nat (RuneCountInString w) + 1))
      as [Hover|Hroom]; cbn [andb].
    + (* the line is full *)
      eexists _, _, _. split; [reflexivity|].
      split; [exact Hsingle|].
      split.
      { apply Forall_app. split; [exact Hlines|]. constructor; [|constructor].
        split; [apply Join_words_no_LF, Hcur|exact Hf]. }
      split; [reflexivity|]. split; [discriminate|].
      split; [lia|right; exact Hw].
    + (* the word goes on the line *)
      assert (E : RuneCountInString (Join ((c :: cs) ++ [w]) [SP])
                  = (RuneCountInString (Join (c :: cs) [SP]) + 1
                     + RuneCountInString w)%nat).
      { rewrite Join_snoc by discriminate. apply RuneCount_space_sep. }
      eexists _, _, _. split; [reflexivity|].
      split; [apply Forall_app; split; assumption|].
      split; [exact Hlines|].
      split; [rewrite E; lia|].
      split; [destruct cs; discriminate|].
      split; [lia|]. left. rewrite E. lia.
Qed.

Lemma wrapLoop_invariant width ws : forall lines cur len,
  Forall isWord ws ->
  Forall isWord cur ->
  Forall (fun l => ~ In LF l /\ fits width l) lines ->
  len = Z.of_nat (RuneCountInString (Join cur [SP])) ->
  (cur <> [] -> (0 < len)%Z /\ fits width (Join cur [SP])) ->
  exists lines' cur' len',
    fold_left (wrapStep width) ws (lines, cur, len) = (lines', cur', len')
    /\ Forall isWord cur'
    /\ Forall (fun l => ~ In LF l /\ fits width l) lines'
    /\ (cur' <> [] -> fits width (Join cur' [SP]))
    /\ (ws <> [] -> cur' <> []).
Proof.
  induction ws as [|w ws IH]; intros lines cur len Hws Hcur Hlines Hlen Hfit.
  - exists lines, cur, len. split; [reflexivity|].
    repeat split; try assumption; [|contradiction]. intros Hne. apply Hfit, Hne.
  - inversion Hws as [|? ? Hw Hws']; subst.
    destruct (wrapStep_invariant width lines cur _ w Hw Hcur Hlines eq_refl Hfit)
      as (l1 & c1 & n1 & E & A & B & C & D & F & G).
    cbn [fold_left]. rewrite E.
    destruct (IH l1 c1 n1 Hws' A B C (fun _ => conj F G))
      as (l2 & c2 & n2 & E2 & A2 & B2 & C2 & D2).
    exists l2, c2, n2. split; [exact E2|]. repeat split; try assumption.
    intros _. destruct ws as [|w' ws'].
    + simpl in E2. injection E2 as <- <- <-. exact D.
    + apply D2. discriminate.
Qed.

(** X8: for a positive width and a text with a word at least, every
    line of the wrapped text has at most [width] runes or is a single
    word. *)
Theorem WrapText_lines_fit (text : gostring) (width : Z) :
  (0 < width)%Z ->
  Fields text <> [] ->
  Forall (fun line =>
            (Z.of_nat (RuneCountInString line) <= width)%Z
            \/ Fields line = [line])
    (Split (WrapText text width) LF).
Proof.
  intros Hwidth Hwords. unfold WrapText.
  destruct (Z.leb_spec width 0); [lia|].
  destruct (Fields text) as [|w ws] eqn:E; [contradiction|].
  destruct (wrapLoop_invariant width (w :: ws) [] [] 0%Z)
    as (lines & cur & len & F & A & B & C & D).
  - rewrite <- E. apply Fields_words.
  - constructor.
  - constructor.
  - reflexivity.
  - intros Hne. contradiction.
  - unfold gostring in *. rewrite F. specialize (D ltac:(discriminate)).
    destruct cur as [|c cs]; [contradiction|].
    assert (Hall : Forall (fun l => ~ In LF l /\ fits width l)
                     (lines ++ [Join (c :: cs) [SP]])).
    { apply Forall_app. split; [exact B|]. constructor; [|constructor].
      split; [apply Join_words_no_LF, A|apply C; discriminate]. }
    rewrite Split_Join.
    + eapply Forall_impl; [exact Hall|]. intros l [_ [Hl|Hl]]; [left; exact Hl|].
      right. apply Fields_word, Hl.
    + destruct lines; discriminate.
    + eapply Forall_impl; [exact Hall|]. intros l [Hl _]. exact Hl.
Qed.

Lemma WrapText_lines_fit_witness :
  (0 < 5)%Z /\ Fields (str "one two three") <> []
  /\ Forall (fun line =>
               (Z.of_nat (RuneCountInString line) <= 5)%Z
               \/ Fields line = [line])
       (Split (WrapText (str "one two three") 5) LF).
Proof.
  assert (H1 : (0 < 5)%Z) by lia.
  assert (H2 : Fields (str "one two three") <> []) by (vm_compute; discriminate).
  split; [exact H1|]. split; [exact H2|].
  exact (WrapText_lines_fit (str "one two three") 5 H1 H2).
Defined.


(** A no-break space separates words as a space does. *)
Lemma WrapText_no_break_space :
  WrapText (str "a" ++ [byteOf 194; byteOf 160] ++ str "b") 80 = str "a b".
Proof. vm_compute. reflexivity. Qed.

End styles_facts.

(** ** theme.go and detector.go *)

Module theme_facts.
Import strings strings_facts theme notions more_notions.

Lemma scheme_lookup bg key :
  (In key roles /\ exists v, colors (NewWithBackground bg) !! key = Some v /\ isSGR v = true)
  \/ (~ In key roles /\ colors (NewWithBackground bg) !! key = None).
Proof.
  destruct (decide (key ∈ roles)) as [Hin|Hout].
  - left. split; [apply list_elem_of_In, Hin|].
    unfold roles in Hin. repeat (apply elem_of_cons in Hin; destruct Hin as [->|Hin]);
      [..|apply elem_of_nil in Hin; destruct Hin];
      destruct bg; (eexists; split; [vm_compute; reflexivity|reflexivity]).
  - right. split; [intros H; apply Hout, list_elem_of_In, H|].
    destruct bg; apply not_elem_of_list_to_map_1; exact Hout.
Qed.

(** X9: in both colour schemes every key resolves to an escape sequence:
    a declared style role to its own entry of the scheme, any other key
    to the reset sequence. *)
Theorem GetColor_total (bg : BackgroundType) (key : ColorKey) :
  isSGR (GetColor (NewWithBackground bg) key) = true
  /\ (In key roles -> colors (NewWithBackground bg) !! key
                      = Some (GetColor (NewWithBackground bg) key))
  /\ (~ In key roles -> GetColor (NewWithBackground bg) key = esc "[0m").
Proof.
  unfold GetColor.
  destruct (scheme_lookup bg key) as [[Hin (v & -> & Hv)]|[Hout ->]].
  - split; [exact Hv|]. split; [reflexivity|]. intros H. contradiction.
  - split; [destruct bg; reflexivity|]. split; [intros H; contradiction|].
    intros _. destruct bg; reflexivity.
Qed.

(** X10: [GetANSIConstant] returns an escape sequence for every name,
    the reset sequence for the names it does not know. *)
Theorem GetANSIConstant_total (tm : ThemeManager) (name : string) :
  isSGR (GetANSIConstant tm name) = true
  /\ (~ In name ansiNames -> GetANSIConstant tm name = esc "[0m").
Proof.
  unfold GetANSIConstant.
  destruct (decide (name ∈ ansiNames)) as [Hin|Hout].
  - split; [|intros H; exfalso; apply H, list_elem_of_In, Hin].
    unfold ansiNames in Hin.
    repeat (apply elem_of_cons in Hin; destruct Hin as [->|Hin]);
      [..|apply elem_of_nil in Hin; destruct Hin]; vm_compute; reflexivity.
  - assert (E : ansiConstants !! name = None)
      by (apply not_elem_of_list_to_map_1; exact Hout).
    rewrite E. split; reflexivity.
Qed.

(** X11: [SupportsColor] is true exactly when TERM is set and is not
    "dumb"; COLORTERM and the list of terminals change nothing. *)
Theorem SupportsColor_iff (tm : ThemeManager) (env : Env) :
  SupportsColor tm env = true
  <-> exists term, env !! "TERM"%string = Some term /\ term <> str "dumb".
Proof.
  unfold SupportsColor, LookupEnv. destruct (env !! "TERM"%string) as [term|].
  - unfold gostring_eqb. destruct (bool_decide_reflect (term = str "dumb")) as [->|Hne].
    + split; [discriminate|]. intros (t & [= <-] & H). contradiction.
    + split; [intros _; eauto|]. intros _.
      repeat case_match; reflexivity.
  - split; [discriminate|]. intros (t & H & _). discriminate H.
Qed.

(** *** Detection of the background *)

Lemma le_8_15 bg : le (str "8") bg && le bg (str "15") = false.
Proof.
  destruct bg as [|c t]; [reflexivity|].
  cbn [str list_ascii_of_string le].
  destruct (nat_of_ascii "8" <? nat_of_ascii c)%nat eqn:E1.
  - destruct (nat_of_ascii c <? nat_of_ascii "1")%nat eqn:E2.
    + apply Nat.ltb_lt in E1, E2. change (nat_of_ascii "8") with 56%nat in E1.
      change (nat_of_ascii "1") with 49%nat in E2. lia.
    + destruct (nat_of_ascii "1" <? nat_of_ascii c)%nat eqn:E3; [reflexivity|].
      apply Nat.ltb_lt in E1. apply Nat.ltb_ge in E3.
      change (nat_of_ascii "8") with 56%nat in E1.
      change (nat_of_ascii "1") with 49%nat in E3. lia.
  - destruct (nat_of_ascii c <? nat_of_ascii "8")%nat eqn:E4; [reflexivity|].
    apply Nat.ltb_ge in E1, E4.
    destruct (nat_of_ascii c <? nat_of_ascii "1")%nat eqn:E2.
    + apply Nat.ltb_lt in E2. change (nat_of_ascii "8") with 56%nat in E4.
      change (nat_of_ascii "1") with 49%nat in E2. lia.
    + destruct (nat_of_ascii "1" <? nat_of_ascii c)%nat eqn:E3.
      * apply andb_false_r.
      * apply Nat.ltb_ge in E3. change (nat_of_ascii "8") with 56%nat in E4.
        change (nat_of_ascii "1") with 49%nat in E3. lia.
Qed.

Lemma colorfgbg_never_light env : colorfgbgBackground env <> Some BackgroundLight.
Proof.
  unfold colorfgbgBackground. repeat case_match; try discriminate.
  match goal with H : le (str "8") _ && le _ (str "15") = true |- _ =>
    rewrite le_8_15 in H; discriminate H end.
Qed.

Section detection.
Context {caseTable : unicode.CaseTable}.

(** X12: the detection never answers [BackgroundUnknown], whatever the
    environment and the operating system are, so [New] always takes the
    scheme of the detected background. *)
Theorem DetectTerminalBackground_known (env : Env) (GOOS : string) :
  DetectTerminalBackground env GOOS <> BackgroundUnknown
  /\ colors (New env GOOS)
     = (if IsLightBackground (New env GOOS)
        then buildLightColorScheme else buildDarkColorScheme).
Proof.
  assert (H : DetectTerminalBackground env GOOS <> BackgroundUnknown).
  { unfold DetectTerminalBackground, colorfgbgBackground, detectMacOSBackground,
      detectLinuxBackground, detectWindowsBackground.
    repeat case_match; simplify_eq; discriminate. }
  split; [exact H|]. unfold New, NewWithBackground, IsLightBackground. simpl.
  destruct (DetectTerminalBackground env GOOS); [contradiction|reflexivity|reflexivity].
Qed.

Lemma indicatorSet_light env :
  isLightThemeEnvironment env = true ->
  Getenv env "LIGHT_MODE" = str "1"
  \/ Getenv env "THEME" = str "light"
  \/ Getenv env "COLOR_SCHEME" = str "light".
Proof.
  unfold isLightThemeEnvironment, indicatorSet. cbn [existsb].
  change (Split (str "LIGHT_MODE=1") "=") with [str "LIGHT_MODE"; str "1"].
  change (Split (str "THEME=light") "=") with [str "THEME"; str "light"].
  change (Split (str "COLOR_SCHEME=light") "=") with [str "COLOR_SCHEME"; str "light"].
  cbn [string_of_list_ascii str list_ascii_of_string].
  rewrite !orb_true_iff. unfold gostring_eqb.
  intros [H|[H|[H|H]]]; try discriminate H;
    apply bool_decide_eq_true in H; tauto.
Qed.

(** X13: the detection answers [BackgroundLight] only when one of
    LIGHT_MODE=1, THEME=light and COLOR_SCHEME=light is set: COLORFGBG
    never gives a light background, no string is at least "8" and at most
    "15". *)
Theorem DetectTerminalBackground_light (env : Env) (GOOS : string) :
  DetectTerminalBackground env GOOS = BackgroundLight ->
  Getenv env "LIGHT_MODE" = str "1"
  \/ Getenv env "THEME" = str "light"
  \/ Getenv env "COLOR_SCHEME" = str "light".
Proof.
  unfold DetectTerminalBackground. intros H. apply indicatorSet_light.
  destruct (colorfgbgBackground env) as [bg|] eqn:E.
  - subst bg. exfalso. exact (colorfgbg_never_light env E).
  - destruct (isDarkThemeEnvironment env); [discriminate H|].
    destruct (isLightThemeEnvironment env); [reflexivity|].
    unfold detectMacOSBackground, detectLinuxBackground, detectWindowsBackground in H.
    repeat case_match; discriminate H.
Qed.


End detection.

Lemma DetectTerminalBackground_light_witness :
  DetectTerminalBackground (caseTable := sampleCaseTable) lightModeEnv "linux"
  = BackgroundLight
  /\ (Getenv lightModeEnv "LIGHT_MODE" = str "1"
      \/ Getenv lightModeEnv "THEME" = str "light"
      \/ Getenv lightModeEnv "COLOR_SCHEME" = str "light").
Proof.
  assert (H : DetectTerminalBackground (caseTable := sampleCaseTable)
                lightModeEnv "linux" = BackgroundLight)
    by (vm_compute; reflexivity).
  split; [exact H|].
  exact (DetectTerminalBackground_light (caseTable := sampleCaseTable)
           lightModeEnv "linux" H).
Defined.

Section colorfgbg.
Context {caseTable : unicode.CaseTable}.

(** X14: COLORFGBG comes first and its last field is compared as a
    string: when it has two fields at least and the last one starts with
    a digit from 0 to 6 (as 10 to 15 do), the answer is [BackgroundDark],
    whatever else is set. *)
Theorem DetectTerminalBackground_colorfgbg
    (env : Env) (GOOS : string) (fields : list gostring) (d : ascii)
    (rest : gostring) :
  Split (Getenv env "COLORFGBG") ";" = fields ->
  (2 <= length fields)%nat ->
  last fields = Some (d :: rest) ->
  (48 <= nat_of_ascii d <= 54)%nat ->
  DetectTerminalBackground env GOOS = BackgroundDark.
Proof.
  intros Hf Hlen Hlast Hd. unfold DetectTerminalBackground, colorfgbgBackground.
  cbv zeta.
  assert (Hne : gostring_eqb (Getenv env "COLORFGBG") [] = false).
  { apply bool_decide_eq_false. intros E0. rewrite E0 in Hf. simpl in Hf.
    subst fields. simpl in Hlen. lia. }
  rewrite Hne, Hf. cbn [negb].
  destruct (Nat.leb_spec 2 (length fields)); [|lia].
  rewrite Hlast. change (default [] (Some (d :: rest))) with (d :: rest).
  assert (L0 : le (str "0") (d :: rest) = true).
  { cbn [str list_ascii_of_string le]. change (nat_of_ascii "0") with 48%nat.
    destruct (Nat.ltb_spec 48 (nat_of_ascii d)); [reflexivity|].
    destruct (Nat.ltb_spec (nat_of_ascii d) 48); [lia|reflexivity]. }
  assert (L7 : le (d :: rest) (str "7") = true).
  { cbn [str list_ascii_of_string le]. change (nat_of_ascii "7") with 55%nat.
    destruct (Nat.ltb_spec (nat_of_ascii d) 55); [reflexivity|lia]. }
  rewrite L0, L7. reflexivity.
Qed.

End colorfgbg.

Lemma DetectTerminalBackground_colorfgbg_witness :
  Split (Getenv whiteOnBlackEnv "COLORFGBG") ";" = [str "0"; str "15"]
  /\ Getenv whiteOnBlackEnv "LIGHT_MODE" = str "1"
  /\ DetectTerminalBackground (caseTable := sampleCaseTable)
       whiteOnBlackEnv "linux" = BackgroundDark.
Proof.
  assert (H : Split (Getenv whiteOnBlackEnv "COLORFGBG") ";" = [str "0"; str "15"])
    by (vm_compute; reflexivity).
  split; [exact H|]. split; [vm_compute; reflexivity|].
  apply (DetectTerminalBackground_colorfgbg (caseTable := sampleCaseTable)
           whiteOnBlackEnv "linux"
           [str "0"; str "15"] "1"%char (str "5") H).
  - simpl. lia.
  - reflexivity.
  - vm_compute. lia.
Defined.

End theme_facts.

(** ** highlighter.go, further properties *)

Module highlighter_extra.
Import strings strings_facts utf8 utf8_facts highlighter notions more_notions
  highlighter_facts.

Section hints.
Context {caseTable : unicode.CaseTable}.

Lemma normalizeLanguage_TrimSpace l :
  normalizeLanguage (TrimSpace l) = normalizeLanguage l.
Proof. rewrite !normalizeLanguage_switch, TrimSpace_idem. reflexivity. Qed.

Section with_laws.
Hypothesis laws : lowerCaseLaws caseTable.

Lemma normalizeLanguage_ToLower l :
  normalizeLanguage (ToLower l) = normalizeLanguage l.
Proof.
  rewrite !normalizeLanguage_switch, (TrimSpace_ToLower laws), (ToLower_idem laws).
  reflexivity.
Qed.

Lemma normalizeLanguage_idem l :
  normalizeLanguage (normalizeLanguage l) = normalizeLanguage l.
Proof.
  rewrite (normalizeLanguage_switch (normalizeLanguage l)).
  pose proof (normalizeLanguage_normalForm laws l) as Hn. unfold normalForm in Hn.
  rewrite Hn, (normalizeLanguage_switch l). apply normalizeSwitch_idem.
Qed.

End with_laws.

(** X15: [Highlight] does not depend on the case of the language hint,
    on the white space around it, or on whether the hint is already
    normalized.  The table of Go's [unicode] package comes in through
    [lowerCaseLaws]. *)
Theorem Highlight_language_insensitive
    (h : Highlighter) (code language : gostring) :
  lowerCaseLaws caseTable ->
  Highlight h code (ToLower language) = Highlight h code language
  /\ Highlight h code (TrimSpace language) = Highlight h code language
  /\ Highlight h code (normalizeLanguage language) = Highlight h code language.
Proof.
  intros laws. unfold Highlight.
  rewrite (normalizeLanguage_ToLower laws), normalizeLanguage_TrimSpace,
    (normalizeLanguage_idem laws).
  repeat split; reflexivity.
Qed.

Lemma aliases_rewritten :
  Forall (fun a => normalizeSwitch a <> a /\ ~ In a canonicalNames) languageAliases.
Proof.
  repeat constructor; try (vm_compute; discriminate);
    vm_compute; intuition discriminate.
Qed.

(** X16: [normalizeLanguage] never returns one of the aliases that its
    switch rewrites (js, py, sh, yml, golang, ...). *)
Theorem normalizeLanguage_no_alias (language : gostring) :
  ~ In (normalizeLanguage language) languageAliases.
Proof.
  intros Hin. pose proof aliases_rewritten as F. rewrite Forall_forall in F.
  apply list_elem_of_In, F in Hin. destruct Hin as [Hne Hnc].
  rewrite normalizeLanguage_switch in Hne, Hnc.
  destruct (normalizeSwitch_cases (ToLower (TrimSpace language))) as [H|H].
  - apply Hne. apply normalizeSwitch_idem.
  - exact (Hnc H).
Qed.

End hints.

Lemma Highlight_language_insensitive_witness :
  let h := darkHighlighter {| chromaHighlight := fun code language =>
                                (language ++ str ":" ++ code, None) |} in
  let hint := str " " ++ [byteOf 195; byteOf 156] ++ str "JS " in
  lowerCaseLaws sampleCaseTable
  /\ Highlight (caseTable := sampleCaseTable) h (str "x") hint
     = ([byteOf 195; byteOf 188] ++ str "js:x", None)
  /\ Highlight (caseTable := sampleCaseTable) h (str "x")
       (ToLower (caseTable := sampleCaseTable) hint)
     = Highlight (caseTable := sampleCaseTable) h (str "x") hint.
Proof.
  split; [exact sampleCaseTable_laws|]. split; [vm_compute; reflexivity|].
  apply (Highlight_language_insensitive (caseTable := sampleCaseTable)
           _ (str "x") (str " " ++ [byteOf 195; byteOf 156] ++ str "JS ")
           sampleCaseTable_laws).
Defined.

End highlighter_extra.

(** ** The renderer, further properties *)

Module renderer_extra.
Import strings strings_facts ast renderer notions more_notions postprocess
  renderer_facts styles_facts.

Lemma walkHelper_as_output tr n parents prev next w :
  walkHelper (walker tr) parents prev next n w
  = out ← output tr parents prev next n; Ret (WalkContinue, None, w ++ out).
Proof. apply walkHelper_output. Qed.

Lemma walkChildren_as_output tr parents first cs w :
  walkChildren (walkHelper (walker tr) parents) first cs w
  = out ← outputChildren (output tr parents) first cs;
    Ret (WalkContinue, None, w ++ out).
Proof.
  apply walkChildren_output. apply Forall_forall. intros x _ p nx w0.
  apply walkHelper_output.
Qed.

(** X17: a node that the renderer does not render itself (the document,
    raw HTML, a text block, an image, the header row of a table, any
    unknown kind) is transparent: walking it is walking its children. *)
Theorem silent_nodes_transparent
    (tr : terminalRenderer) (parents : list NodeKind) (prev next : bool)
    (k : NodeKind) (cs : list Node) (w : Buffer) :
  silentKind k = true ->
  walkHelper (walker tr) parents prev next (mkNode k cs) w
  = walkChildren (walkHelper (walker tr) (k :: parents)) true cs w.
Proof.
  intros Hk. rewrite walkHelper_as_output, walkChildren_as_output. simpl.
  assert (E : forall entering,
    renderNode tr {| node := mkNode k cs; ancestors := parents;
                     hasPreviousSibling := prev; hasNextSibling := next |} entering
    = Ret ([], None)).
  { intros entering. unfold renderNode. simpl.
    destruct k; try discriminate Hk; try reflexivity.
    simpl in Hk. apply negb_true_iff in Hk.
    rewrite !orb_false_iff in Hk. destruct Hk as (H1 & H2 & H3 & H4 & H5 & _).
    rewrite H1, H2, H3, H4, H5.
    destruct (String.eqb kind "TableHeader"); reflexivity. }
  rewrite !E. simpl.
  destruct (outputChildren (output tr (k :: parents)) true cs); simpl;
    [rewrite app_nil_r; reflexivity|reflexivity].
Qed.

Lemma outputChildren_text_in_codespan tr parents cs : forall first,
  Forall isTextLeaf cs ->
  outputChildren (output tr (CodeSpan :: parents)) first cs = Ret [].
Proof.
  induction cs as [|c cs IH]; intros first H; [reflexivity|].
  inversion H as [|? ? (v & raw & hard & soft & ->) Hcs]; subst.
  simpl. rewrite (IH false Hcs). reflexivity.
Qed.

(** X18: the walk of a code span writes the highlighted text of the span
    once: the text nodes below a code span write nothing. *)
Theorem CodeSpan_written_once
    (tr : terminalRenderer) (parents : list NodeKind) (prev next : bool)
    (cs : list Node) (w : Buffer) :
  Forall isTextLeaf cs ->
  walkHelper (walker tr) parents prev next (mkNode CodeSpan cs) w
  = Ret (WalkContinue, None,
         w ++ [Lit (HighlightInlineCode (highlighter tr)
                      (concat (map NodeText cs)))]).
Proof.
  intros H. rewrite walkHelper_as_output. simpl.
  rewrite (outputChildren_text_in_codespan tr parents cs true H). reflexivity.
Qed.


(** *** Panics *)

Lemma renderNode_notOK tr n :
  nodeOK (ancestors n) (Kind (node n)) = false ->
  renderNode tr n true = Panic.
Proof.
  unfold nodeOK, renderNode. destruct (Kind (node n)); try discriminate.
  - intros H. unfold renderListItem, Repeat.
    assert (E : filter isList (ancestors n) = []).
    { induction (ancestors n) as [|k ps IH]; [reflexivity|].
      simpl in H. apply orb_false_iff in H. destruct H as [H1 H2].
      rewrite filter_cons. destruct (decide (isList k)) as [Hk|Hk].
      - rewrite H1 in Hk. destruct Hk.
      - apply IH, H2. }
    rewrite E. reflexivity.
  - destruct (String.eqb_spec kind "TableCell") as [->|]; [|discriminate].
    unfold Parent. destruct (ancestors n) eqn:E; [|discriminate].
    intros _. simpl. unfold renderTableCell, Parent. rewrite E. reflexivity.
Qed.

Lemma outputChildren_panics outputChild parents cs :
  Forall (fun c => forall prev next,
            outputChild prev next c = Panic <-> wellFormed parents c = false) cs ->
  forall first,
    outputChildren outputChild first cs = Panic
    <-> forallb (wellFormed parents) cs = false.
Proof.
  induction 1 as [|c rest Hc _ IH]; intros first; simpl.
  - split; discriminate.
  - rewrite andb_false_iff, <- (Hc (negb first) (match rest with [] => false | _ => true end)),
      <- (IH false).
    destruct (outputChild _ _ c) as [o|]; simpl.
    + destruct (outputChildren outputChild false rest); simpl.
      * split; [discriminate|]. intros [H|H]; discriminate H.
      * split; [auto|reflexivity].
    + split; [auto|reflexivity].
Qed.

Lemma output_panics tr n : forall parents prev next,
  output tr parents prev next n = Panic <-> wellFormed parents n = false.
Proof.
  induction n as [k cs IH] using Node_forall_ind. intros parents prev next.
  simpl. rewrite andb_false_iff.
  destruct (nodeOK parents k) eqn:Hok.
  - destruct (renderNode_wellFormed tr
      {| node := mkNode k cs; ancestors := parents;
         hasPreviousSibling := prev; hasNextSibling := next |} true Hok) as [o1 ->].
    destruct (renderNode_wellFormed tr
      {| node := mkNode k cs; ancestors := parents;
         hasPreviousSibling := prev; hasNextSibling := next |} false Hok) as [o2 ->].
    simpl.
    rewrite <- (outputChildren_panics (output tr (k :: parents)) (k :: parents) cs)
      with (first := true).
    2:{ eapply Forall_impl; [exact IH|]. intros c Hc p nx. apply Hc. }
    destruct (outputChildren _ true cs); simpl.
    + split; [discriminate|]. intros [H|H]; discriminate H.
    + split; [auto|reflexivity].
  - rewrite (renderNode_notOK tr
      {| node := mkNode k cs; ancestors := parents;
         hasPreviousSibling := prev; hasNextSibling := next |} Hok).
    simpl. split; [auto|reflexivity].
Qed.

(** X19: [RenderContent] panics exactly on the trees that are not well
    formed: with a list item outside every list, or a table cell without
    parent. *)
Theorem RenderContent_panics_iff
    (r : Renderer) (hl : CodeHighlighter) (doc : Node) :
  RenderContent r doc hl = Panic <-> wellFormed [] doc = false.
Proof.
  rewrite RenderContent_output, <- (output_panics
    {| themeManager := rThemeManager r; highlighter := hl |} doc [] false false).
  destruct (output _ [] false false doc); simpl; split; auto; discriminate.
Qed.

(** X20: [render] returns no error and only appends to the buffer, and
    what it appends does not depend on what the buffer held. *)
Theorem render_appends
    (tr : terminalRenderer) (doc : Node) (w w' : Buffer) (err : option error) :
  render tr w doc = Ret (err, w') ->
  err = None
  /\ exists out, w' = w ++ out
       /\ forall w0, render tr w0 doc = Ret (None, w0 ++ out).
Proof.
  rewrite render_output.
  destruct (output tr [] false false doc) as [out|] eqn:E; simpl; [|discriminate].
  intros [= <- <-]. split; [reflexivity|]. exists out. split; [reflexivity|].
  intros w0. rewrite render_output, E. reflexivity.
Qed.

Lemma render_appends_witness :
  exists out,
    [Lit (str "x")] ++ [Lit (str "A"); Lit [LF]] = [Lit (str "x")] ++ out
    /\ forall w0,
         render darkTerminal w0 (mkNode Document [mkNode Paragraph [text "A"]])
         = Ret (None, w0 ++ out).
Proof.
  exact (proj2 (render_appends darkTerminal
                  (mkNode Document [mkNode Paragraph [text "A"]])
                  [Lit (str "x")] _ None eq_refl)).
Defined.


(** *** Text *)

Lemma imap_separated_length tm (h : nat -> gostring -> Buffer) (s : nat -> ascii) l :
  (forall i line, h i line = [Lit [s i]; Lit line]) ->
  length (Bytes tm (concat (imap h l))) = (length l + length (concat l))%nat.
Proof.
  revert h s. induction l as [|x l IH]; intros h s Hh; [reflexivity|].
  simpl. rewrite Hh, Bytes_app, length_app.
  rewrite (IH (h ∘ S) (s ∘ S)) by (intros i line; apply Hh).
  unfold Bytes. simpl. rewrite !length_app. simpl. lia.
Qed.

Lemma imap_separated_LF tm (h : nat -> gostring -> Buffer) l :
  (forall i line, h i line = [Lit [LF]; Lit line]) ->
  Bytes tm (concat (imap h l)) = concat (map (cons LF) l).
Proof.
  revert h. induction l as [|x l IH]; intros h Hh; [reflexivity|].
  simpl. rewrite Hh, Bytes_app.
  rewrite (IH (h ∘ S)) by (intros i line; apply Hh).
  unfold Bytes. simpl. rewrite app_nil_r. reflexivity.
Qed.

Lemma Join_cons_LF x l : Join (x :: l) [LF] = x ++ concat (map (cons LF) l).
Proof.
  revert x. induction l as [|y l IH]; intros x; simpl.
  - rewrite app_nil_r. reflexivity.
  - change (match l with [] => y | _ :: _ => y ++ LF :: Join l [LF] end)
      with (Join (y :: l) [LF]).
    rewrite IH. reflexivity.
Qed.

(** X21: a text node outside a code span writes text only, as many bytes
    as its value has; it writes the value itself when the node is raw,
    when it ends in a hard line break, or when the value holds no
    newline. *)
Theorem renderText_bytes
    (tm : theme.ThemeManager) (n : Cursor) (v : gostring) (raw hard soft : bool) :
  Parent n <> Some CodeSpan ->
  exists out,
    renderText n v raw hard soft true = Ret (out, None)
    /\ onlyText out
    /\ length (Bytes tm out) = length v
    /\ (raw = true \/ hard = true \/ ~ In LF v -> Bytes tm out = v).
Proof.
  intros Hp.
  assert (E : renderText n v raw hard soft true
    = if raw then Ret ([Lit v], None)
      else Ret (concat (imap (fun i line =>
             (if (0 <? i)%nat then
                if hard || ((i =? length (Split v LF) - 1)%nat && soft)
                then [Lit [LF]] else [Lit [SP]]
              else []) ++ [Lit line]) (Split v LF)), None)).
  { unfold renderText, ok. destruct (Parent n) as [[]|]; try reflexivity.
    contradiction. }
  rewrite E. clear E. destruct raw.
  { exists [Lit v]. split; [reflexivity|]. split; [repeat constructor|].
    assert (B : Bytes tm [Lit v] = v) by apply app_nil_r.
    rewrite B. auto. }
  eexists. split; [reflexivity|]. split.
  { apply concat_imap_lits. intros i x. unfold onlyText.
    repeat case_match; repeat constructor. }
  pose proof (Join_Split v LF) as HJ.
  pose proof (Split_nonempty v LF) as Hne.
  destruct (Split v LF) as [|x l] eqn:ES; [contradiction|].
  cbn [imap concat]. rewrite Bytes_app.
  change (0 <? 0)%nat with false. cbn iota.
  change (Bytes tm ([] ++ [Lit x])) with (x ++ []). rewrite app_nil_r.
  rewrite Join_cons_LF in HJ.
  split.
  - rewrite length_app.
    rewrite (imap_separated_length tm _
               (fun i => if hard || ((S i =? length (x :: l) - 1)%nat && soft)
                         then LF else SP)).
    + rewrite <- HJ, length_app. f_equal.
      clear. induction l as [|y l IH]; [reflexivity|].
      simpl. rewrite !length_app, <- IH. lia.
    + intros i line. simpl.
      destruct (hard || _); reflexivity.
  - intros [H|[H|H]]; [discriminate H| |].
    + subst hard. rewrite (imap_separated_LF tm).
      * exact HJ.
      * intros i line. reflexivity.
    + assert (l = []) as ->.
      { rewrite (Split_line v LF H) in ES. injection ES as _ <-. reflexivity. }
      simpl. simpl in HJ. rewrite app_nil_r in *. exact HJ.
Qed.

Lemma renderText_bytes_witness :
  Parent bulletItem <> Some CodeSpan
  /\ exists out,
       renderText bulletItem (str "a") false false true true = Ret (out, None)
       /\ onlyText out
       /\ length (Bytes darkTheme out) = length (str "a")
       /\ (false = true \/ false = true \/ ~ In LF (str "a")
           -> Bytes darkTheme out = str "a").
Proof.
  assert (H : Parent bulletItem <> Some CodeSpan) by discriminate.
  split; [exact H|].
  exact (renderText_bytes darkTheme bulletItem (str "a") false false true H).
Defined.


(** *** Code blocks *)

Lemma Indent_one_lines text :
  exists indented,
    Indent text 1 = Ret indented /\ Forall indentedLine (Split indented LF).
Proof.
  rewrite Indent_one. eexists. split; [reflexivity|].
  rewrite Split_Join.
  - apply Forall_map, Forall_forall. intros line _. simpl.
    destruct (TrimSpace line) eqn:E; [left; exact E|right; eexists; reflexivity].
  - pose proof (Split_nonempty text LF). destruct (Split text LF); [contradiction|discriminate].
  - apply Forall_map. eapply Forall_impl; [apply Split_no_sep|].
    intros l Hl. simpl. destruct (TrimSpace l); [exact Hl|].
    intros [H|[H|H]]; [discriminate H|discriminate H|exact (Hl H)].
Qed.

(** X22: entering a code block, fenced or not, returns no error and
    writes a newline, the block and two newlines, where every line of
    the block is of white space only or starts with two spaces; leaving it
    writes nothing. *)
Theorem code_blocks_indented
    (tr : terminalRenderer) (n : Cursor) (Info : option gostring)
    (Lines : list gostring) :
  (exists indented,
      renderFencedCodeBlock tr n Info Lines true
      = Ret ([Lit [LF]; Lit indented; Lit [LF; LF]], None)
      /\ Forall indentedLine (Split indented LF))
  /\ (exists indented,
        renderCodeBlock tr n Lines true
        = Ret ([Lit [LF]; Lit indented; Lit [LF; LF]], None)
        /\ Forall indentedLine (Split indented LF))
  /\ renderFencedCodeBlock tr n Info Lines false = Ret ([], None)
  /\ renderCodeBlock tr n Lines false = Ret ([], None).
Proof.
  split; [|split; [|split; reflexivity]].
  - unfold renderFencedCodeBlock.
    destruct (Highlight _ _ _) as [hl err].
    match goal with |- context [Indent ?t 1] =>
      destruct (Indent_one_lines t) as (ind & -> & H) end.
    exists ind. split; [reflexivity|exact H].
  - unfold renderCodeBlock.
    match goal with |- context [Indent ?t 1] =>
      destruct (Indent_one_lines t) as (ind & -> & H) end.
    exists ind. split; [reflexivity|exact H].
Qed.

(** X23: when the highlighter fails, a fenced code block is rendered as
    the indented code block of the same lines is. *)
Theorem fenced_fallback_is_code_block
    (tr : terminalRenderer) (n : Cursor) (Info : option gostring)
    (Lines : list gostring) (entering : bool)
    (highlighted : gostring) (e : error) :
  Highlight (highlighter tr) (concat Lines)
    (match Info with Some info => info | None => [] end)
  = (highlighted, Some e) ->
  renderFencedCodeBlock tr n Info Lines entering
  = renderCodeBlock tr n Lines entering.
Proof.
  intros H. unfold renderFencedCodeBlock, renderCodeBlock. rewrite H. reflexivity.
Qed.

Lemma fenced_fallback_is_code_block_witness :
  renderFencedCodeBlock darkTerminal bulletItem (Some (str "nolang")) [str "x=1"] true
  = renderCodeBlock darkTerminal bulletItem [str "x=1"] true.
Proof.
  exact (fenced_fallback_is_code_block darkTerminal bulletItem (Some (str "nolang"))
           [str "x=1"] true []
           (str "no suitable lexer found for language: nolang") eq_refl).
Defined.

(** *** Lists *)

Lemma filter_isList_nil parents :
  existsb isList parents = false -> filter isList parents = [].
Proof.
  induction parents as [|k ps IH]; [reflexivity|]. simpl. intros H.
  apply orb_false_iff in H. destruct H as [H1 H2].
  rewrite filter_cons. destruct (decide (isList k)) as [Hk|Hk].
  - rewrite H1 in Hk. destruct Hk.
  - apply IH, H2.
Qed.

(** X24: [renderListItem] panics exactly when it enters an item that has
    no list above it (the count for [strings.Repeat] is then -1). *)
Theorem renderListItem_panics_iff (n : Cursor) (entering : bool) :
  renderListItem n entering = Panic
  <-> entering = true /\ existsb isList (ancestors n) = false.
Proof.
  unfold renderListItem. destruct entering; [|split; [discriminate|intros [H _]; discriminate H]].
  unfold Repeat. destruct (existsb isList (ancestors n)) eqn:E.
  - rewrite filter_isList_length by exact E. simpl.
    split; [discriminate|intros [_ H]; discriminate H].
  - rewrite filter_isList_nil by exact E. simpl. split; auto.
Qed.

(** X25: an item of a list that is nested in an item is indented by two
    spaces more than that item. *)
Theorem nested_item_indentation
    (n inner : Cursor) (IsOrdered : bool) :
  (1 <= length (filter isList (ancestors n)))%nat ->
  ancestors inner = List IsOrdered :: ListItem :: ancestors n ->
  exists indent marker marker',
    renderListItem n true
    = Ret ([Lit NBSP; Lit indent] ++ marker ++ [Lit [SP]], None)
    /\ renderListItem inner true
       = Ret ([Lit NBSP; Lit (SP :: SP :: indent)] ++ marker' ++ [Lit [SP]], None).
Proof.
  intros Hd Hin.
  assert (E : forall c d, (1 <= d)%nat -> length (filter isList (ancestors c)) = d ->
    exists marker,
      renderListItem c true
      = Ret ([Lit NBSP; Lit (repeat SP (2 * (d - 1)))] ++ marker ++ [Lit [SP]], None)).
  { intros c d H1 H2. unfold renderListItem, Repeat. rewrite H2.
    destruct (Z.ltb_spec (Z.of_nat d - 1) 0); [lia|].
    replace (Z.to_nat (Z.of_nat d - 1)) with (d - 1)%nat by lia.
    simpl. rewrite concat_repeat_two_spaces. eexists. reflexivity. }
  destruct (E n _ Hd eq_refl) as [m Hm].
  destruct (E inner (S (length (filter isList (ancestors n))))) as [m' Hm'];
    [lia| |].
  { rewrite Hin. rewrite filter_cons. destruct (decide (isList (List IsOrdered))) as [_|Hn];
      [|exfalso; apply Hn; exact I].
    simpl. rewrite filter_cons. destruct (decide (isList ListItem)) as [Hn|_];
      [destruct Hn|reflexivity]. }
  eexists _, m, m'. split; [exact Hm|]. rewrite Hm'. do 3 f_equal.
  replace (2 * (S (length (filter isList (ancestors n))) - 1))%nat
    with (S (S (2 * (length (filter isList (ancestors n)) - 1)))) by lia.
  reflexivity.
Qed.


(** *** The separator line of a table *)

Lemma occurrences_app e a b :
  occurrences e (a ++ b) = (occurrences e a + occurrences e b)%nat.
Proof. unfold occurrences. rewrite List.filter_app, length_app. reflexivity. Qed.

Lemma separator_segments (dashes : gostring) (m n : nat) : forall s,
  dashes = concat (repeat (str "─") 15) ->
  let segments :=
    flat_map (fun i => [Lit (str "├"); Lit dashes]
                       ++ (if (i <? m)%nat then [Lit (str "┼")] else []))
      (seq s n) in
  occurrences (Lit (str "├")) segments = n
  /\ occurrences (Lit dashes) segments = n
  /\ occurrences (Lit (str "┼")) segments = (Nat.min (s + n) m - Nat.min s m)%nat
  /\ occurrences (Lit (str "┤")) segments = 0%nat.
Proof.
  intros s ->. revert s. induction n as [|n IH]; intros s.
  - repeat split; try reflexivity. rewrite Nat.add_0_r, Nat.sub_diag. reflexivity.
  - cbn [seq flat_map]. cbv zeta in IH |- *.
    rewrite !occurrences_app.
    destruct (IH (S s)) as (A & B & C & D). rewrite A, B, C, D.
    set (head := [Lit (str "├"); Lit (concat (repeat (str "─") 15))]).
    assert (P1 : occurrences (Lit (str "├")) head = 1%nat) by (vm_compute; reflexivity).
    assert (P2 : occurrences (Lit (concat (repeat (str "─") 15))) head = 1%nat)
      by (vm_compute; reflexivity).
    assert (P3 : occurrences (Lit (str "┼")) head = 0%nat) by (vm_compute; reflexivity).
    assert (P4 : occurrences (Lit (str "┤")) head = 0%nat) by (vm_compute; reflexivity).
    rewrite P1, P2, P3, P4.
    destruct (Nat.ltb_spec s m);
      (split; [vm_compute; lia|]); (split; [vm_compute; lia|]);
      (split; [|reflexivity]).
    + change (occurrences (Lit (str "┼")) [Lit (str "┼")]) with 1%nat. lia.
    + change (occurrences (Lit (str "┼")) []) with 0%nat. lia.
Qed.

(** X26: [renderTableRow], when it leaves a node of kind "TableHeader"
    with [k] cells, writes a separator line with [k] segments of 15
    dashes, each after a "├", with [k - 1] crosses and one closing "┤". *)
Theorem separator_counts
    (cells : list Node) (parents : list NodeKind) (prev next : bool) :
  exists segments,
    renderTableRow (headerRow cells parents prev next) false
    = Ret ([Color theme.Reset; Lit [LF]; Color theme.TableBorder]
           ++ segments
           ++ [Lit (str "┤"); Color theme.Reset; Lit [LF]], None)
    /\ occurrences (Lit (str "├")) segments = length cells
    /\ occurrences (Lit (concat (repeat (str "─") 15))) segments = length cells
    /\ occurrences (Lit (str "┼")) segments = (length cells - 1)%nat
    /\ occurrences (Lit (str "┤")) segments = 0%nat.
Proof.
  exists (flat_map (fun i => [Lit (str "├"); Lit (concat (repeat (str "─") 15))]
                       ++ (if (i <? length cells - 1)%nat
                           then [Lit (str "┼")] else []))
            (seq 0 (length cells))).
  split; [reflexivity|].
  destruct (separator_segments (concat (repeat (str "─") 15))
              (length cells - 1) (length cells) 0 eq_refl) as (A & B & C & D).
  cbv zeta in A, B, C, D.
  split; [exact A|]. split; [exact B|]. split; [|exact D].
  rewrite C. lia.
Qed.

Lemma silent_nodes_transparent_witness :
  silentKind (Extension "TextBlock") = true
  /\ walkHelper (walker darkTerminal) [ListItem] false false
       (mkNode (Extension "TextBlock") [text "a"]) []
     = walkChildren (walkHelper (walker darkTerminal)
                       [Extension "TextBlock"; ListItem]) true [text "a"] [].
Proof.
  assert (H : silentKind (Extension "TextBlock") = true) by reflexivity.
  split; [exact H|].
  exact (silent_nodes_transparent darkTerminal [ListItem] false false
           (Extension "TextBlock") [text "a"] [] H).
Defined.

Lemma CodeSpan_written_once_witness :
  Forall isTextLeaf [text "x"]
  /\ walkHelper (walker darkTerminal) [Paragraph] false false
       (mkNode CodeSpan [text "x"]) []
     = Ret (WalkContinue, None,
            [] ++ [Lit (HighlightInlineCode (highlighter darkTerminal)
                          (concat (map NodeText [text "x"])))]).
Proof.
  assert (H : Forall isTextLeaf [text "x"]).
  { constructor; [|constructor]. eexists _, _, _, _. reflexivity. }
  split; [exact H|].
  exact (CodeSpan_written_once darkTerminal [Paragraph] false false [text "x"] [] H).
Defined.

Lemma nested_item_indentation_witness :
  exists indent marker marker',
    renderListItem bulletItem true
    = Ret ([Lit NBSP; Lit indent] ++ marker ++ [Lit [SP]], None)
    /\ renderListItem
         {| node := mkNode ListItem [];
            ancestors := List true :: ListItem :: ancestors bulletItem;
            hasPreviousSibling := false; hasNextSibling := false |} true
       = Ret ([Lit NBSP; Lit (SP :: SP :: indent)] ++ marker' ++ [Lit [SP]], None).
Proof.
  apply (nested_item_indentation bulletItem
           {| node := mkNode ListItem [];
              ancestors := List true :: ListItem :: ancestors bulletItem;
              hasPreviousSibling := false; hasNextSibling := false |} true).
  - vm_compute. lia.
  - reflexivity.
Defined.

End renderer_extra.

(** ** The viewer *)

Module viewer_facts.
Import strings strings_facts viewer.

Lemma HasSuffix_LF content : HasSuffix content [LF] = true <-> last content = Some LF.
Proof.
  unfold HasSuffix, gostring_eqb.
  destruct content as [|c t] using rev_ind.
  - simpl. split; discriminate.
  - rewrite last_snoc, length_app. cbn [length].
    replace (length t + 1 - 1)%nat with (length t) by lia.
    rewrite drop_app_length.
    replace (1 <=? length t + 1)%nat with true by (symmetry; apply Nat.leb_le; lia).
    cbn [andb]. rewrite bool_decide_eq_true. split; congruence.
Qed.

Lemma Repeat_dashes : Repeat (str "-") 80 = Ret (repeat "-"%char 80).
Proof. reflexivity. Qed.

Lemma fallbackDisplay_ok GOOS v content :
  exists out, fallbackDisplay GOOS v content = Ret (out, None).
Proof.
  unfold fallbackDisplay. rewrite Repeat_dashes. cbn [mbind result_bind].
  eexists. reflexivity.
Qed.

(** X27: the fallback display never fails; it prints the notice, a rule of
    80 dashes, the content, the rule again and, on Windows only, a
    prompt; the content is followed by a newline that is added only when
    the content does not end with one, so the closing rule starts a
    line. *)
Theorem fallbackDisplay_shape (GOOS : string) (v : Viewer) (content : gostring) :
  exists body prompt,
    fallbackDisplay GOOS v content
    = Ret (notice ++ [LF] ++ repeat "-"%char 80 ++ [LF]
           ++ body ++ repeat "-"%char 80 ++ [LF] ++ prompt, None)
    /\ last body = Some LF
    /\ (body = content \/ (last content <> Some LF /\ body = content ++ [LF]))
    /\ (prompt = [] \/ GOOS = "windows"%string).
Proof.
  unfold fallbackDisplay. rewrite Repeat_dashes. cbn [mbind result_bind].
  destruct (HasSuffix content [LF]) eqn:E; cbn [negb].
  - apply HasSuffix_LF in E.
    exists content, (if String.eqb GOOS "windows" then str "Press Enter to continue..." else []).
    split; [|split; [exact E|split; [left; reflexivity|]]].
    + destruct (String.eqb GOOS "windows"); rewrite <- ?app_assoc; simpl;
        rewrite ?app_nil_r, <- ?app_assoc; reflexivity.
    + destruct (String.eqb_spec GOOS "windows"); auto.
  - assert (Hn : last content <> Some LF).
    { intros H. apply HasSuffix_LF in H. congruence. }
    exists (content ++ [LF]),
      (if String.eqb GOOS "windows" then str "Press Enter to continue..." else []).
    split; [|split; [apply last_snoc|split; [right; auto|]]].
    + destruct (String.eqb GOOS "windows"); rewrite <- ?app_assoc; simpl;
        rewrite ?app_nil_r, <- ?app_assoc; reflexivity.
    + destruct (String.eqb_spec GOOS "windows"); auto.
Qed.

(** X28: [DisplayInVimMode] never panics; it returns the error "no content
    to display" exactly for the empty content, and then prints nothing;
    the error "less command not available" of [Display] never comes out
    of it, and without [less] every content that is not empty is
    displayed without error. *)
Theorem DisplayInVimMode_errors
    (run : gostring -> list gostring -> gostring -> lessRun) (GOOS : string)
    (v : Viewer) (content : gostring) :
  exists out err,
    DisplayInVimMode run GOOS v content = Ret (out, err)
    /\ (content = [] -> out = [] /\ err = Some (str "no content to display"))
    /\ (err = Some (str "no content to display") -> content = [])
    /\ err <> Some (str "less command not available")
    /\ (IsLessAvailable (pager v) = false -> content <> [] -> err = None).
Proof.
  unfold DisplayInVimMode.
  destruct (decide (content = [])) as [->|Hne].
  - eexists _, _. split; [reflexivity|].
    split; [intros _; split; reflexivity|]. split; [reflexivity|].
    split; [discriminate|]. intros _ H. contradiction.
  - assert (E : gostring_eqb content [] = false)
      by (apply bool_decide_eq_false; exact Hne).
    rewrite E.
    destruct (IsLessAvailable (pager v)) eqn:Hl; cbn [negb].
    + eexists _, _. split; [reflexivity|].
      split; [intros H; contradiction|].
      unfold IsLessAvailable in Hl. apply negb_true_iff in Hl.
      unfold Display. rewrite Hl.
      split; [|split; [|discriminate]];
        destruct (run _ _ _); try discriminate;
        destruct (status <=? 1)%Z; discriminate.
    + destruct (fallbackDisplay_ok GOOS v content) as (out & ->).
      eexists _, _. split; [reflexivity|].
      split; [intros H; contradiction|]. split; [discriminate|].
      split; [discriminate|]. intros _ _. reflexivity.
Qed.

End viewer_facts.

(** ** Whole documents *)

Module document_facts.
Import strings strings_facts ast renderer notions more_notions postprocess
  renderer_facts.

(** The escape sequences of the two schemes hold no newline and end with
    "m". *)
Lemma GetColor_line bg key :
  ~ In LF (theme.GetColor (theme.NewWithBackground bg) key)
  /\ last (theme.GetColor (theme.NewWithBackground bg) key) = Some "m"%char.
Proof.
  assert (D : forall v : gostring,
    (existsb (Ascii.eqb LF) v = false /\ last v = Some "m"%char) ->
    ~ In LF v /\ last v = Some "m"%char).
  { intros v [H1 H2]. split; [|exact H2]. intros Hin.
    assert (existsb (Ascii.eqb LF) v = true)
      by (apply existsb_exists; exists LF; split; [exact Hin|apply Ascii.eqb_refl]).
    congruence. }
  apply D. unfold theme.GetColor.
  destruct (decide (key ∈ roles)) as [Hin|Hout].
  - unfold roles in Hin.
    repeat (apply elem_of_cons in Hin; destruct Hin as [->|Hin]);
      [..|apply elem_of_nil in Hin; destruct Hin];
      destruct bg; vm_compute; split; reflexivity.
  - assert (E : theme.colors (theme.NewWithBackground bg) !! key = None)
      by (destruct bg; apply not_elem_of_list_to_map_1; exact Hout).
    rewrite E. destruct bg; vm_compute; split; reflexivity.
Qed.

Lemma headingStyle_prefix l :
  ~ In LF (headingStyle l).2.
Proof.
  unfold headingStyle. repeat case_match; simpl; intuition discriminate.
Qed.

Lemma output_text tr parents prev next v raw hard soft :
  head parents <> Some CodeSpan -> ~ In LF v ->
  output tr parents prev next (mkNode (Text v raw hard soft) []) = Ret [Lit v].
Proof.
  intros Hp Hv. simpl. unfold renderNode. simpl. unfold renderText, ok, Parent.
  simpl. rewrite (Split_line v LF Hv).
  destruct (head parents) as [[]|]; try contradiction; destruct raw; reflexivity.
Qed.

Lemma output_heading tr parents prev next Level cs :
  output tr parents prev next (mkNode (Heading Level) cs)
  = inner ← outputChildren (output tr (Heading Level :: parents)) true cs;
    Ret ((if prev then [Lit [LF]] else [])
         ++ [Color (headingStyle Level).1; Lit (headingStyle Level).2]
         ++ inner ++ [Color theme.Reset; Lit [LF]]).
Proof.
  simpl. unfold renderNode. simpl. unfold renderHeading, ok.
  destruct (headingStyle Level) as [role prefix]. simpl.
  destruct (outputChildren _ true cs); simpl; [|reflexivity].
  rewrite <- !app_assoc. reflexivity.
Qed.

Lemma output_paragraph tr parents prev next cs :
  output tr parents prev next (mkNode Paragraph cs)
  = inner ← outputChildren (output tr (Paragraph :: parents)) true cs;
    Ret (inner ++ [Lit [LF]] ++ (if next then [Lit [LF]] else [])).
Proof.
  simpl. unfold renderNode. simpl.
  destruct (outputChildren _ true cs); reflexivity.
Qed.

Lemma output_document tr parents prev next cs :
  output tr parents prev next (mkNode Document cs)
  = outputChildren (output tr (Document :: parents)) true cs.
Proof.
  simpl. unfold renderNode. simpl.
  destruct (outputChildren _ true cs); simpl; [rewrite app_nil_r|]; reflexivity.
Qed.

(** X29: a heading followed by a paragraph, both of one text without
    newline, renders as the heading line (style, prefix, text, reset)
    directly followed by the line of the paragraph: there is no blank
    line between the two. *)
Theorem heading_then_paragraph
    (bg : theme.BackgroundType) (hl : CodeHighlighter) (Level : Z)
    (t b : gostring) (raw hard soft raw' hard' soft' : bool) :
  ~ In LF t -> ~ In LF b -> b <> [] -> noTrailingWhitespace b ->
  RenderContent {| rThemeManager := theme.NewWithBackground bg |}
    (mkNode Document
       [ mkNode (Heading Level) [mkNode (Text t raw hard soft) []];
         mkNode Paragraph [mkNode (Text b raw' hard' soft') []] ]) hl
  = Ret (theme.GetColor (theme.NewWithBackground bg) (headingStyle Level).1
         ++ (headingStyle Level).2 ++ t
         ++ theme.GetColor (theme.NewWithBackground bg) theme.Reset
         ++ [LF] ++ b ++ [LF], None).
Proof.
  intros Ht Hb Hne Hbt.
  rewrite RenderContent_output, output_document. cbn [outputChildren negb].
  rewrite output_heading, output_paragraph. cbn [outputChildren negb].
  rewrite !output_text by (try discriminate; assumption).
  cbn [mbind result_bind app]. do 2 f_equal.
  set (C := theme.GetColor _ (headingStyle Level).1).
  set (R := theme.GetColor _ theme.Reset).
  assert (B : Bytes (theme.NewWithBackground bg)
                [Color (headingStyle Level).1; Lit (headingStyle Level).2; Lit t;
                 Color theme.Reset; Lit [LF]; Lit b; Lit [LF]]
              = (C ++ (headingStyle Level).2 ++ t ++ R) ++ LF :: (b ++ [LF])).
  { unfold Bytes. cbn [map concat resolve]. rewrite <- !app_assoc. reflexivity. }
  cbn [rThemeManager]. rewrite B.
  destruct (GetColor_line bg (headingStyle Level).1) as [C1 C2].
  destruct (GetColor_line bg theme.Reset) as [R1 R2].
  fold C in C1, C2. fold R in R1, R2.
  assert (L1 : ~ In LF (C ++ (headingStyle Level).2 ++ t ++ R)).
  { intros H. repeat (apply in_app_or in H; destruct H as [H|H]); auto.
    exact (headingStyle_prefix Level H). }
  transitivity ((C ++ (headingStyle Level).2 ++ t ++ R) ++ LF :: (b ++ [LF]));
    [|rewrite <- !app_assoc; reflexivity].
  apply postProcess_fixed.
  - unfold linesTrimmed. rewrite Split_cons_line by exact L1.
    rewrite Split_app, (Split_line b LF Hb). simpl.
    repeat constructor; try discriminate; try apply Hbt.
    + rewrite !app_assoc, last_app, R2. discriminate.
    + rewrite !app_assoc, last_app, R2. discriminate.
  - exists ((C ++ (headingStyle Level).2 ++ t ++ R) ++ LF :: b). split.
    + rewrite <- !app_assoc. reflexivity.
    + rewrite last_app. destruct b as [|c b'] using rev_ind; [contradiction|].
      rewrite app_comm_cons, last_snoc. intros [= ->].
      apply Hb, in_or_app. right. left. reflexivity.
Qed.

Lemma heading_then_paragraph_witness :
  RenderContent {| rThemeManager := theme.NewWithBackground theme.BackgroundDark |}
    (mkNode Document
       [ mkNode (Heading 1) [mkNode (Text (str "Title") false false false) []];
         mkNode Paragraph [mkNode (Text (str "Body text.") false false false) []] ])
    failingHighlighter
  = Ret (theme.GetColor (theme.NewWithBackground theme.BackgroundDark)
           (headingStyle 1).1
         ++ (headingStyle 1).2 ++ str "Title"
         ++ theme.GetColor (theme.NewWithBackground theme.BackgroundDark) theme.Reset
         ++ [LF] ++ str "Body text." ++ [LF], None).
Proof.
  apply (heading_then_paragraph theme.BackgroundDark failingHighlighter 1
           (str "Title") (str "Body text.") false false false false false false).
  - vm_compute. intuition discriminate.
  - vm_compute. intuition discriminate.
  - discriminate.
  - split; discriminate.
Defined.

End document_facts.
